(* Shallow embedding of drivers/vfio/mig_state_study.py: the study of the
   VFIO migration FSM table (blocked transitions, one-hop arcs, combination
   paths, shortest-path ambiguity, error unwind, mlx5 arc conformance). *)

From stdpp Require Import gmap strings list fin_maps fin_sets sorting.

Local Open Scope string_scope.
Local Open Scope list_scope.
Local Open Scope nat_scope.

(* ===================================================================== *)
(* Data model                                                            *)
(* ===================================================================== *)

(* A state is the name captured after VFIO_DEVICE_STATE_ by the regular
   expressions of the script; the table all_arcs maps a pair of states
   (current, target) to the next step; a path is a list of states. *)
Definition ERROR : string := "ERROR".

(* Python exceptions the script can die with. *)
Inductive exn : Type :=
  | KeyError            (* d[k] with k absent *)
  | AssertionError      (* a failed assert statement *)
  | IndexError          (* l[i] with i out of range *)
  | NodeNotFound        (* networkx: source is not a node of the graph *)
  | NetworkXNoPath.     (* networkx: target not reachable from source *)

(* Outcome of running a piece of the script: it returns, it dies with an
   exception, or the iteration budget given to a while loop ran out. *)
Inductive outcome (A : Type) : Type :=
  | Returns (a : A)
  | Raises (e : exn)
  | OutOfFuel.
Arguments Returns {A} a.
Arguments Raises {A} e.
Arguments OutOfFuel {A}.

Definition obind {A B} (m : outcome A) (k : A → outcome B) : outcome B :=
  match m with
  | Returns a => k a
  | Raises e => Raises e
  | OutOfFuel => OutOfFuel
  end.

Notation "x ←! m ; k" := (obind m (λ x, k))
  (at level 20, m at level 100, k at level 200, right associativity,
   format "x  ←!  m ;  '/' k").

(* d[k] *)
Definition getitem {V} (d : gmap (string * string) V) (k : string * string)
  : outcome V :=
  match d !! k with
  | Some v => Returns v
  | None => Raises KeyError
  end.

(* assert b *)
Definition assert (b : bool) : outcome unit :=
  if b then Returns tt else Raises AssertionError.

(* A generator expression  (f x for x in l if cond x)  whose condition and
   body may raise: elements are visited in order, the first exception
   ends the evaluation. [f x = Returns None] means the condition is false. *)
Fixpoint comprehension {A B} (f : A → outcome (option B)) (l : list A)
  : outcome (list B) :=
  match l with
  | [] => Returns []
  | x :: l' =>
      r ←! f x;
      rs ←! comprehension f l';
      Returns (match r with Some y => y :: rs | None => rs end)
  end.

(* ===================================================================== *)
(* Text and regular expressions                                          *)
(* ===================================================================== *)

Import (notations) Stdlib.Strings.Ascii.

(* A text is a str whose characters have code points below 256. *)

(* str.isspace of one character: the code points 9-13, 28-32, 133, 160. *)
Definition isspace (a : Ascii.ascii) : bool :=
  match a with
  | "009"%char | "010"%char | "011"%char | "012"%char | "013"%char
  | "028"%char | "029"%char | "030"%char | "031"%char | " "%char
  | "133"%char | "160"%char => true
  | _ => false
  end.

Fixpoint lstrip (s : string) : string :=
  match s with
  | String a s' => if isspace a then lstrip s' else s
  | "" => ""
  end.

Fixpoint rstrip (s : string) : string :=
  match s with
  | String a s' =>
      match rstrip s' with
      | "" => if isspace a then "" else String a ""
      | r => String a r
      end
  | "" => ""
  end.

(* ln.strip() *)
Definition strip (s : string) : string := rstrip (lstrip s).

(* The line boundaries of str.splitlines: \n, \r, \r\n, \v, \f, \x1c,
   \x1d, \x1e, \x85. *)
Definition linebreak (a : Ascii.ascii) : bool :=
  match a with
  | "010"%char | "011"%char | "012"%char | "013"%char
  | "028"%char | "029"%char | "030"%char | "133"%char => true
  | _ => false
  end.

(* code.splitlines(): the lines without their boundaries; no empty last
   line after a final boundary. *)
Fixpoint splitlines (s : string) : list string :=
  match s with
  | "" => []
  | String a s' =>
      if linebreak a then
        "" :: match a, s' with
              | "013"%char, String "010"%char s'' => splitlines s''
              | _, _ => splitlines s'
              end
      else
        match splitlines s' with
        | [] => [String a ""]
        | l :: ls => String a l :: ls
        end
  end.

(* The regular expressions of the script are sequences of literal text
   and of groups of any characters, greedy (a dot and a star) or lazy (a
   dot, a star and a question mark). *)
Inductive item :=
  | Literal (l : string)
  | GreedyGroup
  | LazyGroup.

(* What "." matches: any character, but "\n" only with re.DOTALL. *)
Definition dot (dotall : bool) (a : Ascii.ascii) : bool :=
  dotall || negb (Ascii.eqb a "010"%char).

(* The rest of [s] after the literal [l], if [s] starts with it. *)
Fixpoint strip_prefix (l s : string) : option string :=
  match l, s with
  | "", _ => Some s
  | String a l', String b s' =>
      if Ascii.eqb a b then strip_prefix l' s' else None
  | String _ _, "" => None
  end.

(* A greedy group followed by [k]: the longest group is tried first, then
   the shorter ones. *)
Fixpoint greedy {R} (dotall : bool) (s : string)
    (k : string → string → option R) : option R :=
  match s with
  | String a s' =>
      if dot dotall a then
        match greedy dotall s' (λ g, k (String a g)) with
        | Some r => Some r
        | None => k "" s
        end
      else k "" s
  | "" => k "" ""
  end.

(* A lazy group followed by [k]: the shortest group is tried first. *)
Fixpoint lazy_group {R} (dotall : bool) (s : string)
    (k : string → string → option R) : option R :=
  match k "" s with
  | Some r => Some r
  | None =>
      match s with
      | String a s' =>
          if dot dotall a then lazy_group dotall s' (λ g, k (String a g))
          else None
      | "" => None
      end
  end.

(* The groups of the first match of [pat] that starts where [s] starts,
   in the order the backtracking matcher tries them. *)
Fixpoint match_at (dotall : bool) (pat : list item) (s : string)
  : option (list string) :=
  match pat with
  | [] => Some []
  | Literal l :: pat' =>
      match strip_prefix l s with
      | Some s' => match_at dotall pat' s'
      | None => None
      end
  | GreedyGroup :: pat' =>
      greedy dotall s (λ g s', cons g <$> match_at dotall pat' s')
  | LazyGroup :: pat' =>
      lazy_group dotall s (λ g s', cons g <$> match_at dotall pat' s')
  end.

(* re.match(pat, s) *)
Definition re_match (pat : list item) (s : string) : option (list string) :=
  match_at false pat s.

(* re.search(pat, s, flags): the match that starts leftmost. *)
Fixpoint re_search (dotall : bool) (pat : list item) (s : string)
  : option (list string) :=
  match match_at dotall pat s with
  | Some g => Some g
  | None =>
      match s with
      | String _ s' => re_search dotall pat s'
      | "" => None
      end
  end.

(* g.group(i), for a group the pattern has. *)
Definition group (g : list string) (i : nat) : string :=
  default "" (g !! (i - 1)).

(* ===================================================================== *)
(* Lines 7-29: the table, fetched from vfio.c and parsed                 *)
(* ===================================================================== *)

(* What these lines can die of. *)
Inductive parse_exn := AttributeError | NameError.

Inductive parsed (A : Type) :=
  | Done (a : A)
  | Died (e : parse_exn).
Arguments Done {A} a.
Arguments Died {A} e.

(* The pattern of line 10: the head of the table, a lazy group, "};". *)
Definition table_head : string :=
  "static const u8 vfio_from_fsm_table[VFIO_MIG_FSM_MAX_STATE][VFIO_MIG_FSM_MAX_STATE] = {".

Definition table_pattern : list item :=
  [Literal table_head; LazyGroup; Literal "};"].

(* Lines 9-12, of the text F.read() of vfio.c: g is None when nothing
   matches, and g.group is then an AttributeError. *)
Definition fetch (file : string) : parsed string :=
  match re_search true table_pattern file with
  | Some g => Done (strip (group g 1))
  | None => Died AttributeError
  end.

(* What open() of line 8 and F.read() of line 11 come to: the text of
   vfio.c, or the exception that one of them raises (FileNotFoundError,
   UnicodeDecodeError, ...), of type [E]. *)
Inductive reading (E : Type) :=
  | ReadText (text : string)
  | ReadRaises (e : E).
Arguments ReadText {E} text.
Arguments ReadRaises {E} e.

(* What lines 8-12 die of: the script catches no exception of the reading,
   and none of the search. *)
Inductive fetch_exn (E : Type) :=
  | OfReading (e : E)
  | OfSearch (e : parse_exn).
Arguments OfReading {E} e.
Arguments OfSearch {E} e.

(* Lines 8-12: the code, or the exception the script dies of. *)
Definition lines_8_12 {E} (r : reading E) : fetch_exn E + string :=
  match r with
  | ReadRaises e => inl (OfReading e)
  | ReadText file =>
      match fetch file with
      | Done code => inr code
      | Died e => inl (OfSearch e)
      end
  end.

(* The pattern of line 18. *)
Definition row_pattern : list item :=
  [Literal "[VFIO_DEVICE_STATE_"; GreedyGroup; Literal "] = {"].

(* The pattern of line 22. *)
Definition arc_pattern : list item :=
  [Literal "[VFIO_DEVICE_STATE_"; GreedyGroup;
   Literal "] = VFIO_DEVICE_STATE_"; GreedyGroup; Literal ","].

(* The variables of the loop of lines 16-29: cur_fsm is not bound before
   the first row; ps_printed are the lines printed after "??". *)
Record parser := Parser {
  ps_cur_fsm : option string;
  ps_all_arcs : gmap (string * string) string;
  ps_printed : list string
}.

(* Lines 17-29, for one line. *)
Definition parse_line (st : parser) (ln : string) : parsed parser :=
  let ln := strip ln in
  match re_match row_pattern ln with
  | Some g =>
      Done (Parser (Some (group g 1)) (ps_all_arcs st) (ps_printed st))
  | None =>
      match re_match arc_pattern ln with
      | Some g =>
          let next_fsm := group g 1 in
          let step_fsm := group g 2 in
          match ps_cur_fsm st with
          | Some cur_fsm =>
              Done (Parser (Some cur_fsm)
                      (<[(cur_fsm, next_fsm) := step_fsm]> (ps_all_arcs st))
                      (ps_printed st))
          | None => Died NameError
          end
      | None =>
          if bool_decide (ln ≠ "},") then
            Done (Parser (ps_cur_fsm st) (ps_all_arcs st)
                    (ps_printed st ++ [ln]))
          else Done st
      end
  end.

Fixpoint parse_lines (st : parser) (lines : list string) : parsed parser :=
  match lines with
  | [] => Done st
  | ln :: lines' =>
      match parse_line st ln with
      | Done st' => parse_lines st' lines'
      | Died e => Died e
      end
  end.

(* Lines 15-29. *)
Definition parse (code : string) : parsed parser :=
  parse_lines (Parser None ∅ []) (splitlines code).

(* Lines 8-29. *)
Definition read_table (file : string) : parsed parser :=
  match fetch file with
  | Done code => parse code
  | Died e => Died e
  end.

(* ===================================================================== *)
(* Lines 31-40: the table when P2P is not supported                      *)
(* ===================================================================== *)

(* s == "RUNNING_P2P" or s == "PRE_COPY_P2P" *)
Definition is_p2p (s : string) : bool :=
  bool_decide (s = "RUNNING_P2P") || bool_decide (s = "PRE_COPY_P2P").

(* Lines 35-37:
     while s != n and (s == "RUNNING_P2P" or s == "PRE_COPY_P2P"):
         s = all_arcs[s, n]
         all_arcs[c, n] = s *)
Fixpoint skip_p2p (fuel : nat) (all_arcs : gmap (string * string) string)
    (c n s : string) : outcome (gmap (string * string) string) :=
  if bool_decide (s ≠ n) && is_p2p s then
    match fuel with
    | 0 => OutOfFuel
    | S fuel' =>
        s' ←! getitem all_arcs (s, n);
        skip_p2p fuel' (<[(c, n) := s']> all_arcs) c n s'
    end
  else Returns all_arcs.

(* Lines 33-37; [keys] is list(all_arcs.keys()), the keys in the order of
   the dictionary. *)
Fixpoint skip_p2p_loop (fuel : nat) (all_arcs : gmap (string * string) string)
    (keys : list (string * string))
  : outcome (gmap (string * string) string) :=
  match keys with
  | [] => Returns all_arcs
  | (c, n) :: keys' =>
      s ←! getitem all_arcs (c, n);
      all_arcs' ←! skip_p2p fuel all_arcs c n s;
      skip_p2p_loop fuel all_arcs' keys'
  end.

(* Lines 38-40; the first loop has added no key and removed none, so
   list(all_arcs.keys()) is [keys] again. *)
Definition drop_p2p_rows (all_arcs : gmap (string * string) string)
    (keys : list (string * string)) : gmap (string * string) string :=
  foldl (λ t k, if is_p2p k.1 then delete k t else t) all_arcs keys.

(* Lines 33-40, the block under "if False:". *)
Definition p2p_not_supported (fuel : nat)
    (all_arcs : gmap (string * string) string) (keys : list (string * string))
  : outcome (gmap (string * string) string) :=
  all_arcs' ←! skip_p2p_loop fuel all_arcs keys;
  Returns (drop_p2p_rows all_arcs' keys).

(* Lines 32-40: with [enabled] the condition of line 32, False in the
   script. *)
Definition lines_32_40 (enabled : bool) (fuel : nat)
    (all_arcs : gmap (string * string) string) (keys : list (string * string))
  : outcome (gmap (string * string) string) :=
  if enabled then p2p_not_supported fuel all_arcs keys else Returns all_arcs.

(* ===================================================================== *)
(* Lines 42-48: states, state pairs, blocked transitions, FSM arcs       *)
(* ===================================================================== *)

(* all_states = set(c for c, n in all_arcs.keys()) *)
Definition all_states (all_arcs : gmap (string * string) string) : gset string :=
  set_map fst (dom all_arcs).

(* all_state_pairs = set((c, n) for c, n in
                         itertools.product(all_states, all_states) if c != n) *)
Definition all_state_pairs (all_arcs : gmap (string * string) string)
  : gset (string * string) :=
  list_to_set
    (filter (λ p : string * string, p.1 ≠ p.2)
       (list_prod (elements (all_states all_arcs))
                  (elements (all_states all_arcs)))).

(* blocked_transitions = set((c, n) for c, n in all_state_pairs
                             if c != n and all_arcs[c, n] == "ERROR") *)
Definition blocked_transitions (all_arcs : gmap (string * string) string)
  : outcome (gset (string * string)) :=
  l ←! comprehension
         (λ p : string * string,
            if bool_decide (p.1 ≠ p.2) then
              s ←! getitem all_arcs p;
              Returns (if bool_decide (s = ERROR) then Some p else None)
            else Returns None)
         (elements (all_state_pairs all_arcs));
  Returns (list_to_set l).

(* fsm_arcs = set((c, all_arcs[c, n]) for c, n in all_state_pairs
                  if (c, n) not in blocked_transitions) *)
Definition fsm_arcs (all_arcs : gmap (string * string) string)
    (blocked : gset (string * string)) : outcome (gset (string * string)) :=
  l ←! comprehension
         (λ p : string * string,
            if bool_decide (p ∉ blocked) then
              s ←! getitem all_arcs p;
              Returns (Some (p.1, s))
            else Returns None)
         (elements (all_state_pairs all_arcs));
  Returns (list_to_set l).

(* Lines 50-52: for c, n in all_state_pairs: assert (c, n) in all_arcs *)
Fixpoint table_is_complete (all_arcs : gmap (string * string) string)
    (pairs : list (string * string)) : outcome unit :=
  match pairs with
  | [] => Returns tt
  | p :: pairs' =>
      _ ←! assert (bool_decide (p ∈ dom all_arcs));
      table_is_complete all_arcs pairs'
  end.

(* ===================================================================== *)
(* Lines 54-66: combination paths and all_paths                          *)
(* ===================================================================== *)

(* while path[-1] != n:
       path.append(all_arcs[path[-1], n])
       assert "ERROR" not in path
   [fuel] bounds the number of times the body runs. *)
Fixpoint walk (fuel : nat) (all_arcs : gmap (string * string) string)
    (n : string) (path : list string) : outcome (list string) :=
  match last path with
  | None => Raises IndexError
  | Some s =>
      if bool_decide (s ≠ n) then
        match fuel with
        | 0 => OutOfFuel
        | S fuel' =>
            s' ←! getitem all_arcs (s, n);
            let path' := path ++ [s'] in
            _ ←! assert (bool_decide (ERROR ∉ path'));
            walk fuel' all_arcs n path'
        end
      else Returns path
  end.

(* combination_paths = {}
   for c, n in <pairs>:
       path = [c]
       <while loop>
       combination_paths[c, n] = path *)
Fixpoint combination_loop (fuel : nat) (all_arcs : gmap (string * string) string)
    (pairs : list (string * string))
    (combination_paths : gmap (string * string) (list string))
  : outcome (gmap (string * string) (list string)) :=
  match pairs with
  | [] => Returns combination_paths
  | (c, n) :: pairs' =>
      path ←! walk fuel all_arcs n [c];
      combination_loop fuel all_arcs pairs' (<[(c, n) := path]> combination_paths)
  end.

(* all_paths = copy.copy(combination_paths)
   for c, n in <arcs>:
       all_paths[c, n] = [c, n] *)
Definition direct_loop (arcs : list (string * string))
    (combination_paths : gmap (string * string) (list string))
  : gmap (string * string) (list string) :=
  foldl (λ all_paths '(c, n), <[(c, n) := [c; n]]> all_paths)
        combination_paths arcs.

(* ===================================================================== *)
(* sorted(...)                                                           *)
(* ===================================================================== *)

(* Python orders str by code point, tuples and lists lexicographically. *)
Definition arc_leb (p q : string * string) : bool :=
  String.ltb p.1 q.1 || (String.eqb p.1 q.1 && String.leb p.2 q.2).

Fixpoint path_leb (p q : list string) : bool :=
  match p, q with
  | [], _ => true
  | _ :: _, [] => false
  | x :: p', y :: q' => String.ltb x y || (String.eqb x y && path_leb p' q')
  end.

Definition arc_le (p q : string * string) : Prop := arc_leb p q = true.
Definition path_le (p q : list string) : Prop := path_leb p q = true.

#[local] Instance arc_le_dec p q : Decision (arc_le p q).
Proof. unfold arc_le. apply _. Defined.
#[local] Instance path_le_dec p q : Decision (path_le p q).
Proof. unfold path_le. apply _. Defined.

Definition sorted_arcs (l : list (string * string)) : list (string * string) :=
  merge_sort arc_le l.
Definition sorted_paths (l : list (list string)) : list (list string) :=
  merge_sort path_le l.

(* ===================================================================== *)
(* Lines 68-83: the three tables, printed                                *)
(* ===================================================================== *)

(* "ERROR" in x, for the pair x *)
Definition error_in (p : string * string) : bool :=
  bool_decide (p.1 = ERROR ∨ p.2 = ERROR).

(* The order of the keys ("ERROR" in x, x): False comes before True, and
   two keys with the same first component compare by the pair. *)
Definition blocked_key_leb (p q : string * string) : bool :=
  match error_in p, error_in q with
  | false, true => true
  | true, false => false
  | _, _ => arc_leb p q
  end.

Definition blocked_key_le (p q : string * string) : Prop :=
  blocked_key_leb p q = true.

#[local] Instance blocked_key_le_dec p q : Decision (blocked_key_le p q).
Proof. unfold blocked_key_le. apply _. Defined.

(* for c, n in sorted(blocked_transitions, key=lambda x: ("ERROR" in x, x)) *)
Definition blocked_lines (blocked : gset (string * string))
  : list (string * string) :=
  merge_sort blocked_key_le (elements blocked).

(* for path in sorted(combination_paths.values()): ... *)
Definition combination_lines
    (combination_paths : gmap (string * string) (list string))
  : list (list string) :=
  sorted_paths (snd <$> map_to_list combination_paths).

(* The order of the keys list(reversed(x)). *)
Definition target_key_le (p q : list string) : Prop :=
  path_le (reverse p) (reverse q).

#[local] Instance target_key_le_dec p q : Decision (target_key_le p q).
Proof. unfold target_key_le. apply _. Defined.

(* for path in sorted(combination_paths.values(),
                      key=lambda x: list(reversed(x))): ... *)
Definition target_sorted_lines
    (combination_paths : gmap (string * string) (list string))
  : list (list string) :=
  merge_sort target_key_le (snd <$> map_to_list combination_paths).

(* ===================================================================== *)
(* Lines 85-99: shortest path ambiguity                                  *)
(* ===================================================================== *)

(* networkx.DiGraph(list(fsm_arcs)): the nodes are the end points of the
   arcs, and there is at most one arc between two nodes. *)
Definition nodes (G : gset (string * string)) : gset string :=
  set_map fst G ∪ set_map snd G.

(* The ways to prolong by one arc a walk kept in reverse (last state first). *)
Definition extend (arcs : list (string * string)) (w : list string)
  : list (list string) :=
  match w with
  | [] => []
  | x :: _ => (λ e : string * string, e.2 :: w)
                <$> filter (λ e : string * string, e.1 = x) arcs
  end.

(* All walks with exactly [k] arcs that start at [c], each in reverse. *)
Fixpoint rwalks (arcs : list (string * string)) (c : string) (k : nat)
  : list (list string) :=
  match k with
  | 0 => [[c]]
  | S k' => rwalks arcs c k' ≫= extend arcs
  end.

(* Breadth-first search by increasing number of arcs: the first length at
   which some walk from [c] ends at [n] gives all the shortest paths. *)
Fixpoint search (arcs : list (string * string)) (c n : string)
    (k budget : nat) : outcome (list (list string)) :=
  match budget with
  | 0 => Raises NetworkXNoPath
  | S budget' =>
      match filter (λ w : list string, head w = Some n) (rwalks arcs c k) with
      | [] => search arcs c n (S k) budget'
      | found => Returns (reverse <$> found)
      end
  end.

(** Modelled from the spec: networkx is an external library, its
   list(all_shortest_paths(fsm, c, n)) is taken by its contract, "the set
   of all minimum-length directed paths from c to n in OneHopGraph (plain
   graph, unweighted, breadth-first enumeration of all paths tied for
   minimum length)"; it raises NodeNotFound when the source is not a node
   and NetworkXNoPath when the target cannot be reached. The order of the
   returned list is not specified and the script does not depend on it. *)
Definition all_shortest_paths (G : gset (string * string)) (c n : string)
  : outcome (list (list string)) :=
  if bool_decide (c ∈ nodes G) then
    search (elements G) c n 0 (size (nodes G))
  else Raises NodeNotFound.

(* One pair of the ambiguity report: the tied shortest paths in sorted
   order, each with the "[selected]" mark. *)
Definition ambiguity : Type :=
  ((string * string) * list (list string * bool))%type.

(* Body of  for c, n in sorted(all_state_pairs - blocked_transitions):
     if len(paths) != 1: print the pair, then every path of sorted(paths)
        with "[selected]" if path == combination_paths.get((c, n))
     else: assert paths[0] == all_paths[c, n] *)
Definition check_pair (fsm : gset (string * string))
    (combination_paths all_paths : gmap (string * string) (list string))
    (p : string * string) : outcome (option ambiguity) :=
  paths ←! all_shortest_paths fsm p.1 p.2;
  if bool_decide (length paths ≠ 1) then
    Returns (Some (p, (λ q, (q, bool_decide (combination_paths !! p = Some q)))
                        <$> sorted_paths paths))
  else
    q ←! (match paths !! 0 with Some q => Returns q | None => Raises IndexError end);
    a ←! getitem all_paths p;
    _ ←! assert (bool_decide (q = a));
    Returns None.

Definition shortest_path_ambiguity (fsm : gset (string * string))
    (combination_paths all_paths : gmap (string * string) (list string))
    (pairs : list (string * string)) : outcome (list ambiguity) :=
  comprehension (check_pair fsm combination_paths all_paths) pairs.

(* ===================================================================== *)
(* Lines 101-109: error unwind study                                     *)
(* ===================================================================== *)

(* What is printed for one intermediate state: the line "err -> ERROR",
   or the states of the path back, joined by "<-" in reverse order. *)
Inductive unwind : Type :=
  | ToError
  | PathBack (reversed_err_path : list string).

(* for err in path[1:-1]:
       err_path = all_paths.get((err, path[0])) ... *)
Definition unwind_of_path (all_paths : gmap (string * string) (list string))
    (path : list string) : list (string * unwind) :=
  match path with
  | [] => []
  | c :: _ =>
      (λ err, (err, match all_paths !! (err, c) with
                    | None => ToError
                    | Some err_path => PathBack (reverse err_path)
                    end))
        <$> drop 1 (take (length path - 1) path)
  end.

(* for path in sorted(combination_paths.values()): ... *)
Definition error_unwind_study
    (combination_paths all_paths : gmap (string * string) (list string))
  : list (list string * list (string * unwind)) :=
  (λ path, (path, unwind_of_path all_paths path))
    <$> sorted_paths (snd <$> map_to_list combination_paths).

(* ===================================================================== *)
(* Lines 111-124: the arcs of mlx5                                       *)
(* ===================================================================== *)

(* The pattern of line 119: the first group is greedy, the second lazy. *)
Definition mlx5_pattern : list item :=
  [Literal "cur == VFIO_DEVICE_STATE_"; GreedyGroup;
   Literal " && new == VFIO_DEVICE_STATE_"; LazyGroup; Literal ")"].

(* Lines 118-124, for one line of the output of grep: the set of arcs and
   the lines printed after "??". *)
Definition mlx5_line (st : gset (string * string) * list string) (ln : string)
  : gset (string * string) * list string :=
  let ln := strip ln in
  match re_search false mlx5_pattern ln with
  | None => (st.1, st.2 ++ [ln])
  | Some g => ({[ (group g 1, group g 2) ]} ∪ st.1, st.2)
  end.

(* Lines 115-124. *)
Definition mlx5_arcs (mlx5 : string) : gset (string * string) * list string :=
  foldl mlx5_line (∅, []) (splitlines mlx5).

(* ===================================================================== *)
(* Lines 125-126: mlx5 arcs against the FSM arcs                         *)
(* ===================================================================== *)

Definition mlx5_extra_arcs (mlx5_arcs fsm_arcs : gset (string * string))
  : gset (string * string) := mlx5_arcs ∖ fsm_arcs.
Definition mlx5_missing_arcs (mlx5_arcs fsm_arcs : gset (string * string))
  : gset (string * string) := fsm_arcs ∖ mlx5_arcs.

(* ===================================================================== *)
(* The script from line 42 to line 109                                   *)
(* ===================================================================== *)

(* The sets and dictionaries the script holds after line 66. *)
Record tables : Type := Tables {
  tb_blocked_transitions : gset (string * string);
  tb_fsm_arcs : gset (string * string);
  tb_combination_paths : gmap (string * string) (list string);
  tb_all_paths : gmap (string * string) (list string);
}.

(* Lines 42-66. The parsing of vfio.c above line 42 gives all_arcs; the
   block under "if False:" never runs. *)
Definition resolve (fuel : nat) (all_arcs : gmap (string * string) string)
  : outcome tables :=
  let pairs := all_state_pairs all_arcs in
  blocked ←! blocked_transitions all_arcs;
  fsm ←! fsm_arcs all_arcs blocked;
  _ ←! table_is_complete all_arcs (elements pairs);
  comb ←! combination_loop fuel all_arcs (elements (pairs ∖ fsm ∖ blocked)) ∅;
  Returns (Tables blocked fsm comb
             (direct_loop (elements (fsm ∖ blocked)) comb)).

(* What the script has printed of the two studies when it ends. *)
Record study : Type := Study {
  st_tables : tables;
  st_ambiguity : list ambiguity;
  st_unwind : list (list string * list (string * unwind));
}.

(* Lines 42-109. *)
Definition mig_state_study (fuel : nat) (all_arcs : gmap (string * string) string)
  : outcome study :=
  r ←! resolve fuel all_arcs;
  amb ←! shortest_path_ambiguity (tb_fsm_arcs r) (tb_combination_paths r)
           (tb_all_paths r)
           (sorted_arcs (elements (all_state_pairs all_arcs
                                   ∖ tb_blocked_transitions r)));
  Returns (Study r amb
             (error_unwind_study (tb_combination_paths r) (tb_all_paths r))).

(* ===================================================================== *)
(* Sample tables                                                         *)
(* ===================================================================== *)

Definition table (l : list (string * string * string))
  : gmap (string * string) string := list_to_map l.

Definition E : string := ERROR.

(* The table of three states whose routes go through B, and what the
   script derives from it. *)
Definition ex3 := table
  [("A","B","B"); ("A","C","B"); ("B","C","C"); ("B","A","A");
   ("C","A","B"); ("C","B","B")].

Definition ex3_fsm_arcs : gset (string * string) :=
  list_to_set [("A","B"); ("B","C"); ("B","A"); ("C","B")].

Definition ex3_tables : tables :=
  Tables ∅ ex3_fsm_arcs
    (list_to_map [(("A","C"), ["A";"B";"C"]); (("C","A"), ["C";"B";"A"])])
    (list_to_map [(("A","C"), ["A";"B";"C"]); (("C","A"), ["C";"B";"A"]);
                  (("A","B"), ["A";"B"]); (("B","C"), ["B";"C"]);
                  (("B","A"), ["B";"A"]); (("C","B"), ["C";"B"])]).

(* A table with two tied shortest paths from A to Z that routes A to Z
   along a third, longer path, and what the script derives from it. *)
Definition ex_tie := table
  [("A","X","X"); ("A","Y","Y"); ("A","P","P"); ("A","Q","P"); ("A","Z","P");
   ("X","A",E); ("X","Y",E); ("X","P",E); ("X","Q",E); ("X","Z","Z");
   ("Y","A",E); ("Y","X",E); ("Y","P",E); ("Y","Q",E); ("Y","Z","Z");
   ("P","A",E); ("P","X",E); ("P","Y",E); ("P","Q","Q"); ("P","Z","Q");
   ("Q","A",E); ("Q","X",E); ("Q","Y",E); ("Q","P",E); ("Q","Z","Z");
   ("Z","A",E); ("Z","X",E); ("Z","Y",E); ("Z","P",E); ("Z","Q",E)].

Definition ex_tie_tables : tables :=
  Tables
    (list_to_set
       [("X","A"); ("X","Y"); ("X","P"); ("X","Q");
        ("Y","A"); ("Y","X"); ("Y","P"); ("Y","Q");
        ("P","A"); ("P","X"); ("P","Y");
        ("Q","A"); ("Q","X"); ("Q","Y"); ("Q","P");
        ("Z","A"); ("Z","X"); ("Z","Y"); ("Z","P"); ("Z","Q")])
    (list_to_set
       [("A","X"); ("A","Y"); ("A","P"); ("X","Z"); ("Y","Z"); ("P","Q");
        ("Q","Z")])
    (list_to_map
       [(("A","Q"), ["A";"P";"Q"]); (("A","Z"), ["A";"P";"Q";"Z"]);
        (("P","Z"), ["P";"Q";"Z"])])
    (list_to_map
       [(("A","Q"), ["A";"P";"Q"]); (("A","Z"), ["A";"P";"Q";"Z"]);
        (("P","Z"), ["P";"Q";"Z"]);
        (("A","X"), ["A";"X"]); (("A","Y"), ["A";"Y"]); (("A","P"), ["A";"P"]);
        (("X","Z"), ["X";"Z"]); (("Y","Z"), ["Y";"Z"]); (("P","Q"), ["P";"Q"]);
        (("Q","Z"), ["Q";"Z"])]).

Definition ex_tie_study : study :=
  Study ex_tie_tables
    [(("A","Z"), [(["A";"X";"Z"], false); (["A";"Y";"Z"], false)])]
    [(["A";"P";"Q"], [("P", ToError)]);
     (["A";"P";"Q";"Z"], [("P", ToError); ("Q", ToError)]);
     (["P";"Q";"Z"], [("Q", ToError)])].

(* A table that sends A and B to each other on the way to C. *)
Definition ex_cycle := table
  [("A","B","B"); ("A","C","B"); ("B","A","A"); ("B","C","A");
   ("C","A","A"); ("C","B","B")].

Definition ex_cycle_fsm_arcs : gset (string * string) :=
  list_to_set [("A","B"); ("B","A"); ("C","A"); ("C","B")].



(* A complete table where A reaches B through C and C through B. *)
Definition ex_swap := table
  [("A","B","C"); ("A","C","B"); ("B","A","A"); ("B","C","C");
   ("C","A","A"); ("C","B","B")].

Definition ex_swap_fsm_arcs : gset (string * string) :=
  list_to_set [("A","B"); ("A","C"); ("B","A"); ("B","C"); ("C","A"); ("C","B")].

Definition ex_swap_tables : tables :=
  Tables ∅ ex_swap_fsm_arcs ∅
    (list_to_map [(("A","B"), ["A";"B"]); (("A","C"), ["A";"C"]);
                  (("B","A"), ["B";"A"]); (("B","C"), ["B";"C"]);
                  (("C","A"), ["C";"A"]); (("C","B"), ["C";"B"])]).

(* A table that is blocked half way from A to C. *)
Definition ex_dead_end := table
  [("A","B","B"); ("A","C","B"); ("B","A","A"); ("B","C",E);
   ("C","A","A"); ("C","B","B")].

(* A table that routes A to C through D and E although A, B, C is the one
   shortest way, and what lines 42-66 derive from it. *)
Definition ex_detour := table
  [("A","B","B"); ("A","C","D"); ("A","D","D"); ("A","E","D");
   ("B","A",E); ("B","C","C"); ("B","D",E); ("B","E",E);
   ("C","A",E); ("C","B",E); ("C","D",E); ("C","E",E);
   ("D","A",E); ("D","B",E); ("D","C","E"); ("D","E","E");
   ("E","A",E); ("E","B",E); ("E","C","C"); ("E","D",E)].

Definition ex_detour_tables : tables :=
  Tables
    (list_to_set
       [("B","A"); ("B","D"); ("B","E");
        ("C","A"); ("C","B"); ("C","D"); ("C","E");
        ("D","A"); ("D","B");
        ("E","A"); ("E","B"); ("E","D")])
    (list_to_set [("A","B"); ("A","D"); ("B","C"); ("D","E"); ("E","C")])
    (list_to_map
       [(("A","C"), ["A";"D";"E";"C"]); (("A","E"), ["A";"D";"E"]);
        (("D","C"), ["D";"E";"C"])])
    (list_to_map
       [(("A","C"), ["A";"D";"E";"C"]); (("A","E"), ["A";"D";"E"]);
        (("D","C"), ["D";"E";"C"]);
        (("A","B"), ["A";"B"]); (("A","D"), ["A";"D"]); (("B","C"), ["B";"C"]);
        (("D","E"), ["D";"E"]); (("E","C"), ["E";"C"])]).

(* The table of the kernel in small: from R to S through the P2P state,
   and what the block makes of it. *)
Definition ex_p2p_entries : list (string * string * string) :=
  [("R","R","R"); ("R","RUNNING_P2P","RUNNING_P2P"); ("R","S","RUNNING_P2P");
   ("RUNNING_P2P","R","R"); ("RUNNING_P2P","RUNNING_P2P","RUNNING_P2P");
   ("RUNNING_P2P","S","S");
   ("S","R","RUNNING_P2P"); ("S","RUNNING_P2P","RUNNING_P2P"); ("S","S","S")].

Definition ex_p2p := table ex_p2p_entries.

Definition ex_p2p_keys : list (string * string) := ex_p2p_entries.*1.

Definition ex_p2p_skipped := table
  [("R","R","R"); ("R","RUNNING_P2P","RUNNING_P2P"); ("R","S","S");
   ("S","R","R"); ("S","RUNNING_P2P","RUNNING_P2P"); ("S","S","S")].

(* A text of vfio.c that holds the table ex3. *)
Definition ex_vfio_c_body : string :=
  "
	[VFIO_DEVICE_STATE_A] = {
		[VFIO_DEVICE_STATE_B] = VFIO_DEVICE_STATE_B,
		[VFIO_DEVICE_STATE_C] = VFIO_DEVICE_STATE_B,
	},
	[VFIO_DEVICE_STATE_B] = {
		[VFIO_DEVICE_STATE_C] = VFIO_DEVICE_STATE_C,
		[VFIO_DEVICE_STATE_A] = VFIO_DEVICE_STATE_A,
	},
	[VFIO_DEVICE_STATE_C] = {
		[VFIO_DEVICE_STATE_A] = VFIO_DEVICE_STATE_B,
		[VFIO_DEVICE_STATE_B] = VFIO_DEVICE_STATE_B,
	},
".

Definition ex_vfio_c_top : string :=
  "// SPDX-License-Identifier: GPL-2.0-only
#include <linux/vfio.h>

".

Definition ex_vfio_c_rest : string :=
  "

static const int other[] = { 1, 2 };
".

Definition ex_vfio_c : string :=
  ex_vfio_c_top +:+ table_head +:+ ex_vfio_c_body +:+ "};" +:+ ex_vfio_c_rest.

Definition ex3_rows : list (string * list (string * string)) :=
  [("A", [("B","B"); ("C","B")]); ("B", [("C","C"); ("A","A")]);
   ("C", [("A","B"); ("B","B")])].



(* ===================================================================== *)
(* Predicates used in the statements                                     *)
(* ===================================================================== *)

(* The table has an entry for every pair of distinct states. *)
Definition total (t : gmap (string * string) string) : Prop :=
  ∀ p, p ∈ all_state_pairs t → is_Some (t !! p).



(* Every state of the path but the first is the table's step from the
   state before it towards [n]. *)
Definition follows_table (t : gmap (string * string) string) (n : string)
    (p : list string) : Prop :=
  ∀ i x y, p !! i = Some x → p !! S i = Some y → t !! (x, n) = Some y.

(* A value the path of the while loop can take while the loop is still
   running: it starts at [c], follows the table, and has met neither the
   target nor ERROR. *)
Definition partial_walk (t : gmap (string * string) string) (c n : string)
    (p : list string) : Prop :=
  head p = Some c ∧ follows_table t n p ∧ (n ∉ p) ∧ (ERROR ∉ p).

(* Some state occurs twice in the path. *)
Definition repeats (p : list string) : Prop :=
  ∃ i j x, i < j ∧ p !! i = Some x ∧ p !! j = Some x.

(* Every two consecutive states of the path are joined by an arc. *)
Definition is_walk (G : gset (string * string)) (p : list string) : Prop :=
  ∀ i x y, p !! i = Some x → p !! S i = Some y → (x, y) ∈ G.

Definition walk_between (G : gset (string * string)) (c n : string)
    (p : list string) : Prop :=
  head p = Some c ∧ last p = Some n ∧ is_walk G p.

(* A walk from [c] to [n] that no walk from [c] to [n] beats in length. *)
Definition shortest_between (G : gset (string * string)) (c n : string)
    (p : list string) : Prop :=
  walk_between G c n p ∧ ∀ q, walk_between G c n q → length p ≤ length q.

(* The three kinds of pairs. *)
Inductive class : Type := Blocked | Direct | Combination.

(* The kind the script gives a pair, by the set it finds the pair in:
   blocked_transitions (line 45), fsm_arcs - blocked_transitions (line 65,
   the pairs that get the path [c, n]), and all_state_pairs - fsm_arcs -
   blocked_transitions (line 56, the pairs that are walked). *)
Definition classify (pairs blocked fsm : gset (string * string))
    (p : string * string) : option class :=
  if decide (p ∈ blocked) then Some Blocked
  else if decide (p ∈ fsm ∖ blocked) then Some Direct
  else if decide (p ∈ pairs ∖ fsm ∖ blocked) then Some Combination
  else None.

(* The kind of a pair in the words of the specification: blocked if
   table[c,n] = ErrorState; else direct if table[c,n] = n; else
   combination. *)
Definition classify_spec (t : gmap (string * string) string)
    (p : string * string) : option class :=
  match t !! p with
  | None => None
  | Some s =>
      Some (if bool_decide (s = ERROR) then Blocked
            else if bool_decide (s = p.2) then Direct
            else Combination)
  end.

(* Every value of the table is ERROR or a state with a row of its own. *)
Definition closed (t : gmap (string * string) string) : Prop :=
  map_Forall (λ _ s, s = ERROR ∨ s ∈ all_states t) t.

(* [keys] are the keys of the dictionary, in some order. *)
Definition keys_of (all_arcs : gmap (string * string) string)
    (keys : list (string * string)) : Prop :=
  NoDup keys ∧ ∀ k, k ∈ keys ↔ k ∈ dom all_arcs.

(* The step the table takes from the P2P state [s] towards [n]. *)
Definition p2p_step (t : gmap (string * string) string) (n s s' : string)
  : Prop :=
  s ≠ n ∧ is_p2p s = true ∧ t !! (s, n) = Some s'.

(* [v] is the first state that is [n] or no P2P state on the way the table
   takes from [s] towards [n]. *)
Definition skips_to (t : gmap (string * string) string) (n s v : string)
  : Prop :=
  rtc (p2p_step t n) s v ∧ (v = n ∨ is_p2p v = false).

(* What the first loop keeps true of the dictionary [t], from the table
   [t0] it started with: the same keys, and each value on the way from
   the value it had. *)
Definition skipping (t0 t : gmap (string * string) string) : Prop :=
  dom t = dom t0 ∧
  ∀ c n x, t !! (c, n) = Some x →
           ∃ y, t0 !! (c, n) = Some y ∧ rtc (p2p_step t0 n) y x.

(* Texts: every character of [s] satisfies [P]. *)
Fixpoint string_forall (P : Ascii.ascii → bool) (s : string) : bool :=
  match s with
  | String a s' => P a && string_forall P s'
  | "" => true
  end.

(* Any character but [c]. *)
Definition without (c a : Ascii.ascii) : bool := negb (Ascii.eqb a c).

(* s.find(l): the number of characters before the first [l] in [s]. *)
Fixpoint find (l s : string) : option nat :=
  match strip_prefix l s with
  | Some _ => Some 0
  | None =>
      match s with
      | String _ s' => S <$> find l s'
      | "" => None
      end
  end.

(* The characters of the names of C: letters, digits and underscore. *)
Definition ident_char (a : Ascii.ascii) : bool :=
  let n := Ascii.nat_of_ascii a in
  (48 <=? n) && (n <=? 57) || (65 <=? n) && (n <=? 90) || (n =? 95)
  || (97 <=? n) && (n <=? 122).

Definition ident (s : string) : Prop := string_forall ident_char s = true.

(* [l] occurs in [s] right after [pre]. *)
Definition occurs_at (l pre s : string) : Prop :=
  ∃ post, s = pre +:+ l +:+ post.

(* ... and nowhere before. *)
Definition first_at (l pre s : string) : Prop :=
  occurs_at l pre s ∧
  ∀ pre', occurs_at l pre' s → String.length pre ≤ String.length pre'.

(* The lines of a table in the layout of vfio.c, without indentation. *)
Definition row_line (c : string) : string :=
  "[VFIO_DEVICE_STATE_" +:+ c +:+ "] = {".

Definition arc_line (e : string * string) : string :=
  "[VFIO_DEVICE_STATE_" +:+ e.1 +:+ "] = VFIO_DEVICE_STATE_" +:+ e.2 +:+ ",".

Definition row_lines (row : string * list (string * string)) : list string :=
  row_line row.1 :: (arc_line <$> row.2) ++ ["},"].

Definition table_lines (rows : list (string * list (string * string)))
  : list string :=
  rows ≫= row_lines.

(* The entries of the rows, in the order of the text. *)
Definition arcs_of (rows : list (string * list (string * string)))
  : list ((string * string) * string) :=
  rows ≫= λ row, (λ e, ((row.1, e.1), e.2)) <$> row.2.

(* The dictionary after the assignments all_arcs[c, n] = s in that order. *)
Definition table_of (rows : list (string * list (string * string)))
  : gmap (string * string) string :=
  foldl (λ t a, <[a.1 := a.2]> t) ∅ (arcs_of rows).

(* The names of a row are names of C. *)
Definition row_names_ok (row : string * list (string * string)) : Prop :=
  ident row.1 ∧ Forall (λ e, ident e.1 ∧ ident e.2) row.2.



(* ===================================================================== *)
(* Generator expressions                                                 *)
(* ===================================================================== *)

Section comprehension.
Context {A B : Type} (f : A → outcome (option B)).

Lemma comprehension_Returns l rs :
  comprehension f l = Returns rs →
  (∀ x, x ∈ l → ∃ r, f x = Returns r) ∧
  (∀ y, y ∈ rs ↔ ∃ x, x ∈ l ∧ f x = Returns (Some y)).
Proof.
  revert rs. induction l as [|x l IH]; simpl; intros rs Hrs.
  - injection Hrs as <-. split; [intros x Hx; by apply elem_of_nil in Hx|].
    intros y. split; [intros Hy; by apply elem_of_nil in Hy|].
    intros (x & Hx & _). by apply elem_of_nil in Hx.
  - destruct (f x) as [r| |] eqn:Hfx; simpl in Hrs; try discriminate.
    destruct (comprehension f l) as [rs'| |]; simpl in Hrs; try discriminate.
    injection Hrs as <-. destruct (IH rs' eq_refl) as [IH1 IH2]. split.
    + intros x' [->|Hx']%elem_of_cons; eauto.
    + intros y. split.
      * destruct r as [y'|].
        -- intros [->|Hy]%elem_of_cons.
           ++ exists x. split; [left|done].
           ++ apply IH2 in Hy as (x' & ? & ?). exists x'. split; [by right|done].
        -- intros Hy. apply IH2 in Hy as (x' & ? & ?).
           exists x'. split; [by right|done].
      * intros (x' & [->|Hx']%elem_of_cons & Hy).
        -- rewrite Hfx in Hy. injection Hy as ->. left.
        -- assert (y ∈ rs') by (apply IH2; eauto).
           destruct r; [by right|done].
Qed.

Lemma comprehension_total l :
  (∀ x, x ∈ l → ∃ r, f x = Returns r) → ∃ rs, comprehension f l = Returns rs.
Proof.
  induction l as [|x l IH]; simpl; intros Hl; [eauto|].
  destruct (Hl x) as [r ->]; [left|]. simpl.
  destruct IH as [rs ->]; [intros; apply Hl; by right|]. simpl. eauto.
Qed.

Lemma comprehension_Raises l e :
  (∀ x, x ∈ l → (∃ r, f x = Returns r) ∨ f x = Raises e) →
  (∃ x, x ∈ l ∧ f x = Raises e) →
  comprehension f l = Raises e.
Proof.
  induction l as [|x l IH]; simpl; intros Hl (x' & Hx' & Hr).
  - by apply elem_of_nil in Hx'.
  - destruct (Hl x) as [[r Hfx]|Hfx]; [left| |by rewrite Hfx].
    rewrite Hfx. simpl.
    apply elem_of_cons in Hx' as [Heq|Hin]; [subst x'; congruence|].
    rewrite IH; [done|intros; apply Hl; by right|eauto].
Qed.
End comprehension.

(* ===================================================================== *)
(* States, pairs, blocked transitions and FSM arcs                       *)
(* ===================================================================== *)

Lemma elem_of_all_states (t : gmap (string * string) string) c :
  c ∈ all_states t ↔ ∃ n, is_Some (t !! (c, n)).
Proof.
  unfold all_states. rewrite elem_of_map. split.
  - intros ([c' n] & -> & H%elem_of_dom). eauto.
  - intros (n & H). exists (c, n). split; [done|by apply elem_of_dom].
Qed.

Lemma elem_of_all_state_pairs (t : gmap (string * string) string) c n :
  (c, n) ∈ all_state_pairs t ↔ c ∈ all_states t ∧ n ∈ all_states t ∧ c ≠ n.
Proof.
  unfold all_state_pairs.
  rewrite elem_of_list_to_set, list_elem_of_filter, list_elem_of_In, in_prod_iff.
  rewrite <- !list_elem_of_In, !elem_of_elements. simpl. tauto.
Qed.

Lemma getitem_Returns {V} (d : gmap (string * string) V) k v :
  getitem d k = Returns v ↔ d !! k = Some v.
Proof. unfold getitem. destruct (d !! k); split; congruence. Qed.

Lemma getitem_KeyError {V} (d : gmap (string * string) V) k :
  d !! k = None → getitem d k = Raises KeyError.
Proof. unfold getitem. by intros ->. Qed.

Lemma blocked_transitions_Returns t B :
  blocked_transitions t = Returns B →
  total t ∧ ∀ p, p ∈ B ↔ p ∈ all_state_pairs t ∧ t !! p = Some ERROR.
Proof.
  unfold blocked_transitions. intros H.
  destruct (comprehension _ _) as [l| |] eqn:Hl; simpl in H; try discriminate.
  injection H as <-. apply comprehension_Returns in Hl as [Hall Hl]. split.
  - intros [c n] Hp. destruct (Hall (c, n)) as [r Hr]; [by apply elem_of_elements|].
    apply elem_of_all_state_pairs in Hp as (_ & _ & Hne). simpl in Hr.
    rewrite bool_decide_eq_true_2 in Hr by done. unfold getitem in Hr.
    destruct (t !! (c, n)); [eauto|discriminate].
  - intros p. rewrite elem_of_list_to_set, Hl. split.
    + intros (x & Hx%elem_of_elements & Hr). case_bool_decide; [|discriminate].
      unfold getitem in Hr. destruct (t !! x) as [s|] eqn:Hs; [|discriminate].
      simpl in Hr. case_bool_decide; [|discriminate]. injection Hr as ->.
      subst s. done.
    + intros [Hp Hs]. exists p. split; [by apply elem_of_elements|].
      destruct p as [c n]. apply elem_of_all_state_pairs in Hp as (_ & _ & Hne).
      simpl. case_bool_decide; [|done]. unfold getitem. rewrite Hs. simpl.
      by rewrite ?bool_decide_eq_true_2.
Qed.

Lemma blocked_transitions_total t :
  total t → ∃ B, blocked_transitions t = Returns B.
Proof.
  intros Ht. unfold blocked_transitions.
  destruct (comprehension_total
    (λ p : string * string,
       if bool_decide (p.1 ≠ p.2) then
         s ←! getitem t p;
         Returns (if bool_decide (s = ERROR) then Some p else None)
       else Returns None) (elements (all_state_pairs t))) as [l ->]; [|simpl; eauto].
  intros p Hp%elem_of_elements. case_bool_decide; [|eauto].
  destruct (Ht p Hp) as [s Hs]. unfold getitem. rewrite Hs. simpl. eauto.
Qed.


Lemma fsm_arcs_Returns t B G :
  fsm_arcs t B = Returns G →
  ∀ c s, (c, s) ∈ G ↔
         ∃ n, (c, n) ∈ all_state_pairs t ∧ ((c, n) ∉ B) ∧ t !! (c, n) = Some s.
Proof.
  unfold fsm_arcs. intros H.
  destruct (comprehension _ _) as [l| |] eqn:Hl; simpl in H; try discriminate.
  injection H as <-. apply comprehension_Returns in Hl as [_ Hl].
  intros c s. rewrite elem_of_list_to_set, Hl. split.
  - intros ([c' n] & Hx%elem_of_elements & Hr). case_bool_decide; [|discriminate].
    unfold getitem in Hr. destruct (t !! (c', n)) as [s'|] eqn:Hs; [|discriminate].
    simpl in Hr. injection Hr as -> ->. eauto.
  - intros (n & Hp & HB & Hs). exists (c, n). split; [by apply elem_of_elements|].
    simpl. case_bool_decide; [|done]. unfold getitem. by rewrite Hs.
Qed.

Lemma fsm_arcs_total t B :
  total t → ∃ G, fsm_arcs t B = Returns G.
Proof.
  intros Ht. unfold fsm_arcs.
  destruct (comprehension_total
    (λ p : string * string,
       if bool_decide (p ∉ B) then
         s ←! getitem t p; Returns (Some (p.1, s))
       else Returns None) (elements (all_state_pairs t))) as [l ->]; [|simpl; eauto].
  intros p Hp%elem_of_elements. case_bool_decide; [|eauto].
  destruct (Ht p Hp) as [s Hs]. unfold getitem. rewrite Hs. simpl. eauto.
Qed.

(* The assert of lines 51-52 holds of a table that has all its entries. *)
Lemma table_is_complete_Returns t l :
  total t → (∀ p, p ∈ l → p ∈ all_state_pairs t) →
  table_is_complete t l = Returns tt.
Proof.
  intros Ht. induction l as [|p l IH]; simpl; intros Hl; [done|].
  rewrite bool_decide_eq_true_2; [simpl; apply IH; intros; apply Hl; by right|].
  apply elem_of_dom, Ht, Hl. left.
Qed.

(* The assert of lines 51-52 passes in every run that comes to it. *)
Lemma completeness_assert_passes t B :
  blocked_transitions t = Returns B →
  table_is_complete t (elements (all_state_pairs t)) = Returns tt.
Proof.
  intros [Ht _]%blocked_transitions_Returns.
  apply table_is_complete_Returns; [done|]. intros p. apply elem_of_elements.
Qed.

(* ===================================================================== *)
(* The while loop of the combination paths                               *)
(* ===================================================================== *)

Lemma walk_stop t n path fuel :
  last path = Some n → walk fuel t n path = Returns path.
Proof.
  intros H. destruct fuel; simpl; rewrite H; by rewrite bool_decide_eq_false_2 by auto.
Qed.

Lemma walk_unroll t n path s s' fuel :
  last path = Some s → s ≠ n → t !! (s, n) = Some s' →
  walk (S fuel) t n path =
    if bool_decide (ERROR ∉ path ++ [s']) then walk fuel t n (path ++ [s'])
    else Raises AssertionError.
Proof.
  intros Hl Hs Ht. simpl. rewrite Hl, bool_decide_eq_true_2 by done.
  unfold getitem. rewrite Ht. simpl. by case_bool_decide.
Qed.

Lemma walk_Returns t n fuel path p :
  walk fuel t n path = Returns p →
  ∃ ext, p = path ++ ext ∧ last p = Some n ∧
    (∀ i x y, p !! i = Some x → p !! S i = Some y → length path ≤ S i →
              t !! (x, n) = Some y) ∧
    (∀ i x, p !! i = Some x → length path ≤ S i → S i < length p → x ≠ n) ∧
    (ext ≠ [] → ERROR ∉ p).
Proof.
  revert path. induction fuel as [|fuel IH]; intros path H.
  - simpl in H. destruct (last path) as [s|] eqn:Hl; [|discriminate].
    case_bool_decide as Hs; [discriminate|]. injection H as <-.
    subst s. exists []. rewrite app_nil_r.
    split_and!; [done|done| | |done].
    + intros i x y _ Hy%lookup_lt_Some ?. lia.
    + intros; lia.
  - simpl in H. destruct (last path) as [s|] eqn:Hl; [|discriminate].
    case_bool_decide as Hs.
    + unfold getitem in H. destruct (t !! (s, n)) as [s'|] eqn:Ht; [|discriminate].
      simpl in H. unfold assert in H. case_bool_decide as He; [|discriminate].
      simpl in H. apply IH in H as (ext & -> & Hlast & Hchain & Hne & Herr).
      exists (s' :: ext). rewrite <- app_assoc in *. simpl in *.
      rewrite last_lookup in Hl.
      assert (length path ≠ 0) as Hlen
        by (intros H0; rewrite H0 in Hl; by destruct path).
      split_and!; [done|done| | |].
      * intros i x y Hx Hy Hi. destruct (decide (length path = S i)) as [Hi'|Hi'].
        -- rewrite lookup_app_l in Hx by lia. rewrite Hi' in Hl. simpl in Hl.
           rewrite lookup_app_r, Hi', Nat.sub_diag in Hy by lia. simpl in Hy.
           congruence.
        -- apply (Hchain i); [done|done|]. rewrite length_app. simpl. lia.
      * intros i x Hx Hi Hi2. destruct (decide (length path = S i)) as [Hi'|Hi'].
        -- rewrite lookup_app_l in Hx by lia. rewrite Hi' in Hl. simpl in Hl.
           congruence.
        -- apply (Hne i); [done| |done]. rewrite length_app. simpl. lia.
      * intros _. destruct ext as [|e ext]; [done|by apply Herr].
    + injection H as <-. subst s. exists [].
      rewrite app_nil_r. split_and!; [done|done| | |done].
      * intros i x y _ Hy%lookup_lt_Some ?. lia.
      * intros; lia.
Qed.

Lemma follows_table_shift t n p i j x :
  follows_table t n p → i ≤ j → p !! i = Some x → p !! j = Some x →
  ∀ d, j + d < length p → p !! (i + d) = p !! (j + d).
Proof.
  intros Hchain Hij Hi Hj. induction d as [|d IHd]; intros Hd.
  - rewrite !Nat.add_0_r. congruence.
  - destruct (lookup_lt_is_Some_2 p (j + d)) as [v Hv]; [lia|].
    destruct (lookup_lt_is_Some_2 p (j + S d)) as [v' Hv']; [lia|].
    destruct (lookup_lt_is_Some_2 p (i + S d)) as [u' Hu']; [lia|].
    assert (p !! (i + d) = Some v) as Hu by (rewrite IHd by lia; done).
    rewrite Hu', Hv'.
    replace (j + S d) with (S (j + d)) in Hv' by lia.
    replace (i + S d) with (S (i + d)) in Hu' by lia.
    pose proof (Hchain _ _ _ Hv Hv'). pose proof (Hchain _ _ _ Hu Hu').
    congruence.
Qed.

(* A path that follows the table and meets its last state only at the
   end visits no state twice. *)
Lemma follows_table_NoDup t n p :
  follows_table t n p → last p = Some n →
  (∀ i x, p !! i = Some x → S i < length p → x ≠ n) →
  NoDup p.
Proof.
  intros Hchain Hlast Hne. apply NoDup_alt. intros i j x Hi Hj.
  assert (∀ a b, a < b → p !! a = Some x → p !! b = Some x → False) as Hlt.
  { clear i j Hi Hj. intros a b Hab Ha Hb.
    apply lookup_lt_Some in Hb as Hblt.
    pose proof (follows_table_shift t n p a b x Hchain (Nat.lt_le_incl _ _ Hab)
                  Ha Hb (length p - 1 - b)) as Hshift.
    replace (b + (length p - 1 - b)) with (pred (length p)) in Hshift by lia.
    rewrite <- last_lookup, Hlast in Hshift.
    apply (Hne (a + (length p - 1 - b)) n); [apply Hshift; lia|lia|done]. }
  destruct (Nat.lt_trichotomy i j) as [?|[?|?]]; [|done|]; exfalso; eauto.
Qed.

Lemma partial_walk_last t c n p :
  partial_walk t c n p → ∃ s, last p = Some s ∧ s ≠ n ∧ s ≠ ERROR.
Proof.
  intros (Hh & _ & Hn & He). destruct (last p) as [s|] eqn:Hl.
  - exists s. apply last_Some_elem_of in Hl. split; [done|]. split; congruence.
  - apply last_None in Hl. by subst p.
Qed.

Lemma partial_walk_snoc t c n p s s' :
  partial_walk t c n p → last p = Some s → t !! (s, n) = Some s' →
  s' ≠ n → s' ≠ ERROR → partial_walk t c n (p ++ [s']).
Proof.
  intros (Hh & Hchain & Hn & He) Hl Ht Hs'n Hs'e. split_and!.
  - destruct p; [done|by simpl].
  - intros i x y Hx Hy. apply lookup_lt_Some in Hy as Hlen.
    rewrite length_app in Hlen. simpl in Hlen.
    rewrite lookup_app_l in Hx by lia.
    destruct (decide (S i = length p)) as [Hi|Hi].
    + rewrite lookup_app_r, Hi, Nat.sub_diag in Hy by lia. simpl in Hy.
      rewrite last_lookup, <- Hi in Hl. simpl in Hl. congruence.
    + rewrite lookup_app_l in Hy by lia. eauto.
  - rewrite elem_of_app, list_elem_of_singleton. intros [?|?]; [done|congruence].
  - rewrite elem_of_app, list_elem_of_singleton. intros [?|?]; [done|congruence].
Qed.

Lemma partial_walk_init t c n p q :
  partial_walk t c n (p ++ q) → p ≠ [] → partial_walk t c n p.
Proof.
  intros (Hh & Hchain & Hn & He) Hp. split_and!.
  - destruct p; [done|by simpl in *].
  - intros i x y Hx Hy. apply (Hchain i); by apply lookup_app_l_Some.
  - intros H. apply Hn, elem_of_app. by left.
  - intros H. apply He, elem_of_app. by left.
Qed.

(* The loop started on [c] comes to every partial walk, after as many
   rounds as the walk has steps, and not before. *)
Lemma walk_reach t c n p :
  partial_walk t c n p →
  (∀ fuel, walk (fuel + (length p - 1)) t n [c] = walk fuel t n p) ∧
  (∀ fuel, fuel < length p - 1 → walk fuel t n [c] = OutOfFuel).
Proof.
  induction p as [|s' q IH] using rev_ind; intros Hp.
  - by destruct Hp as [? _].
  - destruct (decide (q = [])) as [->|Hq].
    + destruct Hp as [Hh _]. simpl in *. injection Hh as ->. split.
      * intros fuel. by rewrite Nat.add_0_r.
      * intros; lia.
    + pose proof (partial_walk_init _ _ _ _ _ Hp Hq) as Hpq.
      destruct (IH Hpq) as [IH1 IH2].
      destruct (partial_walk_last _ _ _ _ Hpq) as (s & Hl & Hsn & Hse).
      destruct Hp as (_ & Hchain & Hn & He).
      assert (length q ≠ 0) by (by destruct q).
      assert (t !! (s, n) = Some s') as Ht.
      { apply (Hchain (pred (length q))).
        - rewrite lookup_app_l by lia. by rewrite <- last_lookup.
        - rewrite lookup_app_r by lia.
          by replace (S (pred (length q)) - length q) with 0 by lia. }
      rewrite length_app. simpl. split.
      * intros fuel.
        replace (fuel + (length q + 1 - 1)) with (S fuel + (length q - 1)) by lia.
        rewrite IH1, (walk_unroll _ _ _ _ _ _ Hl Hsn Ht).
        by rewrite bool_decide_eq_true_2.
      * intros fuel Hf. destruct (decide (fuel < length q - 1)); [by apply IH2|].
        replace fuel with (0 + (length q - 1)) by lia. rewrite IH1.
        simpl. rewrite Hl. by rewrite bool_decide_eq_true_2.
Qed.

(* No cycle is detected: once a state has come twice, the loop goes on. *)
Lemma walk_repeats t c n p :
  partial_walk t c n p → repeats p → ∀ fuel, walk fuel t n p = OutOfFuel.
Proof.
  intros Hp Hr fuel. revert p Hp Hr.
  induction fuel as [|fuel IH]; intros p Hp Hr;
    destruct (partial_walk_last _ _ _ _ Hp) as (s & Hl & Hsn & Hse).
  - simpl. rewrite Hl. by rewrite bool_decide_eq_true_2.
  - destruct Hr as (i & j & x & Hij & Hi & Hj).
    pose proof Hp as (_ & Hchain & Hn & He).
    apply lookup_lt_Some in Hj as Hjlt.
    pose proof (follows_table_shift t n p i j x Hchain (Nat.lt_le_incl _ _ Hij)
                  Hi Hj (length p - 1 - j)) as Hshift.
    replace (j + (length p - 1 - j)) with (pred (length p)) in Hshift by lia.
    rewrite <- last_lookup, Hl in Hshift. specialize (Hshift ltac:(lia)).
    destruct (lookup_lt_is_Some_2 p (S (i + (length p - 1 - j)))) as [s' Hs'];
      [lia|].
    pose proof (Hchain _ _ _ Hshift Hs') as Ht.
    apply list_elem_of_lookup_2 in Hs' as Hin.
    assert (s' ≠ n) by congruence. assert (s' ≠ ERROR) by congruence.
    pose proof (partial_walk_snoc _ _ _ _ _ _ Hp Hl Ht ltac:(done) ltac:(done))
      as Hp'.
    rewrite (walk_unroll _ _ _ _ _ _ Hl Hsn Ht).
    destruct Hp' as (? & ? & ? & He'). rewrite bool_decide_eq_true_2 by done.
    apply IH; [done|]. exists i, j, x. split; [done|].
    split; apply lookup_app_l_Some; done.
Qed.

Lemma walk_blocked t c n p s fuel :
  partial_walk t c n p → last p = Some s → t !! (s, n) = Some ERROR →
  walk (S fuel) t n p = Raises AssertionError.
Proof.
  intros Hp Hl Ht. destruct (partial_walk_last _ _ _ _ Hp) as (s0 & Hl0 & Hsn & _).
  assert (s0 = s) as -> by congruence.
  rewrite (walk_unroll _ _ _ _ _ _ Hl Hsn Ht), bool_decide_eq_false_2; [done|].
  intros H. apply H, elem_of_app. right. left.
Qed.

Lemma walk_arrives t c n p s fuel :
  partial_walk t c n p → last p = Some s → t !! (s, n) = Some n → n ≠ ERROR →
  walk (S fuel) t n p = Returns (p ++ [n]).
Proof.
  intros Hp Hl Ht Hn. destruct (partial_walk_last _ _ _ _ Hp) as (s0 & Hl0 & Hsn & _).
  assert (s0 = s) as -> by congruence.
  rewrite (walk_unroll _ _ _ _ _ _ Hl Hsn Ht), bool_decide_eq_true_2.
  - apply walk_stop, last_snoc.
  - destruct Hp as (_ & _ & _ & He). rewrite elem_of_app, list_elem_of_singleton.
    intros [?|?]; [done|congruence].
Qed.

(* What the loop returns from [c], for c ≠ n. *)
Lemma walk_from_start t c n fuel p :
  c ≠ n → walk fuel t n [c] = Returns p →
  head p = Some c ∧ last p = Some n ∧ follows_table t n p ∧
  (∀ i x, p !! i = Some x → S i < length p → x ≠ n) ∧
  (ERROR ∉ p) ∧ NoDup p ∧ 3 ≤ S (length p).
Proof.
  intros Hcn H. apply walk_Returns in H as (ext & -> & Hlast & Hchain & Hne & He).
  assert (ext ≠ []) as Hext.
  { intros ->. simpl in Hlast. congruence. }
  assert (follows_table t n ([c] ++ ext)) as Hft.
  { intros i x y Hx Hy. apply (Hchain i); [done|done|simpl; lia]. }
  assert (∀ i x, ([c] ++ ext) !! i = Some x → S i < length ([c] ++ ext) → x ≠ n)
    as Hne'.
  { intros i x Hx Hi. apply (Hne i); [done|simpl; lia|done]. }
  split_and!; [done|done|done|done|by apply He| |].
  - by eapply follows_table_NoDup.
  - destruct ext; [done|]. simpl. lia.
Qed.

(* More fuel does not change what a loop that ended has done. *)
Lemma walk_fuel_mono t n fuel fuel' path :
  fuel ≤ fuel' → walk fuel t n path ≠ OutOfFuel →
  walk fuel' t n path = walk fuel t n path.
Proof.
  revert fuel' path. induction fuel as [|fuel IH]; intros fuel' path Hle Hne.
  - destruct fuel' as [|fuel']; [done|]. simpl in *.
    destruct (last path) as [s|]; [|done]. by case_bool_decide.
  - destruct fuel' as [|fuel']; [lia|]. simpl in *.
    destruct (last path) as [s|]; [|done]. case_bool_decide; [|done].
    destruct (getitem t (s, n)) as [s'| |]; simpl in *; [|done|done].
    destruct (assert _) as [[]| |]; simpl in *; [|done|done].
    apply IH; [lia|done].
Qed.

Lemma combination_loop_fuel_mono t fuel fuel' l acc comb :
  fuel ≤ fuel' → combination_loop fuel t l acc = Returns comb →
  combination_loop fuel' t l acc = Returns comb.
Proof.
  intros Hle. revert acc. induction l as [|[c n] l IH]; simpl; intros acc H;
    [done|].
  destruct (walk fuel t n [c]) as [p| |] eqn:Hw; simpl in H; try discriminate.
  rewrite (walk_fuel_mono t n fuel fuel') by (done || congruence).
  rewrite Hw. simpl. by apply IH.
Qed.

Lemma walk_missing t c n p s fuel :
  partial_walk t c n p → last p = Some s → t !! (s, n) = None →
  walk (S fuel) t n p = Raises KeyError.
Proof.
  intros Hp Hl Ht. destruct (partial_walk_last _ _ _ _ Hp) as (s0 & Hl0 & Hsn & _).
  assert (s0 = s) as -> by congruence.
  simpl. rewrite Hl, bool_decide_eq_true_2 by done. unfold getitem. by rewrite Ht.
Qed.

Lemma walk_after t c n q fuel :
  partial_walk t c n q → length q ≤ fuel →
  walk fuel t n [c] = walk (S (fuel - length q)) t n q.
Proof.
  intros Hq Hf. destruct (walk_reach _ _ _ _ Hq) as [<- _]. f_equal.
  assert (length q ≠ 0); [|lia]. destruct Hq as [Hh _]. by destruct q.
Qed.

Lemma walk_never_ends t c n q :
  partial_walk t c n q → repeats q → ∀ fuel, walk fuel t n [c] = OutOfFuel.
Proof.
  intros Hq Hrep fuel. destruct (walk_reach _ _ _ _ Hq) as [H1 H2].
  destruct (decide (fuel < length q - 1)) as [|Hge]; [by apply H2|].
  replace fuel with ((fuel - (length q - 1)) + (length q - 1)) by lia.
  rewrite H1. by apply (walk_repeats t c n).
Qed.

Lemma ex_cycle_partial_walk : partial_walk ex_cycle "A" "C" ["A"; "B"; "A"].
Proof.
  split_and!.
  - done.
  - intros [|[|[|i]]] x y Hx Hy; simpl in *; try discriminate;
      injection Hx as <-; injection Hy as <-; vm_compute; reflexivity.
  - rewrite !elem_of_cons, elem_of_nil. intros [?|[?|[?|?]]]; done.
  - rewrite !elem_of_cons, elem_of_nil. intros [?|[?|[?|?]]]; done.
Qed.

(* ===================================================================== *)
(* The two loops that fill combination_paths and all_paths               *)
(* ===================================================================== *)

Lemma combination_loop_Returns fuel t l acc comb :
  combination_loop fuel t l acc = Returns comb →
  (∀ c n, (c, n) ∈ l →
          ∃ p, walk fuel t n [c] = Returns p ∧ comb !! (c, n) = Some p) ∧
  (∀ k, k ∉ l → comb !! k = acc !! k).
Proof.
  revert acc. induction l as [|[c0 n0] l IH]; simpl; intros acc H.
  - injection H as <-. split; [|done]. intros c n Hin. by apply elem_of_nil in Hin.
  - destruct (walk fuel t n0 [c0]) as [p0| |] eqn:Hw; simpl in H; try discriminate.
    apply IH in H as [H1 H2]. split.
    + intros c n Hin. destruct (decide ((c, n) ∈ l)) as [Hl|Hl]; [by apply H1|].
      apply elem_of_cons in Hin as [[= -> ->]|?]; [|done].
      exists p0. split; [done|]. by rewrite H2, lookup_insert_eq.
    + intros k Hk. apply not_elem_of_cons in Hk as [Hne Hk].
      by rewrite H2, lookup_insert_ne.
Qed.

Lemma combination_loop_total fuel t l acc :
  (∀ c n, (c, n) ∈ l → ∃ p, walk fuel t n [c] = Returns p) →
  ∃ comb, combination_loop fuel t l acc = Returns comb.
Proof.
  revert acc. induction l as [|[c0 n0] l IH]; simpl; intros acc H; [eauto|].
  destruct (H c0 n0) as [p ->]; [left|]. simpl. apply IH.
  intros; apply H; by right.
Qed.

Lemma direct_loop_lookup arcs comb c n :
  direct_loop arcs comb !! (c, n) =
    if decide ((c, n) ∈ arcs) then Some [c; n] else comb !! (c, n).
Proof.
  unfold direct_loop. revert comb.
  induction arcs as [|[c0 n0] arcs IH]; intros comb; cbn [foldl].
  - rewrite decide_False; [done|apply not_elem_of_nil].
  - rewrite IH. destruct (decide ((c, n) ∈ arcs)) as [Hin|Hin].
    + rewrite decide_True; [done|by right].
    + destruct (decide ((c, n) = (c0, n0))) as [[= -> ->]|Hne].
      * rewrite lookup_insert_eq, decide_True; [done|left].
      * rewrite lookup_insert_ne by done. rewrite decide_False; [done|].
        by intros [?|?]%elem_of_cons.
Qed.

(* ===================================================================== *)
(* Walks of the arc graph and the shortest paths                         *)
(* ===================================================================== *)

Lemma is_walk_snoc G q y :
  is_walk G (q ++ [y]) ↔ is_walk G q ∧ ∀ x, last q = Some x → (x, y) ∈ G.
Proof.
  split.
  - intros H. split.
    + intros i x z Hx Hz. apply (H i); by apply lookup_app_l_Some.
    + intros x Hl. rewrite last_lookup in Hl.
      assert (length q ≠ 0) by (intros H0; rewrite H0 in Hl; by destruct q).
      apply (H (pred (length q))).
      * by apply lookup_app_l_Some.
      * rewrite lookup_app_r by lia.
        by replace (S (pred (length q)) - length q) with 0 by lia.
  - intros [Hq Hy] i x z Hx Hz. apply lookup_lt_Some in Hz as Hlen.
    rewrite length_app in Hlen. simpl in Hlen.
    rewrite lookup_app_l in Hx by lia.
    destruct (decide (S i = length q)) as [Hi|Hi].
    + rewrite lookup_app_r, Hi, Nat.sub_diag in Hz by lia. simpl in Hz.
      injection Hz as <-. apply Hy. rewrite last_lookup, <- Hi. done.
    + rewrite lookup_app_l in Hz by lia. eauto.
Qed.

Lemma is_walk_singleton G x : is_walk G [x].
Proof. intros [|i] ? ? ? H; simpl in H; discriminate. Qed.

Lemma is_walk_nodes G p x :
  is_walk G p → 2 ≤ length p → x ∈ p → x ∈ nodes G.
Proof.
  intros Hw Hlen [i Hi]%list_elem_of_lookup_1. unfold nodes.
  apply lookup_lt_Some in Hi as Hlt.
  destruct (decide (S i < length p)) as [Hs|Hs].
  - destruct (lookup_lt_is_Some_2 p (S i) Hs) as [y Hy].
    apply elem_of_union_l, elem_of_map. exists (x, y). split; [done|eauto].
  - destruct i as [|i]; [lia|].
    destruct (lookup_lt_is_Some_2 p i) as [y Hy]; [lia|].
    apply elem_of_union_r, elem_of_map. exists (y, x). split; [done|eauto].
Qed.

Section shortest.
Context (G : gset (string * string)).
Let arcs := elements G.

Lemma elem_of_extend w w' :
  w ∈ extend arcs w' ↔
  ∃ x rest y, w' = x :: rest ∧ (x, y) ∈ G ∧ w = y :: w'.
Proof.
  unfold extend. destruct w' as [|x rest].
  - split; [intros H; by apply elem_of_nil in H|by intros (? & ? & ? & ? & _)].
  - rewrite list_elem_of_fmap. split.
    + intros ([x' y] & -> & [Hx Hin]%list_elem_of_filter). simpl in *. subst x'.
      exists x, rest, y. split_and!; [done| |done]. by apply elem_of_elements.
    + intros (x' & rest' & y & [= <- <-] & Hin & ->). exists (x, y).
      split; [done|]. apply list_elem_of_filter. split; [done|].
      by apply elem_of_elements.
Qed.

Lemma elem_of_rwalks c k w :
  w ∈ rwalks arcs c k ↔
  length w = S k ∧ head (reverse w) = Some c ∧ is_walk G (reverse w).
Proof.
  revert w. induction k as [|k IH]; intros w; simpl.
  - rewrite list_elem_of_singleton. split.
    + intros ->. split_and!; [done|done|apply is_walk_singleton].
    + intros (Hlen & Hh & _). destruct w as [|x [|]]; try discriminate.
      simpl in Hh. by injection Hh as ->.
  - rewrite list_elem_of_bind. split.
    + intros (w' & (x & rest & y & -> & Hin & ->)%elem_of_extend
                 & (Hlen & Hh & Hw)%IH).
      rewrite reverse_cons. split_and!.
      * simpl in *. lia.
      * rewrite reverse_cons in *. destruct (reverse rest); done.
      * apply is_walk_snoc. split; [done|]. intros x'.
        rewrite last_reverse. simpl. by intros [= <-].
    + intros (Hlen & Hh & Hw). destruct w as [|y [|x rest]]; try discriminate.
      rewrite reverse_cons in Hh, Hw. apply is_walk_snoc in Hw as [Hw Hy].
      exists (x :: rest). split.
      * apply elem_of_extend. exists x, rest, y. split_and!; [done| |done].
        apply Hy. by rewrite last_reverse.
      * apply IH. split_and!; [simpl in *; lia| |done].
        rewrite reverse_cons in *. destruct (reverse rest); done.
Qed.

Lemma NoDup_rwalks c k : NoDup (rwalks arcs c k).
Proof.
  induction k as [|k IH]; simpl; [apply NoDup_singleton|].
  apply NoDup_bind; [| |done].
  - intros w1 w2 w _ _ (? & ? & ? & _ & _ & ->)%elem_of_extend
                     (? & ? & ? & _ & _ & [= _ ->])%elem_of_extend. done.
  - intros [|x rest] _; [apply NoDup_nil_2|]. unfold extend.
    apply NoDup_fmap_2_strong.
    + intros [a b] [a' b'] [Ha _]%list_elem_of_filter [Ha' _]%list_elem_of_filter.
      simpl in *. by intros [= ->]; subst.
    + apply NoDup_filter, NoDup_elements.
Qed.

(* The walks from [c] to [n] with [k] arcs, as the search lists them. *)
Lemma elem_of_found c n k p :
  p ∈ reverse <$> filter (λ w : list string, head w = Some n) (rwalks arcs c k)
  ↔ walk_between G c n p ∧ length p = S k.
Proof.
  rewrite list_elem_of_fmap. split.
  - intros (w & -> & [Hh (Hlen & Hc & Hw)%elem_of_rwalks]%list_elem_of_filter).
    rewrite length_reverse. split; [|done]. split_and!; [done| |done].
    by rewrite last_reverse.
  - intros [(Hc & Hn & Hw) Hlen]. exists (reverse p).
    rewrite reverse_involutive. split; [done|]. apply list_elem_of_filter. split.
    + by rewrite head_reverse.
    + apply elem_of_rwalks. rewrite reverse_involutive, length_reverse. done.
Qed.

Lemma search_Returns c n k budget ps :
  search arcs c n k budget = Returns ps →
  ∃ k0, k ≤ k0 ∧ ps ≠ [] ∧
    ps = reverse <$> filter (λ w : list string, head w = Some n) (rwalks arcs c k0) ∧
    ∀ j, k ≤ j < k0 →
         filter (λ w : list string, head w = Some n) (rwalks arcs c j) = [].
Proof.
  revert k. induction budget as [|budget IH]; intros k H; [discriminate|].
  simpl in H.
  destruct (filter _ (rwalks arcs c k)) as [|w ws] eqn:Hf.
  - apply IH in H as (k0 & Hk & Hne & -> & Hnone). exists k0.
    split_and!; [lia|done|done|]. intros j Hj.
    destruct (decide (j = k)) as [->|]; [done|apply Hnone; lia].
  - injection H as <-. exists k. rewrite Hf. split_and!; [done|done|done|].
    intros; lia.
Qed.

Lemma search_total c n k budget j :
  k ≤ j < k + budget →
  filter (λ w : list string, head w = Some n) (rwalks arcs c j) ≠ [] →
  ∃ ps, search arcs c n k budget = Returns ps.
Proof.
  revert k. induction budget as [|budget IH]; intros k Hj Hne; [lia|].
  simpl. destruct (filter _ (rwalks arcs c k)) as [|w ws] eqn:Hf; [|eauto].
  apply IH; [|done]. destruct (decide (j = k)) as [->|]; [done|lia].
Qed.

Lemma all_shortest_paths_Returns c n ps :
  all_shortest_paths G c n = Returns ps →
  NoDup ps ∧ ps ≠ [] ∧ ∀ p, p ∈ ps ↔ shortest_between G c n p.
Proof.
  unfold all_shortest_paths. case_bool_decide; [|discriminate].
  intros (k0 & _ & Hne & -> & Hnone)%search_Returns.
  assert (∀ q, walk_between G c n q → S k0 ≤ length q) as Hmin.
  { intros q Hq. destruct (decide (S k0 ≤ length q)) as [|Hlt]; [done|].
    destruct Hq as (Hc & Hn & Hw). assert (length q ≠ 0) by (by destruct q).
    assert (q ∈ reverse <$> filter (λ w : list string, head w = Some n)
                                (rwalks arcs c (pred (length q)))) as Hin.
    { apply elem_of_found. split; [done|lia]. }
    rewrite Hnone in Hin by lia. by apply elem_of_nil in Hin. }
  split_and!.
  - apply NoDup_fmap_2; [apply _|]. apply NoDup_filter, NoDup_rwalks.
  - done.
  - intros p. rewrite elem_of_found. split.
    + intros [Hp Hlen]. split; [done|]. intros q Hq. rewrite Hlen. by apply Hmin.
    + intros [Hp Hshort]. split; [done|].
      destruct (reverse <$> filter _ (rwalks arcs c k0)) as [|p0 ps0] eqn:Hps;
        [done|].
      assert (p0 ∈ p0 :: ps0) as Hp0 by left. rewrite <- Hps in Hp0.
      apply elem_of_found in Hp0 as [Hp0 Hlen0].
      pose proof (Hshort _ Hp0). pose proof (Hmin _ Hp). lia.
Qed.

Lemma all_shortest_paths_total c n q :
  c ≠ n → walk_between G c n q → NoDup q →
  ∃ ps, all_shortest_paths G c n = Returns ps.
Proof.
  intros Hcn (Hc & Hn & Hw) Hnd. unfold all_shortest_paths.
  assert (2 ≤ length q) as Hlen.
  { destruct q as [|a [|b q]]; simpl in *; [done|congruence|lia]. }
  rewrite bool_decide_eq_true_2.
  2:{ apply (is_walk_nodes G q); [done|done|]. by apply head_Some_elem_of. }
  apply (search_total c n 0 _ (pred (length q))).
  - split; [lia|]. simpl.
    assert (length q ≤ size (nodes G)); [|lia].
    unfold size, set_size. simpl. apply submseteq_length, NoDup_submseteq; [done|].
    intros x Hx. apply elem_of_elements. by apply (is_walk_nodes G q).
  - intros Hnil.
    assert (q ∈ reverse <$> filter (λ w : list string, head w = Some n)
                                (rwalks arcs c (pred (length q)))) as Hin.
    { apply elem_of_found. split; [done|lia]. }
    rewrite Hnil in Hin. by apply elem_of_nil in Hin.
Qed.
End shortest.

(* ===================================================================== *)
(* The tables after line 66                                              *)
(* ===================================================================== *)

Lemma resolve_Returns fuel t r :
  resolve fuel t = Returns r →
  total t ∧
  blocked_transitions t = Returns (tb_blocked_transitions r) ∧
  fsm_arcs t (tb_blocked_transitions r) = Returns (tb_fsm_arcs r) ∧
  combination_loop fuel t
    (elements (all_state_pairs t ∖ tb_fsm_arcs r ∖ tb_blocked_transitions r)) ∅
    = Returns (tb_combination_paths r) ∧
  tb_all_paths r =
    direct_loop (elements (tb_fsm_arcs r ∖ tb_blocked_transitions r))
                (tb_combination_paths r).
Proof.
  unfold resolve. intros H.
  destruct (blocked_transitions t) as [B| |] eqn:HB; simpl in H; try discriminate.
  destruct (fsm_arcs t B) as [G| |] eqn:HG; simpl in H; try discriminate.
  destruct (table_is_complete _ _) as [[]| |]; simpl in H; try discriminate.
  destruct (combination_loop _ _ _ _) as [comb| |] eqn:HC; simpl in H;
    try discriminate.
  injection H as <-. simpl. split_and!; try done.
  by apply blocked_transitions_Returns in HB as [? _].
Qed.

Lemma resolve_fuel_mono fuel fuel' t r :
  fuel ≤ fuel' → resolve fuel t = Returns r → resolve fuel' t = Returns r.
Proof.
  unfold resolve. intros Hle H.
  destruct (blocked_transitions t) as [B| |]; simpl in *; try discriminate.
  destruct (fsm_arcs t B) as [G| |]; simpl in *; try discriminate.
  destruct (table_is_complete _ _) as [[]| |]; simpl in *; try discriminate.
  destruct (combination_loop fuel _ _ _) as [comb| |] eqn:HC; simpl in H;
    try discriminate.
  by rewrite (combination_loop_fuel_mono _ _ _ _ _ _ Hle HC).
Qed.

Section resolved.
Context (fuel : nat) (t : gmap (string * string) string) (r : tables).
Context (Hr : resolve fuel t = Returns r).

Lemma resolved_blocked p :
  p ∈ tb_blocked_transitions r ↔ p ∈ all_state_pairs t ∧ t !! p = Some ERROR.
Proof.
  destruct (resolve_Returns _ _ _ Hr) as (_ & HB & _).
  by apply blocked_transitions_Returns in HB as [_ HB].
Qed.

Lemma resolved_fsm_arcs c s :
  (c, s) ∈ tb_fsm_arcs r ↔
  ∃ n, (c, n) ∈ all_state_pairs t ∧ t !! (c, n) = Some s ∧ s ≠ ERROR.
Proof.
  destruct (resolve_Returns _ _ _ Hr) as (_ & _ & HG & _).
  rewrite (fsm_arcs_Returns _ _ _ HG). split.
  - intros (n & Hp & HnB & Hs). exists n. split_and!; [done|done|].
    intros ->. apply HnB, resolved_blocked. done.
  - intros (n & Hp & Hs & Hne). exists n. split_and!; [done| |done].
    intros [_ HB]%resolved_blocked. congruence.
Qed.

Lemma resolved_combination_paths c n p :
  tb_combination_paths r !! (c, n) = Some p ↔
  (c, n) ∈ all_state_pairs t ∧ ((c, n) ∉ tb_fsm_arcs r) ∧
  ((c, n) ∉ tb_blocked_transitions r) ∧ walk fuel t n [c] = Returns p.
Proof.
  destruct (resolve_Returns _ _ _ Hr) as (_ & _ & _ & HC & _).
  apply combination_loop_Returns in HC as [H1 H2].
  destruct (decide ((c, n) ∈ elements (all_state_pairs t ∖ tb_fsm_arcs r
                                       ∖ tb_blocked_transitions r)))
    as [Hin|Hin].
  - destruct (H1 c n Hin) as (p' & Hw & Hp').
    apply elem_of_elements in Hin. rewrite Hp', Hw.
    apply elem_of_difference in Hin as [[? ?]%elem_of_difference ?].
    split; [intros [= ->]|intros (_ & _ & _ & [= ->])]; done.
  - rewrite H2, lookup_empty by done. split; [done|].
    intros (? & ? & ? & _). destruct Hin.
    by rewrite elem_of_elements, !elem_of_difference.
Qed.

Lemma resolved_all_paths c n :
  tb_all_paths r !! (c, n) =
    if decide ((c, n) ∈ tb_fsm_arcs r ∖ tb_blocked_transitions r)
    then Some [c; n] else tb_combination_paths r !! (c, n).
Proof.
  destruct (resolve_Returns _ _ _ Hr) as (_ & _ & _ & _ & ->).
  rewrite direct_loop_lookup.
  destruct (decide (_ ∈ elements _)) as [H|H]; rewrite elem_of_elements in H.
  - by rewrite decide_True.
  - by rewrite decide_False.
Qed.

(* The walked pairs are those the loop of line 56 ranges over. *)
Lemma resolved_walked c n :
  (c, n) ∈ all_state_pairs t → (c, n) ∉ tb_fsm_arcs r →
  (c, n) ∉ tb_blocked_transitions r →
  ∃ p, tb_combination_paths r !! (c, n) = Some p.
Proof.
  intros Hp HG HB.
  destruct (resolve_Returns _ _ _ Hr) as (_ & _ & _ & HC & _).
  apply combination_loop_Returns in HC as [H1 _].
  destruct (H1 c n) as (p & _ & ?); [|eauto].
  by rewrite elem_of_elements, !elem_of_difference.
Qed.

(* A state the table steps from towards [n] makes, with [n], a pair. *)
Lemma step_in_fsm_arcs c n x y :
  (c, n) ∈ all_state_pairs t → t !! (x, n) = Some y → x ≠ n → y ≠ ERROR →
  (x, y) ∈ tb_fsm_arcs r.
Proof.
  intros (_ & Hn & _)%elem_of_all_state_pairs Ht Hxn Hy.
  apply resolved_fsm_arcs. exists n. split_and!; [|done|done].
  apply elem_of_all_state_pairs. split_and!; [|done|done].
  apply elem_of_all_states. eauto.
Qed.

Lemma combination_path_walk c n p :
  tb_combination_paths r !! (c, n) = Some p →
  walk_between (tb_fsm_arcs r) c n p ∧ follows_table t n p ∧
  NoDup p ∧ (ERROR ∉ p) ∧ 3 ≤ length p.
Proof.
  intros (Hp & HG & HB & Hw)%resolved_combination_paths.
  assert (c ≠ n) as Hcn by (by apply elem_of_all_state_pairs in Hp as (_&_&?)).
  apply walk_from_start in Hw as (Hh & Hl & Hft & Hne & He & Hnd & Hlen);
    [|done].
  assert (is_walk (tb_fsm_arcs r) p) as Hwalk.
  { intros i x y Hx Hy. apply (step_in_fsm_arcs c n); [done|by eapply Hft| |].
    - apply (Hne i); [done|]. by apply lookup_lt_Some in Hy.
    - intros ->. apply He. by eapply list_elem_of_lookup_2. }
  split_and!; try done.
  (* a path of two states would make (c, n) an arc *)
  destruct p as [|a [|b [|]]]; simpl in *; try lia; try congruence.
  injection Hh as ->. injection Hl as ->.
  destruct HG. apply (Hwalk 0); done.
Qed.

(* The paths of all_paths with three states or more are those of
   combination_paths. *)
Lemma all_paths_multi_hop c n p :
  tb_all_paths r !! (c, n) = Some p → 3 ≤ length p →
  tb_combination_paths r !! (c, n) = Some p.
Proof.
  rewrite resolved_all_paths. destruct (decide _); [|done].
  intros [= <-]. simpl. lia.
Qed.

(* Every pair that is not blocked has its path in all_paths. *)
Lemma canonical_path c n :
  (c, n) ∈ all_state_pairs t → (c, n) ∉ tb_blocked_transitions r →
  ∃ p, tb_all_paths r !! (c, n) = Some p ∧
       walk_between (tb_fsm_arcs r) c n p ∧ NoDup p.
Proof.
  intros Hp HB. rewrite resolved_all_paths.
  assert (c ≠ n) as Hcn by (by apply elem_of_all_state_pairs in Hp as (_&_&?)).
  destruct (decide _) as [Hd|Hd].
  - exists [c; n]. split; [done|]. split.
    + split_and!; [done|done|]. intros [|[|i]] x y Hx Hy; simpl in *; try done.
      injection Hx as <-. injection Hy as <-.
      by apply elem_of_difference in Hd as [? _].
    + apply NoDup_cons. split; [by intros ->%list_elem_of_singleton|].
      apply NoDup_singleton.
  - destruct (resolved_walked c n) as [p Hc]; [done| |done|].
    { intros HG. apply Hd, elem_of_difference. done. }
    exists p. split; [done|].
    by apply combination_path_walk in Hc as (? & _ & ? & _).
Qed.
End resolved.

(* ===================================================================== *)
(* The shortest path check of one pair                                   *)
(* ===================================================================== *)

Lemma elem_of_sorted_arcs l p : p ∈ sorted_arcs l ↔ p ∈ l.
Proof. unfold sorted_arcs. by rewrite merge_sort_Permutation. Qed.

Lemma elem_of_sorted_paths l p : p ∈ sorted_paths l ↔ p ∈ l.
Proof. unfold sorted_paths. by rewrite merge_sort_Permutation. Qed.

Lemma NoDup_all_equal {A} (l : list A) x :
  NoDup l → l ≠ [] → (∀ y, y ∈ l → y = x) → l = [x].
Proof.
  intros Hnd Hne Hall. destruct l as [|a [|b l]]; [done| |].
  - f_equal. apply Hall. left.
  - apply NoDup_cons in Hnd as [Hnin _]. destruct Hnin.
    rewrite (Hall a), (Hall b); [left|right; left|left].
Qed.

(* Between two distinct states joined by an arc, the arc is the one
   shortest path. *)
Lemma shortest_between_arc G c n q :
  c ≠ n → (c, n) ∈ G → shortest_between G c n q → q = [c; n].
Proof.
  intros Hcn HG [(Hh & Hl & _) Hmin].
  assert (walk_between G c n [c; n]) as Hw.
  { split_and!; [done|done|]. intros [|[|i]] x y Hx Hy; simpl in *; try done.
    by injection Hx as <-; injection Hy as <-. }
  apply Hmin in Hw. simpl in Hw.
  destruct q as [|a [|b [|]]]; simpl in *; try lia; congruence.
Qed.

Section checked.
Context (fuel : nat) (t : gmap (string * string) string) (r : tables).
Context (Hr : resolve fuel t = Returns r).
Context (c n : string).
Context (Hp : (c, n) ∈ all_state_pairs t).
Context (HB : (c, n) ∉ tb_blocked_transitions r).

Lemma shortest_paths_found :
  ∃ ps, all_shortest_paths (tb_fsm_arcs r) c n = Returns ps.
Proof.
  destruct (canonical_path _ _ _ Hr c n Hp HB) as (a & _ & Hw & Hnd).
  apply (all_shortest_paths_total _ c n a); [|done|done].
  by apply elem_of_all_state_pairs in Hp as (_ & _ & ?).
Qed.

Lemma check_pair_unique p :
  shortest_between (tb_fsm_arcs r) c n p →
  (∀ q, shortest_between (tb_fsm_arcs r) c n q → q = p) →
  check_pair (tb_fsm_arcs r) (tb_combination_paths r) (tb_all_paths r) (c, n)
  = if decide (tb_all_paths r !! (c, n) = Some p) then Returns None
    else Raises AssertionError.
Proof.
  intros Hs Huniq. destruct shortest_paths_found as [ps Hps].
  destruct (all_shortest_paths_Returns _ _ _ _ Hps) as (Hnd & Hne & Hspec).
  assert (ps = [p]) as ->.
  { apply NoDup_all_equal; [done|done|]. intros q Hq. by apply Huniq, Hspec. }
  destruct (canonical_path _ _ _ Hr c n Hp HB) as (a & Ha & _).
  unfold check_pair. simpl. rewrite Hps. simpl. unfold getitem. rewrite Ha.
  simpl. unfold assert. destruct (decide (Some a = Some p)) as [[= ->]|Hne'].
  - by rewrite bool_decide_eq_true_2.
  - rewrite bool_decide_eq_false_2; [done|congruence].
Qed.

Lemma check_pair_tied ps :
  all_shortest_paths (tb_fsm_arcs r) c n = Returns ps → length ps ≠ 1 →
  check_pair (tb_fsm_arcs r) (tb_combination_paths r) (tb_all_paths r) (c, n)
  = Returns (Some ((c, n),
      (λ q, (q, bool_decide (tb_combination_paths r !! (c, n) = Some q)))
        <$> sorted_paths ps)) ∧
  tb_combination_paths r !! (c, n) = tb_all_paths r !! (c, n).
Proof.
  intros Hps Hlen. split.
  - unfold check_pair. simpl. rewrite Hps. simpl.
    by rewrite bool_decide_eq_true_2.
  - rewrite (resolved_all_paths _ _ _ Hr). destruct (decide _) as [Hd|]; [|done].
    apply elem_of_difference in Hd as [HG _]. destruct Hlen.
    destruct (all_shortest_paths_Returns _ _ _ _ Hps) as (Hnd & Hne & Hspec).
    assert (c ≠ n) by (by apply elem_of_all_state_pairs in Hp as (_ & _ & ?)).
    rewrite (NoDup_all_equal ps [c; n]); [done|done|done|].
    intros q Hq. apply (shortest_between_arc (tb_fsm_arcs r)); [done|done|].
    by apply Hspec.
Qed.

(* The check of a pair returns or fails its assert. *)
Lemma check_pair_outcome :
  (∃ o, check_pair (tb_fsm_arcs r) (tb_combination_paths r) (tb_all_paths r)
          (c, n) = Returns o) ∨
  check_pair (tb_fsm_arcs r) (tb_combination_paths r) (tb_all_paths r) (c, n)
    = Raises AssertionError.
Proof.
  destruct shortest_paths_found as [ps Hps].
  destruct (decide (length ps = 1)) as [Hlen|Hlen].
  - destruct ps as [|p [|]]; try discriminate.
    destruct (all_shortest_paths_Returns _ _ _ _ Hps) as (_ & _ & Hspec).
    rewrite (check_pair_unique p).
    + destruct (decide _); eauto.
    + apply Hspec. left.
    + by intros q Hq%Hspec%list_elem_of_singleton.
  - left. destruct (check_pair_tied ps Hps Hlen) as [-> _]. eauto.
Qed.
End checked.

(* ===================================================================== *)
(* The whole study                                                       *)
(* ===================================================================== *)

Lemma mig_state_study_Returns fuel t s :
  mig_state_study fuel t = Returns s →
  resolve fuel t = Returns (st_tables s) ∧
  shortest_path_ambiguity (tb_fsm_arcs (st_tables s))
    (tb_combination_paths (st_tables s)) (tb_all_paths (st_tables s))
    (sorted_arcs (elements (all_state_pairs t
                            ∖ tb_blocked_transitions (st_tables s))))
    = Returns (st_ambiguity s) ∧
  st_unwind s = error_unwind_study (tb_combination_paths (st_tables s))
                                   (tb_all_paths (st_tables s)).
Proof.
  unfold mig_state_study. intros H.
  destruct (resolve fuel t) as [r| |]; simpl in H; try discriminate.
  destruct (shortest_path_ambiguity _ _ _ _) as [amb| |] eqn:Ha; simpl in H;
    try discriminate.
  injection H as <-. simpl. done.
Qed.

Lemma mig_state_study_fuel_mono fuel fuel' t s :
  fuel ≤ fuel' → mig_state_study fuel t = Returns s →
  mig_state_study fuel' t = Returns s.
Proof.
  unfold mig_state_study. intros Hle H.
  destruct (resolve fuel t) as [r| |] eqn:Hr; simpl in H; try discriminate.
  by rewrite (resolve_fuel_mono _ _ _ _ Hle Hr).
Qed.

Section study.
Context (fuel : nat) (t : gmap (string * string) string) (r : tables).
Context (Hr : resolve fuel t = Returns r).

Lemma checked_pairs p :
  p ∈ sorted_arcs (elements (all_state_pairs t ∖ tb_blocked_transitions r)) ↔
  p ∈ all_state_pairs t ∧ p ∉ tb_blocked_transitions r.
Proof. by rewrite elem_of_sorted_arcs, elem_of_elements, elem_of_difference. Qed.

(* One failed assert in the shortest path check ends the script. *)
Lemma study_AssertionError c n :
  (c, n) ∈ all_state_pairs t → (c, n) ∉ tb_blocked_transitions r →
  check_pair (tb_fsm_arcs r) (tb_combination_paths r) (tb_all_paths r) (c, n)
    = Raises AssertionError →
  mig_state_study fuel t = Raises AssertionError.
Proof.
  intros Hp HB Hc. unfold mig_state_study. rewrite Hr. simpl.
  unfold shortest_path_ambiguity.
  rewrite (comprehension_Raises _ _ AssertionError); [done| |].
  - intros [c' n'] [? ?]%checked_pairs.
    destruct (check_pair_outcome fuel t r Hr c' n') as [[o ->]| ->]; eauto.
  - exists (c, n). split; [by apply checked_pairs|done].
Qed.

(* Without a failed assert the script goes to its end. *)
Lemma study_completes :
  (∀ c n, (c, n) ∈ all_state_pairs t → (c, n) ∉ tb_blocked_transitions r →
          check_pair (tb_fsm_arcs r) (tb_combination_paths r)
            (tb_all_paths r) (c, n) ≠ Raises AssertionError) →
  ∃ s, mig_state_study fuel t = Returns s ∧ st_tables s = r.
Proof.
  intros Hall. unfold mig_state_study. rewrite Hr. simpl.
  unfold shortest_path_ambiguity.
  destruct (comprehension_total
    (check_pair (tb_fsm_arcs r) (tb_combination_paths r) (tb_all_paths r))
    (sorted_arcs (elements (all_state_pairs t ∖ tb_blocked_transitions r))))
    as [amb ->]; [|simpl; eauto].
  intros [c n] [? ?]%checked_pairs.
  destruct (check_pair_outcome fuel t r Hr c n) as [?|Hc]; [done|done|done|].
  by apply Hall in Hc.
Qed.

(* What a pair has added to the report is in the report. *)
Lemma study_ambiguity s c n a :
  mig_state_study fuel t = Returns s →
  (c, n) ∈ all_state_pairs t → (c, n) ∉ tb_blocked_transitions r →
  check_pair (tb_fsm_arcs r) (tb_combination_paths r) (tb_all_paths r) (c, n)
    = Returns (Some a) →
  a ∈ st_ambiguity s.
Proof.
  intros (Hr' & Ha & _)%mig_state_study_Returns Hp HB Hc.
  rewrite Hr in Hr'. injection Hr' as Heq. rewrite <- Heq in Ha.
  apply comprehension_Returns in Ha as [_ Ha]. apply Ha.
  exists (c, n). split; [by apply checked_pairs|done].
Qed.
End study.

(* A script that ends has passed the assert of line 99 for every pair
   with one shortest path. *)
Lemma unique_shortest_is_canonical fuel t s c n p :
  mig_state_study fuel t = Returns s →
  (c, n) ∈ all_state_pairs t →
  (c, n) ∉ tb_blocked_transitions (st_tables s) →
  shortest_between (tb_fsm_arcs (st_tables s)) c n p →
  (∀ q, shortest_between (tb_fsm_arcs (st_tables s)) c n q → q = p) →
  tb_all_paths (st_tables s) !! (c, n) = Some p.
Proof.
  intros Hs Hp HB Hsh Huniq.
  pose proof Hs as (Hr & _ & _)%mig_state_study_Returns.
  pose proof (check_pair_unique _ _ _ Hr c n Hp HB p Hsh Huniq) as Hc.
  destruct (decide _) as [|Hne]; [done|].
  rewrite (study_AssertionError _ _ _ Hr c n Hp HB Hc) in Hs. discriminate.
Qed.

(* ===================================================================== *)
(* The error unwind study                                                *)
(* ===================================================================== *)

Lemma unwind_of_path_lookup all c path i err :
  head path = Some c → path !! i = Some err → 0 < i → S i < length path →
  unwind_of_path all path !! (i - 1) =
    Some (err, match all !! (err, c) with
               | None => ToError
               | Some err_path => PathBack (reverse err_path)
               end).
Proof.
  intros Hh Hi H0 Hlen. destruct path as [|c' path]; [done|].
  injection Hh as ->. unfold unwind_of_path.
  rewrite list_lookup_fmap, lookup_drop, lookup_take_lt by lia.
  replace (1 + (i - 1)) with i by lia. by rewrite Hi.
Qed.

Lemma unwind_of_path_length all path :
  length (unwind_of_path all path) = length path - 2.
Proof.
  destruct path as [|c path]; [done|]. unfold unwind_of_path.
  rewrite length_fmap, length_drop, length_take. lia.
Qed.

Lemma elem_of_error_unwind_study comb all c n path :
  comb !! (c, n) = Some path →
  (path, unwind_of_path all path) ∈ error_unwind_study comb all.
Proof.
  intros Hc. unfold error_unwind_study.
  apply (list_elem_of_fmap_2 (λ path, (path, unwind_of_path all path))).
  apply elem_of_sorted_paths, list_elem_of_fmap. exists ((c, n), path).
  split; [done|]. by apply elem_of_map_to_list.
Qed.

(* ===================================================================== *)
(* The kinds of pairs                                                    *)
(* ===================================================================== *)

Lemma classify_cases pairs B G p :
  p ∈ pairs →
  (classify pairs B G p = Some Blocked ∧ p ∈ B) ∨
  (classify pairs B G p = Some Direct ∧ (p ∉ B) ∧ p ∈ G) ∨
  (classify pairs B G p = Some Combination ∧ (p ∉ B) ∧ (p ∉ G)).
Proof.
  intros Hp. unfold classify.
  destruct (decide (p ∈ B)) as [HB|HB]; [by left|right].
  destruct (decide (p ∈ G)) as [HG|HG].
  - left. rewrite decide_True; [done|by apply elem_of_difference].
  - right. rewrite decide_False by (by intros [? _]%elem_of_difference).
    rewrite decide_True; [done|by rewrite !elem_of_difference].
Qed.

(* ===================================================================== *)
(* The sample tables, run                                                *)
(* ===================================================================== *)

Lemma ex3_resolve : resolve 10 ex3 = Returns ex3_tables.
Proof. vm_compute; reflexivity. Qed.

Lemma ex_swap_resolve : resolve 10 ex_swap = Returns ex_swap_tables.
Proof. vm_compute; reflexivity. Qed.

Lemma ex_tie_resolve : resolve 10 ex_tie = Returns ex_tie_tables.
Proof. vm_compute; reflexivity. Qed.

Lemma ex_tie_mig_state_study : mig_state_study 10 ex_tie = Returns ex_tie_study.
Proof. vm_compute; reflexivity. Qed.

Lemma ex_tie_shortest_paths :
  all_shortest_paths (tb_fsm_arcs ex_tie_tables) "A" "Z"
  = Returns [["A"; "Y"; "Z"]; ["A"; "X"; "Z"]].
Proof. vm_compute; reflexivity. Qed.

Lemma ex3_shortest_paths :
  all_shortest_paths (tb_fsm_arcs ex3_tables) "A" "C"
  = Returns [["A"; "B"; "C"]].
Proof. vm_compute; reflexivity. Qed.

(* ===================================================================== *)
(* The claims                                                            *)
(* ===================================================================== *)

(** C1 (amended): for every pair of distinct states of the table, the pair
    is blocked exactly when table[c,n] is ERROR; otherwise it is direct
    exactly when (c, n) is one of the FSM arcs, that is when some pair
    (c, n') that is not blocked has table[c,n'] = n, which is the case
    when table[c,n] = n; otherwise it is a combination; and the pair is
    of exactly one of the three kinds. *)
Theorem C1_classification t B G c n :
  blocked_transitions t = Returns B → fsm_arcs t B = Returns G →
  (c, n) ∈ all_state_pairs t →
  ((c, n) ∈ B ↔ t !! (c, n) = Some ERROR) ∧
  ((c, n) ∈ G ∖ B ↔
     t !! (c, n) ≠ Some ERROR ∧
     ∃ n', (c, n') ∈ all_state_pairs t ∧ ((c, n') ∉ B) ∧ t !! (c, n') = Some n) ∧
  (t !! (c, n) = Some n → n ≠ ERROR → (c, n) ∈ G ∖ B) ∧
  ((c, n) ∈ all_state_pairs t ∖ G ∖ B ↔ ((c, n) ∉ B) ∧ ((c, n) ∉ G ∖ B)) ∧
  (classify (all_state_pairs t) B G (c, n) = Some Blocked ↔ (c, n) ∈ B) ∧
  (classify (all_state_pairs t) B G (c, n) = Some Direct ↔ (c, n) ∈ G ∖ B) ∧
  (classify (all_state_pairs t) B G (c, n) = Some Combination ↔
     (c, n) ∈ all_state_pairs t ∖ G ∖ B).
Proof.
  intros HB HG Hp.
  apply blocked_transitions_Returns in HB as [_ HB].
  pose proof (fsm_arcs_Returns _ _ _ HG) as HG'.
  assert ((c, n) ∈ B ↔ t !! (c, n) = Some ERROR) as Hb.
  { rewrite HB. tauto. }
  split_and!.
  - done.
  - rewrite elem_of_difference, HG', Hb. tauto.
  - intros Ht Hn. rewrite elem_of_difference, HG', Hb. split; [|congruence].
    exists n. split_and!; [done| |done]. rewrite Hb. congruence.
  - rewrite !elem_of_difference. tauto.
  - destruct (classify_cases _ B G _ Hp) as [[-> ?]|[(-> & ? & ?)|(-> & ? & ?)]];
      split; intros; done.
  - rewrite elem_of_difference.
    destruct (classify_cases _ B G _ Hp) as [[-> ?]|[(-> & ? & ?)|(-> & ? & ?)]];
      split; intros; try done; tauto.
  - rewrite !elem_of_difference.
    destruct (classify_cases _ B G _ Hp) as [[-> ?]|[(-> & ? & ?)|(-> & ? & ?)]];
      split; intros; try done; tauto.
Qed.

Lemma C1_classification_witness :
  blocked_transitions ex3 = Returns ∅ ∧
  fsm_arcs ex3 ∅ = Returns ex3_fsm_arcs ∧
  ("A", "C") ∈ all_state_pairs ex3 ∧
  (("A", "C") ∈ (∅ : gset (string * string)) ↔
   ex3 !! ("A", "C") = Some ERROR).
Proof.
  assert (blocked_transitions ex3 = Returns ∅) as H1
    by (vm_compute; reflexivity).
  assert (fsm_arcs ex3 ∅ = Returns ex3_fsm_arcs) as H2
    by (vm_compute; reflexivity).
  assert (("A", "C") ∈ all_state_pairs ex3) as H3
    by (vm_compute; reflexivity).
  exact (conj H1 (conj H2 (conj H3
           (proj1 (C1_classification ex3 ∅ ex3_fsm_arcs "A" "C" H1 H2 H3))))).
Defined.

(* On ex_swap the pair (A, B) has table[A,B] = C, a combination in the
   words of the specification, and the script makes it direct. *)
Lemma C1_counterexample :
  blocked_transitions ex_swap = Returns ∅ ∧
  fsm_arcs ex_swap ∅ = Returns ex_swap_fsm_arcs ∧
  ("A", "B") ∈ all_state_pairs ex_swap ∧
  ex_swap !! ("A", "B") = Some "C" ∧
  classify_spec ex_swap ("A", "B") = Some Combination ∧
  classify (all_state_pairs ex_swap) ∅ ex_swap_fsm_arcs ("A", "B") = Some Direct ∧
  tb_all_paths ex_swap_tables !! ("A", "B") = Some ["A"; "B"].
Proof. split_and!; vm_compute; reflexivity. Qed.

(** C2: fsm_arcs, the one-hop graph, is the set of the arcs
    (c, table[c,n]) for (c, n) ranging over the ordered pairs of distinct
    states that are not blocked: each pair gives the arc from c to the
    value of the table, which need not be n. *)
Theorem C2_fsm_arcs t B :
  blocked_transitions t = Returns B →
  ∃ G, fsm_arcs t B = Returns G ∧
       ∀ c s, (c, s) ∈ G ↔
              ∃ n, c ∈ all_states t ∧ n ∈ all_states t ∧ c ≠ n ∧
                   ((c, n) ∉ B) ∧ t !! (c, n) = Some s.
Proof.
  intros HB. pose proof HB as [Ht _]%blocked_transitions_Returns.
  destruct (fsm_arcs_total t B Ht) as [G HG]. exists G. split; [done|].
  intros c s. rewrite (fsm_arcs_Returns _ _ _ HG).
  split; intros (n & H); exists n; rewrite elem_of_all_state_pairs in *; tauto.
Qed.

Lemma C2_fsm_arcs_witness :
  blocked_transitions ex3 = Returns ∅ ∧
  ∃ G, fsm_arcs ex3 ∅ = Returns G ∧
       ∀ c s, (c, s) ∈ G ↔
              ∃ n, c ∈ all_states ex3 ∧ n ∈ all_states ex3 ∧ c ≠ n ∧
                   ((c, n) ∉ (∅ : gset (string * string))) ∧
                   ex3 !! (c, n) = Some s.
Proof.
  assert (blocked_transitions ex3 = Returns ∅) as H1
    by (vm_compute; reflexivity).
  exact (conj H1 (C2_fsm_arcs ex3 ∅ H1)).
Defined.

(** C3 (amended): for every pair (c, n) of distinct states the loop starts
    from [c] and appends table[last, n] until the last state is n. A
    path it returns starts at c, ends at n, follows the table, and
    contains neither ERROR nor a state twice. When the table gives ERROR
    for the last state the assert fails; when it has no entry the lookup
    fails with KeyError; and when a state has come twice before n was
    met, nothing is raised: the loop never ends. *)
Theorem C3_path_resolution t c n :
  c ≠ n →
  (∀ fuel p, walk fuel t n [c] = Returns p →
     head p = Some c ∧ last p = Some n ∧ follows_table t n p ∧
     (ERROR ∉ p) ∧ NoDup p) ∧
  (∀ q s, partial_walk t c n q → last q = Some s →
     (t !! (s, n) = Some n → n ≠ ERROR →
      ∀ fuel, length q ≤ fuel → walk fuel t n [c] = Returns (q ++ [n])) ∧
     (t !! (s, n) = Some ERROR →
      ∀ fuel, length q ≤ fuel → walk fuel t n [c] = Raises AssertionError) ∧
     (t !! (s, n) = None →
      ∀ fuel, length q ≤ fuel → walk fuel t n [c] = Raises KeyError) ∧
     (repeats q → ∀ fuel, walk fuel t n [c] = OutOfFuel)).
Proof.
  intros Hcn. split.
  - intros fuel p Hw.
    apply walk_from_start in Hw as (? & ? & ? & _ & ? & ? & _); done.
  - intros q s Hq Hl. split_and!.
    + intros Ht Hn fuel Hf. rewrite (walk_after t c n q) by done.
      by apply (walk_arrives t c n q s).
    + intros Ht fuel Hf. rewrite (walk_after t c n q) by done.
      by apply (walk_blocked t c n q s).
    + intros Ht fuel Hf. rewrite (walk_after t c n q) by done.
      by apply (walk_missing t c n q s).
    + intros Hrep. by apply (walk_never_ends t c n q).
Qed.

Lemma C3_path_resolution_witness :
  "A" ≠ "C" ∧
  walk 10 ex3 "C" ["A"] = Returns ["A"; "B"; "C"] ∧
  head ["A"; "B"; "C"] = Some "A" ∧ last ["A"; "B"; "C"] = Some "C" ∧
  follows_table ex3 "C" ["A"; "B"; "C"] ∧
  (ERROR ∉ ["A"; "B"; "C"]) ∧ NoDup ["A"; "B"; "C"].
Proof.
  assert ("A" ≠ "C") as H by discriminate.
  assert (walk 10 ex3 "C" ["A"] = Returns ["A"; "B"; "C"]) as Hw
    by (vm_compute; reflexivity).
  exact (conj H (conj Hw
           (proj1 (C3_path_resolution ex3 "A" "C" H) 10 ["A"; "B"; "C"] Hw))).
Defined.

(* On ex_cycle the pair (A, C) is walked, the walk comes back to A before
   it meets C, and no exception is ever raised. *)
Lemma C3_counterexample :
  blocked_transitions ex_cycle = Returns ∅ ∧
  fsm_arcs ex_cycle ∅ = Returns ex_cycle_fsm_arcs ∧
  ("A", "C") ∈ all_state_pairs ex_cycle ∖ ex_cycle_fsm_arcs ∖ ∅ ∧
  partial_walk ex_cycle "A" "C" ["A"; "B"; "A"] ∧
  repeats ["A"; "B"; "A"] ∧
  ¬ ∃ fuel e, walk fuel ex_cycle "C" ["A"] = Raises e.
Proof.
  split_and!.
  - vm_compute; reflexivity.
  - vm_compute; reflexivity.
  - vm_compute; reflexivity.
  - apply ex_cycle_partial_walk.
  - exists 0, 2, "A". split_and!; [lia|done|done].
  - intros (fuel & e & H).
    rewrite (walk_never_ends ex_cycle "A" "C" ["A"; "B"; "A"]) in H.
    + discriminate.
    + apply ex_cycle_partial_walk.
    + exists 0, 2, "A". split_and!; [lia|done|done].
Qed.

(** C4: for a pair (c, n) that is not blocked and has exactly one shortest
    path in the graph of the FSM arcs, a script that ends has that path,
    as a sequence, in all_paths[c, n]; when all_paths[c, n] is another
    path the assert of line 99 fails and the script dies with
    AssertionError. *)
Theorem C4_unique_shortest_path fuel t r c n p :
  resolve fuel t = Returns r →
  (c, n) ∈ all_state_pairs t → (c, n) ∉ tb_blocked_transitions r →
  shortest_between (tb_fsm_arcs r) c n p →
  (∀ q, shortest_between (tb_fsm_arcs r) c n q → q = p) →
  (∀ s, mig_state_study fuel t = Returns s →
        tb_all_paths (st_tables s) !! (c, n) = Some p) ∧
  (tb_all_paths r !! (c, n) = Some p →
   check_pair (tb_fsm_arcs r) (tb_combination_paths r) (tb_all_paths r) (c, n)
     = Returns None) ∧
  (tb_all_paths r !! (c, n) ≠ Some p →
   check_pair (tb_fsm_arcs r) (tb_combination_paths r) (tb_all_paths r) (c, n)
     = Raises AssertionError ∧
   mig_state_study fuel t = Raises AssertionError).
Proof.
  intros Hr Hp HB Hsh Huniq.
  pose proof (check_pair_unique _ _ _ Hr c n Hp HB p Hsh Huniq) as Hc.
  split_and!.
  - intros s Hs. pose proof Hs as (Hr' & _ & _)%mig_state_study_Returns.
    rewrite Hr in Hr'. injection Hr' as Heq. subst r.
    by apply (unique_shortest_is_canonical fuel t).
  - intros Ha. by rewrite decide_True in Hc.
  - intros Ha. rewrite decide_False in Hc by done. split; [done|].
    by apply (study_AssertionError _ _ _ Hr c n).
Qed.

Lemma C4_unique_shortest_path_witness :
  resolve 10 ex3 = Returns ex3_tables ∧
  ("A", "C") ∈ all_state_pairs ex3 ∧
  (("A", "C") ∉ tb_blocked_transitions ex3_tables) ∧
  shortest_between (tb_fsm_arcs ex3_tables) "A" "C" ["A"; "B"; "C"] ∧
  (∀ q, shortest_between (tb_fsm_arcs ex3_tables) "A" "C" q →
        q = ["A"; "B"; "C"]) ∧
  (∀ s, mig_state_study 10 ex3 = Returns s →
        tb_all_paths (st_tables s) !! ("A", "C") = Some ["A"; "B"; "C"]).
Proof.
  pose proof ex3_resolve as H1.
  assert (("A", "C") ∈ all_state_pairs ex3) as H2 by (vm_compute; reflexivity).
  assert (("A", "C") ∉ tb_blocked_transitions ex3_tables) as H3
    by (vm_compute; discriminate).
  pose proof (all_shortest_paths_Returns _ _ _ _ ex3_shortest_paths)
    as (_ & _ & Hspec).
  assert (shortest_between (tb_fsm_arcs ex3_tables) "A" "C" ["A"; "B"; "C"])
    as H4 by (apply Hspec; left).
  assert (∀ q, shortest_between (tb_fsm_arcs ex3_tables) "A" "C" q →
               q = ["A"; "B"; "C"]) as H5
    by (intros q Hq%Hspec; by apply list_elem_of_singleton in Hq).
  exact (conj H1 (conj H2 (conj H3 (conj H4 (conj H5
           (proj1 (C4_unique_shortest_path 10 ex3 ex3_tables "A" "C"
                     ["A"; "B"; "C"] H1 H2 H3 H4 H5))))))).
Defined.

(** C5 (amended): for every pair (c, n) that is not blocked, all_paths
    holds a path from c to n whose consecutive states are all joined by
    FSM arcs. The path has the least length among such walks when
    (c, n) is itself an FSM arc, and, in a script that ends, when the
    shortest path from c to n is the only one; when several shortest
    paths tie, the path of the table is only compared with them in the
    report and can be longer. *)
Theorem C5_canonical_path_is_walk fuel t r c n :
  resolve fuel t = Returns r →
  (c, n) ∈ all_state_pairs t → (c, n) ∉ tb_blocked_transitions r →
  ∃ p, tb_all_paths r !! (c, n) = Some p ∧
       walk_between (tb_fsm_arcs r) c n p ∧
       ((c, n) ∈ tb_fsm_arcs r → shortest_between (tb_fsm_arcs r) c n p) ∧
       (∀ s q, mig_state_study fuel t = Returns s →
               shortest_between (tb_fsm_arcs r) c n q →
               (∀ q', shortest_between (tb_fsm_arcs r) c n q' → q' = q) →
               shortest_between (tb_fsm_arcs r) c n p).
Proof.
  intros Hr Hp HB.
  destruct (canonical_path _ _ _ Hr c n Hp HB) as (p & Ha & Hw & _).
  assert (c ≠ n) as Hcn by (by apply elem_of_all_state_pairs in Hp as (_&_&?)).
  exists p. split_and!; [done|done| |].
  - intros HG. rewrite (resolved_all_paths _ _ _ Hr), decide_True in Ha
      by (by apply elem_of_difference).
    injection Ha as <-. split; [done|]. intros q (Hh & Hl & _).
    destruct q as [|a [|b q]]; simpl in *; [done|congruence|lia].
  - intros s q Hs Hq Huniq.
    pose proof Hs as (Hr' & _ & _)%mig_state_study_Returns.
    rewrite Hr in Hr'. injection Hr' as Heq. subst r.
    rewrite (unique_shortest_is_canonical fuel t s c n q) in Ha by done.
    by injection Ha as <-.
Qed.

Lemma C5_canonical_path_is_walk_witness :
  resolve 10 ex3 = Returns ex3_tables ∧
  ("A", "C") ∈ all_state_pairs ex3 ∧
  (("A", "C") ∉ tb_blocked_transitions ex3_tables) ∧
  ∃ p, tb_all_paths ex3_tables !! ("A", "C") = Some p ∧
       walk_between (tb_fsm_arcs ex3_tables) "A" "C" p ∧
       (("A", "C") ∈ tb_fsm_arcs ex3_tables →
        shortest_between (tb_fsm_arcs ex3_tables) "A" "C" p) ∧
       (∀ s q, mig_state_study 10 ex3 = Returns s →
               shortest_between (tb_fsm_arcs ex3_tables) "A" "C" q →
               (∀ q', shortest_between (tb_fsm_arcs ex3_tables) "A" "C" q' →
                      q' = q) →
               shortest_between (tb_fsm_arcs ex3_tables) "A" "C" p).
Proof.
  pose proof ex3_resolve as H1.
  assert (("A", "C") ∈ all_state_pairs ex3) as H2 by (vm_compute; reflexivity).
  assert (("A", "C") ∉ tb_blocked_transitions ex3_tables) as H3
    by (vm_compute; discriminate).
  exact (conj H1 (conj H2 (conj H3
           (C5_canonical_path_is_walk 10 ex3 ex3_tables "A" "C" H1 H2 H3)))).
Defined.

(* On ex_tie the script ends, the path of (A, Z) in all_paths has four
   states, and A, X, Z is a walk of three states along FSM arcs. *)
Lemma C5_counterexample :
  mig_state_study 10 ex_tie = Returns ex_tie_study ∧
  ("A", "Z") ∈ all_state_pairs ex_tie ∧
  (("A", "Z") ∉ tb_blocked_transitions ex_tie_tables) ∧
  tb_all_paths ex_tie_tables !! ("A", "Z") = Some ["A"; "P"; "Q"; "Z"] ∧
  walk_between (tb_fsm_arcs ex_tie_tables) "A" "Z" ["A"; "X"; "Z"] ∧
  ¬ shortest_between (tb_fsm_arcs ex_tie_tables) "A" "Z" ["A"; "P"; "Q"; "Z"].
Proof.
  assert (walk_between (tb_fsm_arcs ex_tie_tables) "A" "Z" ["A"; "X"; "Z"])
    as Hw.
  { split_and!; [done|done|].
    intros [|[|[|i]]] x y Hx Hy; simpl in Hx, Hy; try discriminate;
      injection Hx as <-; injection Hy as <-; vm_compute; reflexivity. }
  split_and!.
  - apply ex_tie_mig_state_study.
  - vm_compute; reflexivity.
  - vm_compute; discriminate.
  - vm_compute; reflexivity.
  - exact Hw.
  - intros [_ Hmin]. apply Hmin in Hw. simpl in Hw. lia.
Qed.

(** C6: for a pair (c, n) that is not blocked and has more than one
    shortest path in the graph of the FSM arcs, the check of the pair
    raises nothing and reports the pair with all its shortest paths,
    each once, marked "[selected]" exactly when it is the path of
    all_paths[c, n]; a script that ends has this entry in its report. *)
Theorem C6_ambiguity_report fuel t r c n p1 p2 :
  resolve fuel t = Returns r →
  (c, n) ∈ all_state_pairs t → (c, n) ∉ tb_blocked_transitions r →
  shortest_between (tb_fsm_arcs r) c n p1 →
  shortest_between (tb_fsm_arcs r) c n p2 → p1 ≠ p2 →
  ∃ rep,
    check_pair (tb_fsm_arcs r) (tb_combination_paths r) (tb_all_paths r) (c, n)
      = Returns (Some ((c, n), rep)) ∧
    (∀ q, q ∈ rep.*1 ↔ shortest_between (tb_fsm_arcs r) c n q) ∧
    NoDup rep.*1 ∧
    (∀ q b, (q, b) ∈ rep → (b = true ↔ tb_all_paths r !! (c, n) = Some q)) ∧
    (∀ s, mig_state_study fuel t = Returns s → ((c, n), rep) ∈ st_ambiguity s).
Proof.
  intros Hr Hp HB H1 H2 Hne.
  destruct (shortest_paths_found _ _ _ Hr c n Hp HB) as [ps Hps].
  destruct (all_shortest_paths_Returns _ _ _ _ Hps) as (Hnd & _ & Hspec).
  assert (length ps ≠ 1) as Hlen.
  { intros Hlen. destruct ps as [|x [|]]; try discriminate.
    apply Hspec, list_elem_of_singleton in H1, H2. congruence. }
  destruct (check_pair_tied _ _ _ Hr c n Hp ps Hps Hlen) as [Hc Heq].
  eexists. split; [exact Hc|].
  assert (∀ l : list (list string),
            ((λ q, (q, bool_decide (tb_combination_paths r !! (c, n) = Some q)))
               <$> l).*1 = l) as Hfst.
  { intros l. rewrite <- list_fmap_compose. apply list_fmap_id. }
  split_and!.
  - intros q. by rewrite Hfst, elem_of_sorted_paths.
  - rewrite Hfst. unfold sorted_paths. by rewrite merge_sort_Permutation.
  - intros q b (q' & [= -> ->] & _)%list_elem_of_fmap.
    by rewrite bool_decide_eq_true, Heq.
  - intros s Hs. by apply (study_ambiguity fuel t r Hr s c n).
Qed.

Lemma C6_ambiguity_report_witness :
  resolve 10 ex_tie = Returns ex_tie_tables ∧
  ("A", "Z") ∈ all_state_pairs ex_tie ∧
  (("A", "Z") ∉ tb_blocked_transitions ex_tie_tables) ∧
  shortest_between (tb_fsm_arcs ex_tie_tables) "A" "Z" ["A"; "X"; "Z"] ∧
  shortest_between (tb_fsm_arcs ex_tie_tables) "A" "Z" ["A"; "Y"; "Z"] ∧
  ["A"; "X"; "Z"] ≠ ["A"; "Y"; "Z"] ∧
  ∃ rep,
    check_pair (tb_fsm_arcs ex_tie_tables) (tb_combination_paths ex_tie_tables)
      (tb_all_paths ex_tie_tables) ("A", "Z")
      = Returns (Some (("A", "Z"), rep)) ∧
    (∀ q, q ∈ rep.*1 ↔ shortest_between (tb_fsm_arcs ex_tie_tables) "A" "Z" q) ∧
    NoDup rep.*1 ∧
    (∀ q b, (q, b) ∈ rep →
            (b = true ↔ tb_all_paths ex_tie_tables !! ("A", "Z") = Some q)) ∧
    (∀ s, mig_state_study 10 ex_tie = Returns s →
          (("A", "Z"), rep) ∈ st_ambiguity s).
Proof.
  pose proof ex_tie_resolve as H1.
  assert (("A", "Z") ∈ all_state_pairs ex_tie) as H2
    by (vm_compute; reflexivity).
  assert (("A", "Z") ∉ tb_blocked_transitions ex_tie_tables) as H3
    by (vm_compute; discriminate).
  pose proof (all_shortest_paths_Returns _ _ _ _ ex_tie_shortest_paths)
    as (_ & _ & Hspec).
  assert (shortest_between (tb_fsm_arcs ex_tie_tables) "A" "Z" ["A"; "X"; "Z"])
    as H4 by (apply Hspec; right; left).
  assert (shortest_between (tb_fsm_arcs ex_tie_tables) "A" "Z" ["A"; "Y"; "Z"])
    as H5 by (apply Hspec; left).
  assert (["A"; "X"; "Z"] ≠ ["A"; "Y"; "Z"]) as H6 by discriminate.
  exact (conj H1 (conj H2 (conj H3 (conj H4 (conj H5 (conj H6
           (C6_ambiguity_report 10 ex_tie ex_tie_tables "A" "Z"
              ["A"; "X"; "Z"] ["A"; "Y"; "Z"] H1 H2 H3 H4 H5 H6))))))).
Defined.

(** C7: for every path of all_paths with at least three states, which
    is a path of combination_paths, and every state of it other than
    its first and its last, the unwind study prints one line for the
    state: the path of all_paths from that state back to the first state
    of the path when all_paths has one, and the line "-> ERROR" when it
    has none. The study is a function of the two dictionaries: it raises
    nothing, and the script that has passed the shortest path check ends
    with the tables it had. *)
Theorem C7_error_unwind fuel t r c n path i err :
  resolve fuel t = Returns r →
  tb_all_paths r !! (c, n) = Some path → 3 ≤ length path →
  path !! i = Some err → 0 < i → S i < length path →
  tb_combination_paths r !! (c, n) = Some path ∧
  head path = Some c ∧ last path = Some n ∧
  (∃ lines,
     (path, lines) ∈ error_unwind_study (tb_combination_paths r) (tb_all_paths r) ∧
     length lines = length path - 2 ∧
     lines !! (i - 1) =
       Some (err, match tb_all_paths r !! (err, c) with
                  | None => ToError
                  | Some err_path => PathBack (reverse err_path)
                  end)) ∧
  (∀ amb,
     shortest_path_ambiguity (tb_fsm_arcs r) (tb_combination_paths r)
       (tb_all_paths r)
       (sorted_arcs (elements (all_state_pairs t ∖ tb_blocked_transitions r)))
     = Returns amb →
     mig_state_study fuel t =
       Returns (Study r amb (error_unwind_study (tb_combination_paths r)
                                                (tb_all_paths r)))).
Proof.
  intros Hr Ha H3 Hi H0 Hlen.
  pose proof (all_paths_multi_hop _ _ _ Hr c n path Ha H3) as Hc.
  pose proof (combination_path_walk _ _ _ Hr c n path Hc)
    as ((Hh & Hl & _) & _).
  split_and!; [done|done|done| |].
  - exists (unwind_of_path (tb_all_paths r) path). split_and!.
    + by apply (elem_of_error_unwind_study _ _ c n).
    + apply unwind_of_path_length.
    + by apply unwind_of_path_lookup.
  - intros amb Ha'. unfold mig_state_study. rewrite Hr. simpl. by rewrite Ha'.
Qed.

Lemma C7_error_unwind_witness :
  resolve 10 ex3 = Returns ex3_tables ∧
  tb_all_paths ex3_tables !! ("A", "C") = Some ["A"; "B"; "C"] ∧
  3 ≤ length ["A"; "B"; "C"] ∧
  ["A"; "B"; "C"] !! 1 = Some "B" ∧ 0 < 1 ∧ 2 < length ["A"; "B"; "C"] ∧
  tb_all_paths ex3_tables !! ("B", "A") = Some ["B"; "A"] ∧
  ∃ lines,
    (["A"; "B"; "C"], lines)
      ∈ error_unwind_study (tb_combination_paths ex3_tables)
                           (tb_all_paths ex3_tables) ∧
    length lines = length ["A"; "B"; "C"] - 2 ∧
    lines !! (1 - 1) =
      Some ("B", match tb_all_paths ex3_tables !! ("B", "A") with
                 | None => ToError
                 | Some err_path => PathBack (reverse err_path)
                 end).
Proof.
  pose proof ex3_resolve as H1.
  assert (tb_all_paths ex3_tables !! ("A", "C") = Some ["A"; "B"; "C"])
    as H2 by (vm_compute; reflexivity).
  assert (3 ≤ length ["A"; "B"; "C"]) as H3 by (simpl; lia).
  assert (["A"; "B"; "C"] !! 1 = Some "B") as H4 by reflexivity.
  assert (0 < 1) as H5 by lia.
  assert (2 < length ["A"; "B"; "C"]) as H6 by (simpl; lia).
  assert (tb_all_paths ex3_tables !! ("B", "A") = Some ["B"; "A"]) as H7
    by (vm_compute; reflexivity).
  exact (conj H1 (conj H2 (conj H3 (conj H4 (conj H5 (conj H6 (conj H7
           (proj1 (proj2 (proj2 (proj2
              (C7_error_unwind 10 ex3 ex3_tables "A" "C"
                 ["A"; "B"; "C"] 1 "B" H1 H2 H3 H4 H5 H6)))))))))))).
Defined.




(** C9: a pair (c, n) that is not blocked and is itself one of the FSM
    arcs, even when the arc comes from another pair and table[c,n] is not
    n, gets the path [c, n] in all_paths, is not among the pairs the
    loop of line 56 walks, and has no entry in combination_paths. *)
Theorem C9_arc_pairs_are_direct fuel t r c n :
  resolve fuel t = Returns r →
  (c, n) ∈ all_state_pairs t → (c, n) ∉ tb_blocked_transitions r →
  (c, n) ∈ tb_fsm_arcs r →
  tb_all_paths r !! (c, n) = Some [c; n] ∧
  ((c, n) ∉ elements (all_state_pairs t ∖ tb_fsm_arcs r
                      ∖ tb_blocked_transitions r)) ∧
  tb_combination_paths r !! (c, n) = None.
Proof.
  intros Hr Hp HB HG. split_and!.
  - rewrite (resolved_all_paths _ _ _ Hr), decide_True; [done|].
    by apply elem_of_difference.
  - rewrite elem_of_elements, !elem_of_difference. tauto.
  - destruct (tb_combination_paths r !! (c, n)) as [p|] eqn:Hc; [|done].
    apply (resolved_combination_paths _ _ _ Hr) in Hc as (_ & ? & _). done.
Qed.

Lemma C9_arc_pairs_are_direct_witness :
  resolve 10 ex_swap = Returns ex_swap_tables ∧
  ("A", "B") ∈ all_state_pairs ex_swap ∧
  (("A", "B") ∉ tb_blocked_transitions ex_swap_tables) ∧
  ("A", "B") ∈ tb_fsm_arcs ex_swap_tables ∧
  ex_swap !! ("A", "B") = Some "C" ∧
  tb_all_paths ex_swap_tables !! ("A", "B") = Some ["A"; "B"] ∧
  (("A", "B") ∉ elements (all_state_pairs ex_swap ∖ tb_fsm_arcs ex_swap_tables
                          ∖ tb_blocked_transitions ex_swap_tables)) ∧
  tb_combination_paths ex_swap_tables !! ("A", "B") = None.
Proof.
  pose proof ex_swap_resolve as H1.
  assert (("A", "B") ∈ all_state_pairs ex_swap) as H2
    by (vm_compute; reflexivity).
  assert (("A", "B") ∉ tb_blocked_transitions ex_swap_tables) as H3
    by (vm_compute; discriminate).
  assert (("A", "B") ∈ tb_fsm_arcs ex_swap_tables) as H4
    by (vm_compute; reflexivity).
  assert (ex_swap !! ("A", "B") = Some "C") as H5 by (vm_compute; reflexivity).
  exact (conj H1 (conj H2 (conj H3 (conj H4 (conj H5
           (C9_arc_pairs_are_direct 10 ex_swap ex_swap_tables "A" "B"
              H1 H2 H3 H4)))))).
Defined.

(** C10: the extra arcs are the candidate arcs that are not FSM arcs, the
    missing arcs are the FSM arcs that are not candidate arcs, and the
    two sets are both empty exactly when the candidate set is the set
    of FSM arcs. *)
Theorem C10_conformance (mlx5_arcs fsm : gset (string * string)) :
  (∀ e, e ∈ mlx5_extra_arcs mlx5_arcs fsm ↔ e ∈ mlx5_arcs ∧ e ∉ fsm) ∧
  (∀ e, e ∈ mlx5_missing_arcs mlx5_arcs fsm ↔ e ∈ fsm ∧ e ∉ mlx5_arcs) ∧
  (mlx5_extra_arcs mlx5_arcs fsm ∪ mlx5_missing_arcs mlx5_arcs fsm = ∅ ↔
   mlx5_arcs = fsm).
Proof.
  unfold mlx5_extra_arcs, mlx5_missing_arcs. split_and!.
  - intros e. apply elem_of_difference.
  - intros e. apply elem_of_difference.
  - split.
    + intros H. apply set_eq. intros e.
      assert (e ∉ mlx5_arcs ∖ fsm ∪ fsm ∖ mlx5_arcs) as He
        by (rewrite H; apply not_elem_of_empty).
      rewrite elem_of_union, !elem_of_difference in He.
      destruct (decide (e ∈ mlx5_arcs)), (decide (e ∈ fsm)); tauto.
    + intros ->. apply set_eq. intros e.
      rewrite elem_of_union, !elem_of_difference, elem_of_empty. tauto.
Qed.

(* ===================================================================== *)
(* Further properties of the paths                                       *)
(* ===================================================================== *)

Lemma walk_states fuel t c n p :
  (c, n) ∈ all_state_pairs t → walk fuel t n [c] = Returns p →
  ∀ x, x ∈ p → x ∈ all_states t.
Proof.
  intros (Hc & Hn & Hcn)%elem_of_all_state_pairs Hw.
  apply walk_from_start in Hw as (_ & Hl & Hft & _); [|done].
  intros x [i Hi]%list_elem_of_lookup_1.
  destruct (p !! S i) as [y|] eqn:Hy.
  - apply elem_of_all_states. exists n. rewrite (Hft _ _ _ Hi Hy). eauto.
  - apply lookup_ge_None in Hy. apply lookup_lt_Some in Hi as Hlt.
    rewrite last_lookup in Hl. replace (pred (length p)) with i in Hl by lia.
    congruence.
Qed.

Lemma NoDup_states_length (t : gmap (string * string) string) (p : list string) :
  NoDup p → (∀ x, x ∈ p → x ∈ all_states t) → length p ≤ size (all_states t).
Proof.
  intros Hnd Hin. unfold size, set_size. simpl.
  apply submseteq_length, NoDup_submseteq; [done|].
  intros x Hx. by apply elem_of_elements, Hin.
Qed.

(* The loop of a pair that ends has run fewer times than the path it
   returns has states. *)
Lemma walk_least_fuel fuel fuel' t c n p :
  c ≠ n → walk fuel t n [c] = Returns p → length p - 1 ≤ fuel' →
  walk fuel' t n [c] = Returns p.
Proof.
  intros Hcn Hw Hf.
  pose proof (walk_from_start _ _ _ _ _ Hcn Hw)
    as (Hh & Hl & Hft & Hne & He & Hnd & Hlen).
  destruct (decide (fuel' ≤ fuel)) as [Hle|Hle].
  2:{ rewrite (walk_fuel_mono t n fuel fuel'); [done|lia|congruence]. }
  destruct p as [|x p _] using rev_ind; [done|].
  rewrite last_snoc in Hl. injection Hl as ->.
  rewrite length_app in Hf, Hlen. simpl in Hf, Hlen.
  assert (partial_walk t c n p) as Hp.
  { split_and!.
    - destruct p; [simpl in Hlen; lia|done].
    - intros i a b Ha Hb. apply (Hft i); by apply lookup_app_l_Some.
    - intros [i Hi]%list_elem_of_lookup_1. apply (Hne i n).
      + by apply lookup_app_l_Some.
      + apply lookup_lt_Some in Hi. rewrite length_app. simpl. lia.
      + done.
    - intros Hin. apply He, elem_of_app. by left. }
  destruct (partial_walk_last _ _ _ _ Hp) as (s & Hs & _ & _).
  assert (t !! (s, n) = Some n) as Ht.
  { apply (Hft (pred (length p))).
    - rewrite lookup_app_l by lia. by rewrite <- last_lookup.
    - rewrite lookup_app_r by lia.
      by replace (S (pred (length p)) - length p) with 0 by lia. }
  assert (n ≠ ERROR) as Hn.
  { intros ->. apply He, elem_of_app. right. left. }
  rewrite (walk_after t c n p fuel' Hp) by lia.
  by apply (walk_arrives t c n p s).
Qed.

Lemma combination_loop_least_fuel fuel fuel' t l acc comb :
  (∀ c n, (c, n) ∈ l → (c, n) ∈ all_state_pairs t) →
  size (all_states t) - 1 ≤ fuel' →
  combination_loop fuel t l acc = Returns comb →
  combination_loop fuel' t l acc = Returns comb.
Proof.
  intros Hl Hf. revert acc. induction l as [|[c n] l IH]; simpl; intros acc H;
    [done|].
  destruct (walk fuel t n [c]) as [p| |] eqn:Hw; simpl in H; try discriminate.
  assert ((c, n) ∈ all_state_pairs t) as Hp by (apply Hl; left).
  assert (c ≠ n) as Hcn by (by apply elem_of_all_state_pairs in Hp as (_&_&?)).
  rewrite (walk_least_fuel fuel fuel' t c n p); [| done | done |].
  - simpl. apply IH; [|done]. intros; apply Hl; by right.
  - pose proof (walk_from_start _ _ _ _ _ Hcn Hw) as (_&_&_&_&_&Hnd&_).
    pose proof (NoDup_states_length t p Hnd (walk_states _ _ _ _ _ Hp Hw)). lia.
Qed.

(** X1: in a run that reaches line 66, the path of every pair of distinct
    states has at most as many states as the table has, all of them
    states of the table; so the while loop of a pair runs fewer times
    than there are states, and that many rounds are enough for the
    whole of lines 42-66. *)
Theorem X1_path_length_bound fuel t r c n p :
  resolve fuel t = Returns r →
  (c, n) ∈ all_state_pairs t → tb_all_paths r !! (c, n) = Some p →
  (∀ x, x ∈ p → x ∈ all_states t) ∧
  length p ≤ size (all_states t) ∧
  resolve (size (all_states t) - 1) t = Returns r.
Proof.
  intros Hr Hp Ha.
  pose proof Hp as (Hc & Hn & Hcn)%elem_of_all_state_pairs.
  assert (∀ x, x ∈ p → x ∈ all_states t) as Hin.
  { rewrite (resolved_all_paths _ _ _ Hr) in Ha. destruct (decide _).
    - injection Ha as <-. intros x. rewrite !elem_of_cons, elem_of_nil.
      intros [->|[->|[]]]; done.
    - apply (resolved_combination_paths _ _ _ Hr) in Ha as (_ & _ & _ & Hw).
      by apply (walk_states fuel t c n). }
  assert (NoDup p) as Hnd.
  { rewrite (resolved_all_paths _ _ _ Hr) in Ha. destruct (decide _).
    - injection Ha as <-. apply NoDup_cons.
      split; [by intros ->%list_elem_of_singleton|apply NoDup_singleton].
    - by apply (combination_path_walk _ _ _ Hr) in Ha as (_ & _ & ? & _). }
  split_and!; [done|by apply NoDup_states_length|].
  destruct (resolve_Returns _ _ _ Hr) as (Ht & HB & HG & HC & Hall).
  unfold resolve. rewrite HB. simpl. rewrite HG. simpl.
  rewrite (completeness_assert_passes _ _ HB). simpl.
  rewrite (combination_loop_least_fuel fuel _ t _ ∅ (tb_combination_paths r));
    [simpl; by rewrite <- Hall; destruct r| |done|done].
  intros c' n' Hin'%elem_of_elements.
  by apply elem_of_difference in Hin' as [[? _]%elem_of_difference _].
Qed.

Lemma all_paths_None fuel t r c n :
  resolve fuel t = Returns r → (c, n) ∈ all_state_pairs t →
  tb_all_paths r !! (c, n) = None ↔ t !! (c, n) = Some ERROR.
Proof.
  intros Hr Hp. split.
  - intros Hnone.
    destruct (decide ((c, n) ∈ tb_blocked_transitions r)) as [HB|HB].
    + by apply (resolved_blocked _ _ _ Hr) in HB as [_ ?].
    + destruct (canonical_path _ _ _ Hr c n Hp HB) as (p & Hp' & _). congruence.
  - intros Ht. assert ((c, n) ∈ tb_blocked_transitions r) as HB
      by (by apply (resolved_blocked _ _ _ Hr)).
    rewrite (resolved_all_paths _ _ _ Hr), decide_False
      by (by intros [_ ?]%elem_of_difference).
    destruct (tb_combination_paths r !! (c, n)) eqn:Hc; [|done].
    by apply (resolved_combination_paths _ _ _ Hr) in Hc as (_ & _ & ? & _).
Qed.

(** X2: in a run that reaches line 66, all_paths has a path for a pair of
    distinct states exactly when the pair is not blocked, that is when
    table[c,n] is not ERROR; and combination_paths has one exactly when
    the pair is neither blocked nor an FSM arc. *)
Theorem X2_paths_defined fuel t r c n :
  resolve fuel t = Returns r → (c, n) ∈ all_state_pairs t →
  (tb_all_paths r !! (c, n) = None ↔ t !! (c, n) = Some ERROR) ∧
  (is_Some (tb_all_paths r !! (c, n)) ↔ (c, n) ∉ tb_blocked_transitions r) ∧
  (is_Some (tb_combination_paths r !! (c, n)) ↔
     ((c, n) ∉ tb_blocked_transitions r) ∧ ((c, n) ∉ tb_fsm_arcs r)).
Proof.
  intros Hr Hp. pose proof (all_paths_None _ _ _ _ _ Hr Hp) as Hnone.
  split_and!; [done| |].
  - rewrite <- not_eq_None_Some, Hnone, (resolved_blocked _ _ _ Hr). tauto.
  - split.
    + intros [p (_ & ? & ? & _)%(resolved_combination_paths _ _ _ Hr)]. done.
    + intros [HB HG]. by apply (resolved_walked _ _ _ Hr).
Qed.

Lemma X2_paths_defined_witness :
  resolve 10 ex_tie = Returns ex_tie_tables ∧
  ("X", "A") ∈ all_state_pairs ex_tie ∧
  ex_tie !! ("X", "A") = Some ERROR ∧
  tb_all_paths ex_tie_tables !! ("X", "A") = None.
Proof.
  pose proof ex_tie_resolve as H1.
  assert (("X", "A") ∈ all_state_pairs ex_tie) as H2
    by (vm_compute; reflexivity).
  assert (ex_tie !! ("X", "A") = Some ERROR) as H3 by (vm_compute; reflexivity).
  exact (conj H1 (conj H2 (conj H3
    (proj2 (proj1 (X2_paths_defined 10 ex_tie ex_tie_tables "X" "A" H1 H2))
       H3)))).
Defined.

Lemma X1_path_length_bound_witness :
  resolve 10 ex_tie = Returns ex_tie_tables ∧
  ("A", "Z") ∈ all_state_pairs ex_tie ∧
  tb_all_paths ex_tie_tables !! ("A", "Z") = Some ["A"; "P"; "Q"; "Z"] ∧
  length ["A"; "P"; "Q"; "Z"] ≤ size (all_states ex_tie) ∧
  resolve (size (all_states ex_tie) - 1) ex_tie = Returns ex_tie_tables.
Proof.
  pose proof ex_tie_resolve as H1.
  assert (("A", "Z") ∈ all_state_pairs ex_tie) as H2
    by (vm_compute; reflexivity).
  assert (tb_all_paths ex_tie_tables !! ("A", "Z") = Some ["A"; "P"; "Q"; "Z"])
    as H3 by (vm_compute; reflexivity).
  exact (conj H1 (conj H2 (conj H3
    (proj2 (X1_path_length_bound 10 ex_tie ex_tie_tables "A" "Z"
              ["A"; "P"; "Q"; "Z"] H1 H2 H3))))).
Defined.

(* An intermediate state of a combination path and the first state of the
   path are two distinct states of the table. *)
Lemma intermediate_pair fuel t r c n path i err :
  resolve fuel t = Returns r →
  tb_combination_paths r !! (c, n) = Some path →
  path !! i = Some err → 0 < i → S i < length path →
  (err, c) ∈ all_state_pairs t ∧ (err, n) ∈ all_state_pairs t ∧
  t !! (err, n) = path !! S i ∧ head path = Some c.
Proof.
  intros Hr Hc Hi H0 Hlen.
  pose proof (combination_path_walk _ _ _ Hr c n path Hc)
    as ((Hh & Hl & _) & Hft & Hnd & _).
  pose proof Hc as (Hp & _ & _ & Hw)%(resolved_combination_paths _ _ _ Hr).
  pose proof Hp as (Hcs & Hns & Hcn)%elem_of_all_state_pairs.
  assert (err ∈ all_states t) as Herr.
  { apply (walk_states fuel t c n path Hp Hw). by eapply list_elem_of_lookup_2. }
  destruct (lookup_lt_is_Some_2 path (S i) Hlen) as [y Hy].
  rewrite head_lookup in Hh. rewrite last_lookup in Hl.
  split_and!; [| |by rewrite Hy; eapply Hft|by rewrite head_lookup].
  - apply elem_of_all_state_pairs. split_and!; [done|done|].
    intros ->. apply (NoDup_lookup _ _ _ _ Hnd Hi) in Hh. lia.
  - apply elem_of_all_state_pairs. split_and!; [done|done|].
    intros ->. apply (NoDup_lookup _ _ _ _ Hnd Hi) in Hl. lia.
Qed.

(** X3: for an intermediate state err of a combination path that starts at
    c, the unwind study prints "err -> ERROR" exactly when
    table[err, c] is ERROR; otherwise it prints, reversed, a path from err
    back to c along FSM arcs. *)
Theorem X3_unwind_to_error fuel t r c n path i err :
  resolve fuel t = Returns r →
  tb_combination_paths r !! (c, n) = Some path →
  path !! i = Some err → 0 < i → S i < length path →
  (unwind_of_path (tb_all_paths r) path !! (i - 1) = Some (err, ToError) ↔
     t !! (err, c) = Some ERROR) ∧
  (t !! (err, c) ≠ Some ERROR →
     ∃ q, unwind_of_path (tb_all_paths r) path !! (i - 1)
            = Some (err, PathBack (reverse q)) ∧
          walk_between (tb_fsm_arcs r) err c q).
Proof.
  intros Hr Hc Hi H0 Hlen.
  destruct (intermediate_pair _ _ _ _ _ _ _ _ Hr Hc Hi H0 Hlen)
    as (Hp & _ & _ & Hh).
  rewrite (unwind_of_path_lookup _ c path i err Hh Hi H0 Hlen).
  rewrite <- (all_paths_None _ _ _ _ _ Hr Hp). split.
  - destruct (tb_all_paths r !! (err, c)); split; congruence.
  - intros Hne.
    assert ((err, c) ∉ tb_blocked_transitions r) as HB.
    { intros [_ HB]%(resolved_blocked _ _ _ Hr).
      by apply (all_paths_None _ _ _ _ _ Hr Hp) in HB. }
    destruct (canonical_path _ _ _ Hr err c Hp HB) as (q & -> & Hq & _). eauto.
Qed.

Lemma X3_unwind_to_error_witness :
  resolve 10 ex_tie = Returns ex_tie_tables ∧
  tb_combination_paths ex_tie_tables !! ("A", "Z") = Some ["A"; "P"; "Q"; "Z"] ∧
  ex_tie !! ("Q", "A") = Some ERROR ∧
  unwind_of_path (tb_all_paths ex_tie_tables) ["A"; "P"; "Q"; "Z"] !! (2 - 1)
    = Some ("Q", ToError).
Proof.
  pose proof ex_tie_resolve as H1.
  assert (tb_combination_paths ex_tie_tables !! ("A", "Z")
          = Some ["A"; "P"; "Q"; "Z"]) as H2 by (vm_compute; reflexivity).
  assert (["A"; "P"; "Q"; "Z"] !! 2 = Some "Q") as H3 by reflexivity.
  assert (0 < 2) as H4 by lia.
  assert (3 < length ["A"; "P"; "Q"; "Z"]) as H5 by (simpl; lia).
  assert (ex_tie !! ("Q", "A") = Some ERROR) as H6 by (vm_compute; reflexivity).
  exact (conj H1 (conj H2 (conj H6
    (proj2 (proj1 (X3_unwind_to_error 10 ex_tie ex_tie_tables "A" "Z"
                     ["A"; "P"; "Q"; "Z"] 2 "Q" H1 H2 H3 H4 H5)) H6)))).
Defined.

(* Two paths from the same state that follow the table to [n] and stop
   at their first [n] are the same path. *)
Lemma follows_table_unique t n p q :
  head p = head q → follows_table t n p → follows_table t n q →
  last p = Some n → last q = Some n →
  (∀ i x, p !! i = Some x → S i < length p → x ≠ n) →
  (∀ i x, q !! i = Some x → S i < length q → x ≠ n) →
  p = q.
Proof.
  revert q. induction p as [|a p IH]; intros q Hh Hp Hq Hlp Hlq Hnp Hnq;
    [done|].
  destruct q as [|b q]; [done|]. simpl in Hh. injection Hh as <-.
  f_equal. destruct p as [|a' p], q as [|b' q]; [done| | |].
  - simpl in Hlp. injection Hlp as ->. by destruct (Hnq 0 n eq_refl ltac:(simpl; lia)).
  - simpl in Hlq. injection Hlq as ->. by destruct (Hnp 0 n eq_refl ltac:(simpl; lia)).
  - apply IH.
    + simpl. pose proof (Hp 0 a a' eq_refl eq_refl).
      pose proof (Hq 0 a b' eq_refl eq_refl). congruence.
    + intros i x y Hx Hy. by apply (Hp (S i)).
    + intros i x y Hx Hy. by apply (Hq (S i)).
    + by rewrite last_cons_cons in Hlp.
    + by rewrite last_cons_cons in Hlq.
    + intros i x Hx Hi. apply (Hnp (S i)); [done|simpl in *; lia].
    + intros i x Hx Hi. apply (Hnq (S i)); [done|simpl in *; lia].
Qed.

(** X4: the combination paths are closed under taking the rest of the
    way: for an intermediate state x of the combination path of (c, n),
    the pair (x, n) is not blocked, and unless (x, n) is itself an FSM
    arc its combination path is the part of the path of (c, n) that
    starts at x. *)
Theorem X4_rest_of_path fuel t r c n path i x :
  resolve fuel t = Returns r →
  tb_combination_paths r !! (c, n) = Some path →
  path !! i = Some x → 0 < i → S i < length path →
  (x, n) ∈ all_state_pairs t ∧ ((x, n) ∉ tb_blocked_transitions r) ∧
  ((x, n) ∉ tb_fsm_arcs r →
     tb_combination_paths r !! (x, n) = Some (drop i path)) ∧
  ((x, n) ∈ tb_fsm_arcs r → tb_all_paths r !! (x, n) = Some [x; n]).
Proof.
  intros Hr Hc Hi H0 Hlen.
  destruct (intermediate_pair _ _ _ _ _ _ _ _ Hr Hc Hi H0 Hlen)
    as (_ & Hp & Ht & _).
  pose proof (combination_path_walk _ _ _ Hr c n path Hc)
    as ((_ & Hl & _) & Hft & _ & He & _).
  pose proof Hc as (Hpc & _ & _ & Hw)%(resolved_combination_paths _ _ _ Hr).
  assert (c ≠ n) as Hcn by (by apply elem_of_all_state_pairs in Hpc as (_&_&?)).
  pose proof (walk_from_start _ _ _ _ _ Hcn Hw) as (_ & _ & _ & Hne & _).
  destruct (lookup_lt_is_Some_2 path (S i) Hlen) as [y Hy].
  assert ((x, n) ∉ tb_blocked_transitions r) as HB.
  { intros [_ HB]%(resolved_blocked _ _ _ Hr). rewrite Ht, Hy in HB.
    injection HB as ->. apply He. by eapply list_elem_of_lookup_2. }
  split_and!; [done|done| |].
  - intros HG. destruct (resolved_walked _ _ _ Hr x n Hp HG HB) as [q Hq].
    rewrite Hq. f_equal.
    pose proof Hq as (_ & _ & _ & Hwq)%(resolved_combination_paths _ _ _ Hr).
    assert (x ≠ n) as Hxn by (by apply elem_of_all_state_pairs in Hp as (_&_&?)).
    apply walk_from_start in Hwq as (Hhq & Hlq & Hftq & Hneq & _); [|done].
    apply (follows_table_unique t n); try done.
    + by rewrite (head_lookup (drop i path)), lookup_drop, Nat.add_0_r, Hi.
    + intros j a b Ha Hb. rewrite lookup_drop in Ha, Hb.
      apply (Hft (i + j)); [done|]. by rewrite Nat.add_succ_r in Hb.
    + rewrite last_lookup, lookup_drop, length_drop.
      replace (i + pred (length path - i)) with (pred (length path)) by lia.
      by rewrite <- last_lookup.
    + intros j a Ha Hj. rewrite lookup_drop in Ha. rewrite length_drop in Hj.
      apply (Hne (i + j)); [done|lia].
  - intros HG. rewrite (resolved_all_paths _ _ _ Hr), decide_True; [done|].
    by apply elem_of_difference.
Qed.

Lemma X4_rest_of_path_witness :
  resolve 10 ex_tie = Returns ex_tie_tables ∧
  tb_combination_paths ex_tie_tables !! ("A", "Z") = Some ["A"; "P"; "Q"; "Z"] ∧
  (("P", "Z") ∉ tb_fsm_arcs ex_tie_tables) ∧
  tb_combination_paths ex_tie_tables !! ("P", "Z")
    = Some (drop 1 ["A"; "P"; "Q"; "Z"]).
Proof.
  pose proof ex_tie_resolve as H1.
  assert (tb_combination_paths ex_tie_tables !! ("A", "Z")
          = Some ["A"; "P"; "Q"; "Z"]) as H2 by (vm_compute; reflexivity).
  assert (["A"; "P"; "Q"; "Z"] !! 1 = Some "P") as H3 by reflexivity.
  assert (0 < 1) as H4 by lia.
  assert (2 < length ["A"; "P"; "Q"; "Z"]) as H5 by (simpl; lia).
  assert (("P", "Z") ∉ tb_fsm_arcs ex_tie_tables) as H6
    by (vm_compute; discriminate).
  exact (conj H1 (conj H2 (conj H6
    (proj1 (proj2 (proj2 (X4_rest_of_path 10 ex_tie ex_tie_tables "A" "Z"
                            ["A"; "P"; "Q"; "Z"] 1 "P" H1 H2 H3 H4 H5))) H6)))).
Defined.

(* ===================================================================== *)
(* What the script can die of                                            *)
(* ===================================================================== *)

Lemma comprehension_Raises_inv {A B} (f : A → outcome (option B)) l e :
  comprehension f l = Raises e → ∃ x, x ∈ l ∧ f x = Raises e.
Proof.
  induction l as [|x l IH]; simpl; intros H; [discriminate|].
  destruct (f x) as [r| |] eqn:Hfx; simpl in H; [|injection H as ->|done].
  - destruct (comprehension f l) as [rs| |]; simpl in H; try discriminate.
    destruct IH as (x' & ? & ?); [done|]. exists x'. split; [by right|done].
  - exists x. split; [left|done].
Qed.

Lemma comprehension_OutOfFuel_inv {A B} (f : A → outcome (option B)) l :
  comprehension f l = OutOfFuel → ∃ x, x ∈ l ∧ f x = OutOfFuel.
Proof.
  induction l as [|x l IH]; simpl; intros H; [discriminate|].
  destruct (f x) as [r| |] eqn:Hfx; simpl in H; [|done|].
  - destruct (comprehension f l) as [rs| |]; simpl in H; try discriminate.
    destruct IH as (x' & ? & ?); [done|]. exists x'. split; [by right|done].
  - exists x. split; [left|done].
Qed.

(* After line 66 the script ends or fails an assert of line 99. *)
Lemma study_outcome fuel t r :
  resolve fuel t = Returns r →
  (∃ s, mig_state_study fuel t = Returns s ∧ st_tables s = r) ∨
  mig_state_study fuel t = Raises AssertionError.
Proof.
  intros Hr. unfold mig_state_study. rewrite Hr. simpl.
  destruct (shortest_path_ambiguity _ _ _ _) as [amb|e|] eqn:Ha; simpl.
  - left. eauto.
  - right. apply comprehension_Raises_inv in Ha
      as ([c n] & [Hp HB]%(checked_pairs t r) & Hc).
    destruct (check_pair_outcome _ _ _ Hr c n Hp HB) as [[o Ho]|Ho];
      congruence.
  - apply comprehension_OutOfFuel_inv in Ha
      as ([c n] & [Hp HB]%(checked_pairs t r) & Hc).
    destruct (check_pair_outcome _ _ _ Hr c n Hp HB) as [[o Ho]|Ho];
      congruence.
Qed.

(** X5: once lines 42-66 have run, the rest of the script cannot fail but
    by the assert of line 99: it ends, or it dies with AssertionError,
    and it dies exactly when some pair that is not blocked has a single
    shortest path along the FSM arcs that is not its path in all_paths.
    networkx raises nothing: every pair that is checked has a path. *)
Theorem X5_after_resolve fuel t r :
  resolve fuel t = Returns r →
  ((∃ s, mig_state_study fuel t = Returns s ∧ st_tables s = r) ∨
   mig_state_study fuel t = Raises AssertionError) ∧
  (mig_state_study fuel t = Raises AssertionError ↔
   ∃ c n p, (c, n) ∈ all_state_pairs t ∧
            ((c, n) ∉ tb_blocked_transitions r) ∧
            shortest_between (tb_fsm_arcs r) c n p ∧
            (∀ q, shortest_between (tb_fsm_arcs r) c n q → q = p) ∧
            tb_all_paths r !! (c, n) ≠ Some p).
Proof.
  intros Hr.
  assert (mig_state_study fuel t = Raises AssertionError ↔
          ∃ c n, (c, n) ∈ all_state_pairs t ∧
                 ((c, n) ∉ tb_blocked_transitions r) ∧
                 check_pair (tb_fsm_arcs r) (tb_combination_paths r)
                   (tb_all_paths r) (c, n) = Raises AssertionError) as Hiff.
  { split.
    - unfold mig_state_study. rewrite Hr. simpl. intros H.
      destruct (shortest_path_ambiguity _ _ _ _) as [amb| |] eqn:Ha;
        simpl in H; try discriminate. injection H as ->.
      apply comprehension_Raises_inv in Ha
        as ([c n] & [? ?]%(checked_pairs t r) & ?). eauto.
    - intros (c & n & Hp & HB & Hc).
      by apply (study_AssertionError _ _ _ Hr c n). }
  split.
  - by apply study_outcome.
  - rewrite Hiff. split.
    + intros (c & n & Hp & HB & Hc). exists c, n.
      destruct (shortest_paths_found _ _ _ Hr c n Hp HB) as [ps Hps].
      destruct (all_shortest_paths_Returns _ _ _ _ Hps) as (Hnd & Hne & Hspec).
      destruct (decide (length ps = 1)) as [Hlen|Hlen].
      * destruct ps as [|p [|]]; try discriminate. exists p.
        assert (shortest_between (tb_fsm_arcs r) c n p) as Hs
          by (apply Hspec; left).
        assert (∀ q, shortest_between (tb_fsm_arcs r) c n q → q = p) as Hu
          by (by intros q Hq%Hspec%list_elem_of_singleton).
        split_and!; try done.
        rewrite (check_pair_unique _ _ _ Hr c n Hp HB p Hs Hu) in Hc.
        by destruct (decide _).
      * destruct (check_pair_tied _ _ _ Hr c n Hp ps Hps Hlen) as [Hc' _].
        congruence.
    + intros (c & n & p & Hp & HB & Hs & Hu & Ha). exists c, n.
      split_and!; [done|done|].
      rewrite (check_pair_unique _ _ _ Hr c n Hp HB p Hs Hu).
      by rewrite decide_False.
Qed.

Lemma ex_detour_resolve : resolve 10 ex_detour = Returns ex_detour_tables.
Proof. vm_compute; reflexivity. Qed.

Lemma ex_detour_mig_state_study :
  mig_state_study 10 ex_detour = Raises AssertionError.
Proof. vm_compute; reflexivity. Qed.

Lemma X5_after_resolve_witness :
  resolve 10 ex_detour = Returns ex_detour_tables ∧
  mig_state_study 10 ex_detour = Raises AssertionError ∧
  ∃ c n p, (c, n) ∈ all_state_pairs ex_detour ∧
           ((c, n) ∉ tb_blocked_transitions ex_detour_tables) ∧
           shortest_between (tb_fsm_arcs ex_detour_tables) c n p ∧
           (∀ q, shortest_between (tb_fsm_arcs ex_detour_tables) c n q →
                 q = p) ∧
           tb_all_paths ex_detour_tables !! (c, n) ≠ Some p.
Proof.
  pose proof ex_detour_resolve as H1.
  pose proof ex_detour_mig_state_study as H2.
  exact (conj H1 (conj H2
    (proj1 (proj2 (X5_after_resolve 10 ex_detour ex_detour_tables H1)) H2))).
Defined.

(* In a table that has all its entries and only states and ERROR as
   values, the while loop finds every entry it looks up. *)
Lemma walk_closed fuel t n path s e :
  total t → closed t → n ∈ all_states t →
  last path = Some s → s ∈ all_states t →
  walk fuel t n path = Raises e → e = AssertionError.
Proof.
  intros Ht Hcl Hn. revert path s.
  induction fuel as [|fuel IH]; intros path s Hl Hs H; simpl in H;
    rewrite Hl in H.
  - by case_bool_decide.
  - case_bool_decide as Hsn; [|done].
    destruct (Ht (s, n)) as [s' Hs'].
    { by apply elem_of_all_state_pairs. }
    unfold getitem in H. rewrite Hs' in H. simpl in H.
    unfold assert in H. case_bool_decide as He; simpl in H; [|congruence].
    apply (IH (path ++ [s']) s'); [apply last_snoc| |done].
    destruct (Hcl _ _ Hs') as [->|?]; [|done].
    destruct He. apply elem_of_app. right. left.
Qed.

(** X6: on a table that has an entry for every pair of distinct states
    and whose values are all ERROR or states of the table, the script
    raises no KeyError, no IndexError and no networkx exception: if it
    dies, it dies of a failed assert. *)
Theorem X6_only_asserts_fail fuel t e :
  total t → closed t →
  mig_state_study fuel t = Raises e → e = AssertionError.
Proof.
  intros Ht Hcl H.
  destruct (resolve fuel t) as [r|e'|] eqn:Hr.
  - destruct (study_outcome fuel t r Hr) as [(s & Hs & _)|Hs];
      congruence.
  - unfold mig_state_study in H. rewrite Hr in H. simpl in H.
    injection H as <-. unfold resolve in Hr.
    destruct (blocked_transitions_total t Ht) as [B HB]. rewrite HB in Hr.
    simpl in Hr. destruct (fsm_arcs_total t B Ht) as [G HG]. rewrite HG in Hr.
    simpl in Hr. rewrite (completeness_assert_passes _ _ HB) in Hr.
    simpl in Hr.
    destruct (combination_loop _ _ _ _) as [comb|e''|] eqn:HC; simpl in Hr;
      try discriminate. injection Hr as ->.
    revert HC. generalize (∅ : gmap (string * string) (list string)).
    assert (∀ p, p ∈ elements (all_state_pairs t ∖ G ∖ B) →
                 p ∈ all_state_pairs t) as Hl.
    { intros p Hp%elem_of_elements.
      by apply elem_of_difference in Hp as [[? _]%elem_of_difference _]. }
    induction (elements (all_state_pairs t ∖ G ∖ B)) as [|[c n] l IH];
      intros acc HC; simpl in HC; [discriminate|].
    assert ((c, n) ∈ all_state_pairs t) as (Hc & Hn & _)%elem_of_all_state_pairs
      by (apply Hl; left).
    destruct (walk fuel t n [c]) as [p|e''|] eqn:Hw; simpl in HC.
    + apply (IH ltac:(intros; apply Hl; by right) _ HC).
    + injection HC as ->. by apply (walk_closed fuel t n [c] c).
    + discriminate.
  - unfold mig_state_study in H. by rewrite Hr in H.
Qed.

Lemma X6_only_asserts_fail_witness :
  total ex_dead_end ∧ closed ex_dead_end ∧
  mig_state_study 10 ex_dead_end = Raises AssertionError ∧
  AssertionError = AssertionError.
Proof.
  assert (blocked_transitions ex_dead_end = Returns {[("B", "C")]}) as HB
    by (vm_compute; reflexivity).
  pose proof (proj1 (blocked_transitions_Returns _ _ HB)) as H1.
  assert (closed ex_dead_end) as H2.
  { unfold closed. apply (bool_decide_unpack _). vm_compute. exact I. }
  assert (mig_state_study 10 ex_dead_end = Raises AssertionError) as H3
    by (vm_compute; reflexivity).
  exact (conj H1 (conj H2 (conj H3
    (X6_only_asserts_fail 10 ex_dead_end AssertionError H1 H2 H3)))).
Defined.

(** X7: every entry of the ambiguity report of a script that ends is for a
    pair of distinct states that is neither blocked nor an FSM arc; it
    lists at least two paths, each once and each of three states or
    more, which are exactly the shortest paths of the pair along the
    FSM arcs; and at most one of them bears the "[selected]" mark, the
    one that is the path of all_paths. *)
Theorem X7_ambiguity_entries fuel t s c n rep :
  mig_state_study fuel t = Returns s → ((c, n), rep) ∈ st_ambiguity s →
  (c, n) ∈ all_state_pairs t ∧
  ((c, n) ∉ tb_blocked_transitions (st_tables s)) ∧
  ((c, n) ∉ tb_fsm_arcs (st_tables s)) ∧
  2 ≤ length rep ∧ NoDup rep.*1 ∧
  (∀ q, q ∈ rep.*1 ↔ shortest_between (tb_fsm_arcs (st_tables s)) c n q) ∧
  (∀ q, q ∈ rep.*1 → 3 ≤ length q) ∧
  (∀ q b, (q, b) ∈ rep →
          (b = true ↔ tb_all_paths (st_tables s) !! (c, n) = Some q)) ∧
  (∀ q1 q2, (q1, true) ∈ rep → (q2, true) ∈ rep → q1 = q2).
Proof.
  intros (Hr & Ha & _)%mig_state_study_Returns Hin.
  set (r := st_tables s) in *.
  apply comprehension_Returns in Ha as [_ Ha].
  apply Ha in Hin as ([c' n'] & [Hp HB]%(checked_pairs t r) & Hc).
  destruct (shortest_paths_found _ _ _ Hr c' n' Hp HB) as [ps Hps].
  destruct (all_shortest_paths_Returns _ _ _ _ Hps) as (Hnd & Hne & Hspec).
  assert (c' ≠ n') as Hcn
    by (by apply elem_of_all_state_pairs in Hp as (_ & _ & ?)).
  destruct (decide (length ps = 1)) as [Hlen|Hlen].
  { destruct ps as [|p [|]]; try discriminate.
    rewrite (check_pair_unique _ _ _ Hr c' n' Hp HB p) in Hc.
    - by destruct (decide _).
    - apply Hspec. left.
    - by intros q Hq%Hspec%list_elem_of_singleton. }
  destruct (check_pair_tied _ _ _ Hr c' n' Hp ps Hps Hlen) as [Hc' Heq].
  rewrite Hc' in Hc. injection Hc as -> -> <-.
  assert ((c, n) ∉ tb_fsm_arcs r) as HG.
  { intros HG. destruct Hlen.
    rewrite (NoDup_all_equal ps [c; n]); [done|done|done|].
    intros q Hq. by apply (shortest_between_arc (tb_fsm_arcs r)), Hspec. }
  assert (∀ l : list (list string),
            ((λ q, (q, bool_decide (tb_combination_paths r !! (c, n) = Some q)))
               <$> l).*1 = l) as Hfst.
  { intros l. rewrite <- list_fmap_compose. apply list_fmap_id. }
  assert (∀ q b,
    (q, b) ∈ (λ q, (q, bool_decide (tb_combination_paths r !! (c, n) = Some q)))
               <$> sorted_paths ps →
    (b = true ↔ tb_all_paths r !! (c, n) = Some q)) as Hmark.
  { intros q b (q' & [= -> ->] & _)%list_elem_of_fmap.
    by rewrite bool_decide_eq_true, Heq. }
  split_and!; try done.
  - rewrite length_fmap. unfold sorted_paths.
    rewrite merge_sort_Permutation. destruct ps as [|? [|]]; simpl in *; try done.
    lia.
  - rewrite Hfst. unfold sorted_paths. by rewrite merge_sort_Permutation.
  - intros q. by rewrite Hfst, elem_of_sorted_paths.
  - intros q. rewrite Hfst, elem_of_sorted_paths, Hspec.
    intros [(Hh & Hl & Hw) _].
    destruct q as [|a [|b [|]]]; simpl in *; try lia; try congruence.
    injection Hh as ->. injection Hl as ->. destruct HG. by apply (Hw 0).
  - intros q1 q2 H1%Hmark H2%Hmark.
    pose proof (proj1 H1 eq_refl). pose proof (proj1 H2 eq_refl). congruence.
Qed.

Lemma X7_ambiguity_entries_witness :
  mig_state_study 10 ex_tie = Returns ex_tie_study ∧
  (("A", "Z"), [(["A"; "X"; "Z"], false); (["A"; "Y"; "Z"], false)])
    ∈ st_ambiguity ex_tie_study ∧
  ("A", "Z") ∈ all_state_pairs ex_tie ∧
  (("A", "Z") ∉ tb_blocked_transitions (st_tables ex_tie_study)).
Proof.
  pose proof ex_tie_mig_state_study as H1.
  assert ((("A", "Z"), [(["A"; "X"; "Z"], false); (["A"; "Y"; "Z"], false)])
            ∈ st_ambiguity ex_tie_study) as H2 by left.
  pose proof (X7_ambiguity_entries 10 ex_tie ex_tie_study "A" "Z" _ H1 H2)
    as (H3 & H4 & _).
  exact (conj H1 (conj H2 (conj H3 H4))).
Defined.

(* ===================================================================== *)
(* The orders of sorted(...)                                             *)
(* ===================================================================== *)

Lemma string_compare_refl s : String.compare s s = Eq.
Proof.
  induction s as [|a s IH]; simpl; [done|].
  unfold Ascii.compare. by rewrite N.compare_refl.
Qed.

Lemma string_compare_Eq s1 s2 : String.compare s1 s2 = Eq ↔ s1 = s2.
Proof.
  split; [apply String.compare_eq_iff|intros ->; apply string_compare_refl].
Qed.

Lemma string_compare_Gt s1 s2 :
  String.compare s1 s2 = Gt ↔ String.compare s2 s1 = Lt.
Proof.
  rewrite (String.compare_antisym s2 s1).
  destruct (String.compare s1 s2); simpl; split; congruence.
Qed.

Lemma string_compare_Lt_trans s1 s2 s3 :
  String.compare s1 s2 = Lt → String.compare s2 s3 = Lt →
  String.compare s1 s3 = Lt.
Proof.
  revert s2 s3. induction s1 as [|a s1 IH]; intros [|b s2] [|c s3]; simpl;
    try done.
  unfold Ascii.compare.
  destruct (N.compare_spec (Ascii.N_of_ascii a) (Ascii.N_of_ascii b)) as [Hab|Hab|Hab],
           (N.compare_spec (Ascii.N_of_ascii b) (Ascii.N_of_ascii c)) as [Hbc|Hbc|Hbc],
           (N.compare_spec (Ascii.N_of_ascii a) (Ascii.N_of_ascii c)) as [Hac|Hac|Hac];
    try done; try lia.
  apply IH.
Qed.

Lemma string_leb_true s1 s2 :
  String.leb s1 s2 = true ↔ String.compare s1 s2 = Lt ∨ s1 = s2.
Proof.
  unfold String.leb. rewrite <- string_compare_Eq.
  destruct (String.compare s1 s2); split; intros; try done; auto.
  by destruct H.
Qed.

Lemma string_ltb_true s1 s2 :
  String.ltb s1 s2 = true ↔ String.compare s1 s2 = Lt.
Proof. unfold String.ltb. destruct (String.compare s1 s2); split; done. Qed.

Lemma string_compare_Lt_irrefl s : String.compare s s ≠ Lt.
Proof. by rewrite string_compare_refl. Qed.

Lemma string_compare_total s1 s2 :
  String.compare s1 s2 = Lt ∨ s1 = s2 ∨ String.compare s2 s1 = Lt.
Proof.
  rewrite <- (string_compare_Gt s1 s2), <- (string_compare_Eq s1 s2).
  destruct (String.compare s1 s2); auto.
Qed.

Lemma arc_le_spec p q :
  arc_le p q ↔
  String.compare p.1 q.1 = Lt ∨
  (p.1 = q.1 ∧ (String.compare p.2 q.2 = Lt ∨ p.2 = q.2)).
Proof.
  unfold arc_le, arc_leb.
  rewrite orb_true_iff, andb_true_iff, string_ltb_true, String.eqb_eq,
    string_leb_true. done.
Qed.

Lemma arc_le_total : Total arc_le.
Proof.
  intros p q. rewrite !arc_le_spec.
  destruct (string_compare_total p.1 q.1) as [?|[Heq|?]]; [auto| |auto].
  destruct (string_compare_total p.2 q.2) as [?|[?|?]]; auto.
Qed.
#[local] Existing Instance arc_le_total.

Lemma arc_le_trans : Transitive arc_le.
Proof.
  intros p q u. rewrite !arc_le_spec.
  intros [H1|[E1 H1]] [H2|[E2 H2]].
  - left. by eapply string_compare_Lt_trans.
  - left. by rewrite <- E2.
  - left. by rewrite E1.
  - right. split; [congruence|].
    destruct H1 as [H1|H1], H2 as [H2|H2].
    + left. by eapply string_compare_Lt_trans.
    + left. by rewrite <- H2.
    + left. by rewrite H1.
    + right. congruence.
Qed.
#[local] Existing Instance arc_le_trans.

Lemma arc_le_antisym : AntiSymm (=) arc_le.
Proof.
  intros [p1 p2] [q1 q2]. rewrite !arc_le_spec. simpl.
  intros [H1|[E1 H1]] [H2|[E2 H2]].
  - by destruct (string_compare_Lt_irrefl p1); eapply string_compare_Lt_trans.
  - subst. by destruct (string_compare_Lt_irrefl p1).
  - subst. by destruct (string_compare_Lt_irrefl q1).
  - subst. f_equal. destruct H1 as [H1|H1], H2 as [H2|H2]; try done.
    by destruct (string_compare_Lt_irrefl p2); eapply string_compare_Lt_trans.
Qed.
#[local] Existing Instance arc_le_antisym.

Lemma path_le_nil q : path_le [] q.
Proof. done. Qed.

Lemma path_le_cons x p y q :
  path_le (x :: p) (y :: q) ↔
  String.compare x y = Lt ∨ (x = y ∧ path_le p q).
Proof.
  unfold path_le. simpl.
  by rewrite orb_true_iff, andb_true_iff, string_ltb_true, String.eqb_eq.
Qed.

Lemma path_le_total : Total path_le.
Proof.
  intros p. induction p as [|x p IH]; intros q; [by left|].
  destruct q as [|y q]; [by right|]. rewrite !path_le_cons.
  destruct (string_compare_total x y) as [?|[->|?]]; [auto| |auto].
  destruct (IH q); auto.
Qed.
#[local] Existing Instance path_le_total.

Lemma path_le_trans : Transitive path_le.
Proof.
  intros p. induction p as [|x p IH]; intros q u; [done|].
  destruct q as [|y q]; [done|]. destruct u as [|z u]; [done|].
  rewrite !path_le_cons. intros [H1|[-> H1]] [H2|[-> H2]].
  - left. by eapply string_compare_Lt_trans.
  - by left.
  - by left.
  - right. split; [done|]. by eapply IH.
Qed.
#[local] Existing Instance path_le_trans.

Lemma path_le_antisym : AntiSymm (=) path_le.
Proof.
  intros p. induction p as [|x p IH]; intros q.
  - by destruct q.
  - destruct q as [|y q]; [done|]. rewrite !path_le_cons.
    intros [H1|[-> H1]] [H2|[E2 H2]].
    + by destruct (string_compare_Lt_irrefl x); eapply string_compare_Lt_trans.
    + rewrite E2 in H1. by destruct (string_compare_Lt_irrefl x).
    + by destruct (string_compare_Lt_irrefl y).
    + f_equal. by apply IH.
Qed.
#[local] Existing Instance path_le_antisym.

(* In a list sorted by a transitive order, what comes earlier is below
   what comes later. *)
Lemma StronglySorted_lookup {A} (R : relation A) l i j x y :
  StronglySorted R l → i < j → l !! i = Some x → l !! j = Some y → R x y.
Proof.
  intros Hs. revert i j. induction Hs as [|a l Hs IH Hall]; intros i j Hij Hi Hj.
  - done.
  - destruct j as [|j]; [lia|]. simpl in Hj. destruct i as [|i].
    + injection Hi as <-. rewrite Forall_forall in Hall.
      apply Hall. by eapply list_elem_of_lookup_2.
    + simpl in Hi. apply (IH i j); [lia|done|done].
Qed.

Lemma sorted_arcs_StronglySorted l : StronglySorted arc_le (sorted_arcs l).
Proof. apply StronglySorted_merge_sort; apply _. Qed.

Lemma sorted_paths_StronglySorted l : StronglySorted path_le (sorted_paths l).
Proof. apply StronglySorted_merge_sort; apply _. Qed.

(* ===================================================================== *)
(* The order of what is printed                                          *)
(* ===================================================================== *)

Lemma blocked_key_le_spec p q :
  blocked_key_le p q ↔
  (error_in p = false ∧ error_in q = true) ∨
  (error_in p = error_in q ∧ arc_le p q).
Proof.
  unfold blocked_key_le, blocked_key_leb, arc_le.
  destruct (error_in p), (error_in q); intuition congruence.
Qed.

Lemma blocked_key_le_total : Total blocked_key_le.
Proof.
  intros p q. rewrite !blocked_key_le_spec.
  destruct (stdpp.base.total arc_le p q), (error_in p), (error_in q); auto.
Qed.
#[local] Existing Instance blocked_key_le_total.

Lemma blocked_key_le_trans : Transitive blocked_key_le.
Proof.
  intros p q u. rewrite !blocked_key_le_spec.
  intros [[? ?]|[? ?]] [[? ?]|[? ?]]; try congruence.
  - left. split; congruence.
  - left. split; congruence.
  - right. split; [congruence|]. by etrans.
Qed.
#[local] Existing Instance blocked_key_le_trans.

Lemma target_key_le_total : Total target_key_le.
Proof. intros p q. apply (stdpp.base.total path_le). Qed.
#[local] Existing Instance target_key_le_total.

Lemma target_key_le_trans : Transitive target_key_le.
Proof. intros p q u. apply (transitivity (R:=path_le)). Qed.
#[local] Existing Instance target_key_le_trans.

(** X8: the blocked transitions are printed each once, those with no ERROR
    in the pair before those with ERROR in it, and in ascending order
    within both groups. *)
Theorem X8_blocked_lines (blocked : gset (string * string)) :
  blocked_lines blocked ≡ₚ elements blocked ∧
  NoDup (blocked_lines blocked) ∧
  ∀ i j p q, i < j →
    blocked_lines blocked !! i = Some p → blocked_lines blocked !! j = Some q →
    (error_in p = true → error_in q = true) ∧
    (error_in p = error_in q → arc_le p q).
Proof.
  assert (blocked_lines blocked ≡ₚ elements blocked) as Hperm
    by apply merge_sort_Permutation.
  split_and!; [done|rewrite Hperm; apply NoDup_elements|].
  intros i j p q Hij Hi Hj.
  assert (blocked_key_le p q) as Hle.
  { apply (StronglySorted_lookup _ (blocked_lines blocked) i j); try done.
    apply StronglySorted_merge_sort; apply _. }
  apply blocked_key_le_spec in Hle as [[? ?]|[? ?]]; split; congruence || done.
Qed.

Lemma reverse_path_head (p : list string) : head (reverse p) = last p.
Proof. apply head_reverse. Qed.

Lemma path_le_head p q a b :
  path_le p q → head p = Some a → head q = Some b →
  String.leb a b = true.
Proof.
  destruct p as [|x p], q as [|y q]; try done. simpl.
  intros [?|[-> _]]%path_le_cons [= ->] [= ->]; apply string_leb_true; auto.
Qed.

(** X9: the list "Combination transitions (target sorted)" has the same
    paths as the list "Combination transitions", ordered by their last
    state, the target: the target of a path that comes earlier is never
    above the target of a path that comes later, so that the paths to
    one target come together. *)
Theorem X9_target_sorted_lines
    (combination_paths : gmap (string * string) (list string)) :
  target_sorted_lines combination_paths ≡ₚ combination_lines combination_paths ∧
  (∀ i j p q a b, i < j →
     target_sorted_lines combination_paths !! i = Some p →
     target_sorted_lines combination_paths !! j = Some q →
     last p = Some a → last q = Some b → String.leb a b = true) ∧
  (∀ i j k p q u a, i < j < k →
     target_sorted_lines combination_paths !! i = Some p →
     target_sorted_lines combination_paths !! j = Some q →
     target_sorted_lines combination_paths !! k = Some u →
     last p = Some a → last u = Some a → q ≠ [] → last q = Some a).
Proof.
  assert (∀ i j p q a b, i < j →
     target_sorted_lines combination_paths !! i = Some p →
     target_sorted_lines combination_paths !! j = Some q →
     last p = Some a → last q = Some b → String.leb a b = true) as Hord.
  { intros i j p q a b Hij Hi Hj Ha Hb.
    assert (target_key_le p q) as Hle.
    { apply (StronglySorted_lookup _ (target_sorted_lines combination_paths) i j);
        try done.
      apply StronglySorted_merge_sort; apply _. }
    apply (path_le_head (reverse p) (reverse q)); [done| |];
      by rewrite head_reverse. }
  split_and!; [|done|].
  - unfold target_sorted_lines, combination_lines, sorted_paths.
    by rewrite !merge_sort_Permutation.
  - intros i j k p q u a [Hij Hjk] Hi Hj Hk Hp Hu Hq.
    destruct (last q) as [b|] eqn:Hb; [|by apply last_None in Hb].
    f_equal. apply String.leb_antisym.
    + by apply (Hord j k q u).
    + by apply (Hord i j p q).
Qed.

Lemma StronglySorted_sublist {A} (R : relation A) l1 l2 :
  l1 `sublist_of` l2 → StronglySorted R l2 → StronglySorted R l1.
Proof.
  induction 1 as [|x l1 l2 Hsub IH|x l1 l2 Hsub IH]; intros Hs; [done| |].
  - apply StronglySorted_inv in Hs as [Hs Hall]. constructor; [by apply IH|].
    rewrite Forall_forall in *. intros y Hy. apply Hall.
    by eapply elem_of_sublist.
  - apply StronglySorted_inv in Hs as [Hs _]. by apply IH.
Qed.

(* What a loop has printed is, entry for entry, about some of the values
   it went through, in their order. *)
Lemma comprehension_sublist {A B} (f : A → outcome (option B)) (g : B → A)
    l rs :
  (∀ x y, f x = Returns (Some y) → g y = x) →
  comprehension f l = Returns rs → g <$> rs `sublist_of` l.
Proof.
  intros Hg. revert rs. induction l as [|x l IH]; simpl; intros rs H.
  - by injection H as <-.
  - destruct (f x) as [r| |] eqn:Hfx; simpl in H; try discriminate.
    destruct (comprehension f l) as [rs'| |]; simpl in H; try discriminate.
    injection H as <-. destruct r as [y|].
    + rewrite fmap_cons, (Hg x y Hfx). apply sublist_skip. by apply IH.
    + apply sublist_cons. by apply IH.
Qed.

Lemma check_pair_Some G comb all p k rep :
  check_pair G comb all p = Returns (Some (k, rep)) →
  k = p ∧ ∃ ps, rep.*1 = sorted_paths ps.
Proof.
  unfold check_pair. destruct (all_shortest_paths G p.1 p.2) as [ps| |];
    simpl; try discriminate.
  case_bool_decide.
  - intros [= <- <-]. split; [done|]. exists ps.
    rewrite <- list_fmap_compose. apply list_fmap_id.
  - destruct (ps !! 0); simpl; [|discriminate].
    destruct (getitem all p); simpl; [|discriminate..].
    destruct (assert _); simpl; discriminate.
Qed.

(** X10: the report of a script that ends is in order: the pairs of the
    ambiguity report come in strictly ascending order, each pair once;
    the tied paths of an entry come in ascending order; and the unwind
    study has one block for each path of combination_paths, the paths
    in ascending order as in the list "Combination transitions". *)
Theorem X10_report_order fuel t s :
  mig_state_study fuel t = Returns s →
  (∀ i j k1 k2, i < j →
     (st_ambiguity s).*1 !! i = Some k1 → (st_ambiguity s).*1 !! j = Some k2 →
     arc_le k1 k2 ∧ k1 ≠ k2) ∧
  (∀ k rep, (k, rep) ∈ st_ambiguity s → StronglySorted path_le rep.*1) ∧
  (st_unwind s).*1 = combination_lines (tb_combination_paths (st_tables s)) ∧
  StronglySorted path_le (st_unwind s).*1 ∧
  length (st_unwind s) = size (tb_combination_paths (st_tables s)).
Proof.
  intros (Hr & Ha & Hu)%mig_state_study_Returns.
  set (r := st_tables s) in *.
  assert ((st_ambiguity s).*1 `sublist_of`
            sorted_arcs (elements (all_state_pairs t
                                   ∖ tb_blocked_transitions r))) as Hsub.
  { apply (comprehension_sublist (check_pair (tb_fsm_arcs r)
             (tb_combination_paths r) (tb_all_paths r))); [|done].
    intros x [k rep] Hc. by apply check_pair_Some in Hc as [-> _]. }
  assert ((st_unwind s).*1 = combination_lines (tb_combination_paths r)) as Hl.
  { rewrite Hu. unfold error_unwind_study, combination_lines.
    rewrite <- list_fmap_compose. apply list_fmap_id. }
  split_and!.
  - intros i j k1 k2 Hij Hi Hj. split.
    + apply (StronglySorted_lookup _ ((st_ambiguity s).*1) i j); try done.
      apply (StronglySorted_sublist _ _ _ Hsub), sorted_arcs_StronglySorted.
    + intros ->.
      assert (NoDup (st_ambiguity s).*1) as Hnd.
      { eapply sublist_NoDup; [|exact Hsub]. unfold sorted_arcs.
        rewrite merge_sort_Permutation. apply NoDup_elements. }
      pose proof (NoDup_lookup _ _ _ _ Hnd Hi Hj). lia.
  - intros k rep Hin. apply comprehension_Returns in Ha as [_ Ha].
    apply Ha in Hin as (x & _ & (_ & ps & ->)%check_pair_Some).
    apply sorted_paths_StronglySorted.
  - done.
  - rewrite Hl. apply sorted_paths_StronglySorted.
  - rewrite <- (length_fmap fst), Hl. unfold combination_lines, sorted_paths.
    rewrite merge_sort_Permutation, length_fmap. apply length_map_to_list.
Qed.

Lemma X10_report_order_witness :
  mig_state_study 10 ex_tie = Returns ex_tie_study ∧
  (st_unwind ex_tie_study).*1
    = combination_lines (tb_combination_paths (st_tables ex_tie_study)) ∧
  StronglySorted path_le (st_unwind ex_tie_study).*1 ∧
  length (st_unwind ex_tie_study)
    = size (tb_combination_paths (st_tables ex_tie_study)).
Proof.
  pose proof ex_tie_mig_state_study as H1.
  exact (conj H1
    (proj2 (proj2 (X10_report_order 10 ex_tie ex_tie_study H1)))).
Defined.

(* ===================================================================== *)
(* Counting the pairs                                                    *)
(* ===================================================================== *)

Lemma NoDup_list_prod {A B} (l1 : list A) (l2 : list B) :
  NoDup l1 → NoDup l2 → NoDup (list_prod l1 l2).
Proof.
  intros H1 H2. induction H1 as [|a l1 Ha H1 IH]; simpl; [constructor|].
  apply NoDup_app. split_and!.
  - apply (NoDup_fmap_2_strong (pair a)); [by intros ?? _ _ [= ->]|done].
  - intros [x y] Hx Hy. apply list_elem_of_In, in_map_iff in Hx as (y' & [= <- <-] & _).
    apply list_elem_of_In, in_prod_iff in Hy as [Hin%list_elem_of_In _]. done.
  - done.
Qed.

Lemma offdiag_row_length (a : string) (l : list string) :
  NoDup l →
  length (filter (λ p : string * string, p.1 ≠ p.2) (map (pair a) l))
  + (if decide (a ∈ l) then 1 else 0) = length l.
Proof.
  induction 1 as [|b l Hb Hnd IH]; cbn [map].
  - rewrite filter_nil. destruct (decide _) as [H|]; [|done].
    by apply elem_of_nil in H.
  - rewrite filter_cons. cbn [fst snd]. destruct (decide (a = b)) as [->|Hab].
    + rewrite (decide_False (P:=b ≠ b)) by (by intros ?).
      rewrite (decide_True (P:=b ∈ b :: l)) by left.
      rewrite decide_False in IH by done. cbn [length]. lia.
    + rewrite (decide_True (P:=a ≠ b)) by done. cbn [length].
      destruct (decide (a ∈ l)) as [Hin|Hin].
      * rewrite (decide_True (P:=a ∈ b :: l)) by (by right). lia.
      * rewrite (decide_False (P:=a ∈ b :: l))
          by (by intros [?|?]%elem_of_cons). lia.
Qed.

Lemma offdiag_length (l1 l2 : list string) :
  NoDup l2 → (∀ x, x ∈ l1 → x ∈ l2) →
  length (filter (λ p : string * string, p.1 ≠ p.2) (list_prod l1 l2))
  + length l1 = length l1 * length l2.
Proof.
  intros Hnd. induction l1 as [|a l1 IH]; intros Hin; simpl; [done|].
  rewrite filter_app, length_app.
  pose proof (offdiag_row_length a l2 Hnd) as Hrow.
  rewrite decide_True in Hrow by (apply Hin; left).
  specialize (IH ltac:(intros; apply Hin; by right)).
  change (map (λ y : string, (a, y)) l2) with (map (pair a) l2). lia.
Qed.

Lemma size_all_state_pairs (t : gmap (string * string) string) :
  size (all_state_pairs t) = size (all_states t) * (size (all_states t) - 1).
Proof.
  unfold all_state_pairs. rewrite size_list_to_set.
  2:{ apply NoDup_filter, NoDup_list_prod; apply NoDup_elements. }
  pose proof (offdiag_length (elements (all_states t)) (elements (all_states t))
                (NoDup_elements _) ltac:(done)) as H.
  change (size (all_states t)) with (length (elements (all_states t))).
  nia.
Qed.

Lemma dom_combination_paths fuel t r :
  resolve fuel t = Returns r →
  dom (tb_combination_paths r)
  = all_state_pairs t ∖ tb_fsm_arcs r ∖ tb_blocked_transitions r.
Proof.
  intros Hr. apply set_eq. intros [c n].
  rewrite elem_of_dom, !elem_of_difference. split.
  - intros [p (? & ? & ? & _)%(resolved_combination_paths _ _ _ Hr)]. done.
  - intros [[? ?] ?]. by apply (resolved_walked _ _ _ Hr).
Qed.

(** X11: a table of k states has k(k-1) pairs of distinct states, and in a
    run that reaches line 66 each of them is counted once among the
    blocked transitions, the FSM arcs that are not blocked, and the
    combination paths; when every FSM arc joins two distinct states of
    a pair that is not blocked, the three counts the script prints add
    up to k(k-1). *)
Theorem X11_counts fuel t r :
  resolve fuel t = Returns r →
  size (all_state_pairs t) = size (all_states t) * (size (all_states t) - 1) ∧
  size (tb_blocked_transitions r)
  + size (all_state_pairs t ∩ (tb_fsm_arcs r ∖ tb_blocked_transitions r))
  + size (tb_combination_paths r) = size (all_state_pairs t) ∧
  (tb_fsm_arcs r ⊆ all_state_pairs t ∖ tb_blocked_transitions r →
   size (tb_fsm_arcs r) + size (tb_blocked_transitions r)
   + size (tb_combination_paths r)
   = size (all_states t) * (size (all_states t) - 1)).
Proof.
  intros Hr. pose proof (size_all_state_pairs t) as Hk.
  set (P := all_state_pairs t) in *. set (B := tb_blocked_transitions r).
  set (G := tb_fsm_arcs r).
  assert (B ⊆ P) as HBP.
  { intros p [? _]%(resolved_blocked _ _ _ Hr). done. }
  assert (size B + size (P ∩ (G ∖ B)) + size (tb_combination_paths r) = size P)
    as Hsum.
  { rewrite <- size_dom, (dom_combination_paths _ _ _ Hr). fold P G B.
    rewrite <- !size_union.
    - f_equal. apply set_eq. intros p.
      rewrite !elem_of_union, elem_of_intersection, !elem_of_difference.
      specialize (HBP p). destruct (decide (p ∈ B)), (decide (p ∈ G)); tauto.
    - intros p. rewrite elem_of_union, elem_of_intersection,
        !elem_of_difference. tauto.
    - intros p. rewrite elem_of_intersection, !elem_of_difference. tauto. }
  split_and!; [done|done|].
  intros HG. rewrite <- Hk, <- Hsum.
  replace (P ∩ (G ∖ B)) with G; [lia|].
  apply set_eq. intros p. specialize (HG p).
  rewrite elem_of_intersection, !elem_of_difference in *. tauto.
Qed.

Lemma X11_counts_witness :
  resolve 10 ex_tie = Returns ex_tie_tables ∧
  (tb_fsm_arcs ex_tie_tables
     ⊆ all_state_pairs ex_tie ∖ tb_blocked_transitions ex_tie_tables) ∧
  size (tb_fsm_arcs ex_tie_tables) + size (tb_blocked_transitions ex_tie_tables)
  + size (tb_combination_paths ex_tie_tables)
  = size (all_states ex_tie) * (size (all_states ex_tie) - 1).
Proof.
  pose proof ex_tie_resolve as H1.
  assert (tb_fsm_arcs ex_tie_tables
            ⊆ all_state_pairs ex_tie ∖ tb_blocked_transitions ex_tie_tables)
    as H2.
  { apply (bool_decide_unpack _). vm_compute. exact I. }
  exact (conj H1 (conj H2
    (proj2 (proj2 (X11_counts 10 ex_tie ex_tie_tables H1)) H2))).
Defined.

(* ===================================================================== *)
(* Texts                                                                 *)
(* ===================================================================== *)

#[local] Arguments String.append !_ _ / : simpl nomatch.

Lemma string_app_nil_r (s : string) : s +:+ "" = s.
Proof. induction s as [|a s IH]; [done|]. cbn. by rewrite IH. Qed.

Lemma string_app_assoc (s1 s2 s3 : string) :
  (s1 +:+ s2) +:+ s3 = s1 +:+ s2 +:+ s3.
Proof. induction s1 as [|a s1 IH]; [done|]. cbn. by rewrite IH. Qed.

Lemma string_app_length (s1 s2 : string) :
  String.length (s1 +:+ s2) = String.length s1 + String.length s2.
Proof. induction s1 as [|a s1 IH]; [done|]. cbn. by rewrite IH. Qed.

Lemma string_forall_app P (s1 s2 : string) :
  string_forall P (s1 +:+ s2) = string_forall P s1 && string_forall P s2.
Proof.
  induction s1 as [|a s1 IH]; [done|]. cbn. by rewrite IH, andb_assoc.
Qed.

(* Two ways to cut one text: the longer first part holds the shorter. *)
Lemma string_app_eq_split (g r g' r' : string) :
  g +:+ r = g' +:+ r' → String.length g ≤ String.length g' →
  ∃ d, g' = g +:+ d ∧ r = d +:+ r'.
Proof.
  revert g'. induction g as [|a g IH]; intros g' Heq Hlen.
  - by exists g'.
  - destruct g' as [|a' g']; [cbn in Hlen; lia|].
    cbn in Heq, Hlen. injection Heq as -> Heq.
    destruct (IH g' Heq ltac:(lia)) as (d & -> & ->). by exists d.
Qed.

Lemma strip_prefix_app (l s : string) : strip_prefix l (l +:+ s) = Some s.
Proof.
  induction l as [|a l IH]; [by destruct s|]. cbn.
  by rewrite Ascii.eqb_refl.
Qed.

Lemma strip_prefix_Some (l s r : string) :
  strip_prefix l s = Some r ↔ s = l +:+ r.
Proof.
  split; [|intros ->; apply strip_prefix_app].
  revert s. induction l as [|a l IH]; intros s; [destruct s; cbn; congruence|].
  destruct s as [|b s]; [done|]. cbn.
  destruct (Ascii.eqb a b) eqn:E; [|done].
  apply Ascii.eqb_eq in E as ->. intros ->%IH. done.
Qed.

Lemma strip_prefix_None (l s : string) :
  strip_prefix l s = None ↔ ∀ r, s ≠ l +:+ r.
Proof.
  split.
  - intros H r Hr. apply strip_prefix_Some in Hr. congruence.
  - intros H. destruct (strip_prefix l s) as [r|] eqn:E; [|done].
    apply strip_prefix_Some in E. by destruct (H r).
Qed.

(* A literal with a character that the text has not is not its start. *)
Lemma strip_prefix_without (P : Ascii.ascii → bool) (l s : string) :
  string_forall P s = true → string_forall P l = false →
  strip_prefix l s = None.
Proof.
  intros Hs Hl. apply strip_prefix_None. intros r ->.
  rewrite string_forall_app in Hs. apply andb_true_iff in Hs as [? _].
  congruence.
Qed.

(* ===================================================================== *)
(* The groups                                                            *)
(* ===================================================================== *)

Lemma greedy_inv {R} dotall (s : string) (k : string → string → option R) r :
  greedy dotall s k = Some r →
  ∃ g rest, s = g +:+ rest ∧ string_forall (dot dotall) g = true ∧
            k g rest = Some r.
Proof.
  revert k. induction s as [|a s IH]; intros k; cbn.
  - intros H. by exists "", "".
  - destruct (dot dotall a) eqn:Ha; [|intros H; by exists "", (String a s)].
    destruct (greedy dotall s _) as [r'|] eqn:E.
    + intros [= ->]. apply IH in E as (g & rest & -> & Hg & Hk).
      exists (String a g), rest. cbn. by rewrite Ha, Hg.
    + intros H. by exists "", (String a s).
Qed.

(* With no longer group that goes on to a match, the empty one is taken. *)
Lemma greedy_empty {R} dotall (s : string) (k : string → string → option R) :
  (∀ g rest, s = g +:+ rest → g ≠ "" →
     string_forall (dot dotall) g = true → k g rest = None) →
  greedy dotall s k = k "" s.
Proof.
  revert k. induction s as [|a s IH]; intros k Hk; cbn; [done|].
  destruct (dot dotall a) eqn:Ha; [|done].
  rewrite IH.
  - by rewrite (Hk (String a "") s) by (by cbn; rewrite ?Ha).
  - intros g rest -> Hg Hd. apply Hk; [done..|]. cbn. by rewrite Ha, Hd.
Qed.

(* A greedy group is the longest after which the rest of the pattern
   matches. *)
Lemma greedy_longest {R} dotall (g rest : string)
    (k : string → string → option R) r :
  string_forall (dot dotall) g = true → k g rest = Some r →
  (∀ g' rest', g +:+ rest = g' +:+ rest' →
     String.length g < String.length g' →
     string_forall (dot dotall) g' = true → k g' rest' = None) →
  greedy dotall (g +:+ rest) k = Some r.
Proof.
  revert k. induction g as [|a g IH]; intros k Hd Hk Hlong.
  - cbn. rewrite greedy_empty; [done|].
    intros g' rest' -> Hg' Hd'. apply Hlong; [done| |done].
    destruct g'; [done|cbn; lia].
  - cbn in Hd. apply andb_true_iff in Hd as [Ha Hd]. cbn. rewrite Ha.
    rewrite (IH (λ g, k (String a g))); [done..|].
    intros g' rest' Heq Hlen Hd'. apply Hlong; cbn; [by rewrite Heq|lia|].
    by rewrite Ha, Hd'.
Qed.

Lemma greedy_None {R} dotall (s : string) (k : string → string → option R) :
  (∀ g rest, s = g +:+ rest → string_forall (dot dotall) g = true →
     k g rest = None) →
  greedy dotall s k = None.
Proof.
  intros Hk. rewrite greedy_empty; [by apply Hk|]. intros; by apply Hk.
Qed.

Lemma lazy_group_unfold {R} dotall (s : string)
    (k : string → string → option R) :
  lazy_group dotall s k =
  match k "" s with
  | Some r => Some r
  | None =>
      match s with
      | String a s' =>
          if dot dotall a then lazy_group dotall s' (λ g, k (String a g))
          else None
      | "" => None
      end
  end.
Proof. by destruct s. Qed.

Lemma lazy_group_inv {R} dotall (s : string)
    (k : string → string → option R) r :
  lazy_group dotall s k = Some r →
  ∃ g rest, s = g +:+ rest ∧ string_forall (dot dotall) g = true ∧
            k g rest = Some r.
Proof.
  revert k. induction s as [|a s IH]; intros k; rewrite lazy_group_unfold.
  - destruct (k "" "") eqn:E; [|done]. intros [= ->]. by exists "", "".
  - destruct (k "" (String a s)) eqn:E.
    { intros [= ->]. by exists "", (String a s). }
    destruct (dot dotall a) eqn:Ha; [|done].
    intros (g & rest & -> & Hg & Hk)%IH.
    exists (String a g), rest. cbn. by rewrite Ha, Hg.
Qed.

(* A lazy group is the shortest after which the rest of the pattern
   matches. *)
Lemma lazy_group_shortest {R} dotall (g rest : string)
    (k : string → string → option R) r :
  string_forall (dot dotall) g = true → k g rest = Some r →
  (∀ g' rest', g +:+ rest = g' +:+ rest' →
     String.length g' < String.length g → k g' rest' = None) →
  lazy_group dotall (g +:+ rest) k = Some r.
Proof.
  revert k. induction g as [|a g IH]; intros k Hd Hk Hshort;
    rewrite lazy_group_unfold.
  - cbn. by rewrite Hk.
  - cbn in Hd. apply andb_true_iff in Hd as [Ha Hd].
    rewrite (Hshort "" (String a g +:+ rest)) by (done || cbn; lia).
    cbn. rewrite Ha. apply IH; [done..|].
    intros g' rest' Heq Hlen. apply Hshort; cbn; [by rewrite Heq|lia].
Qed.

Lemma lazy_group_None {R} dotall (s : string)
    (k : string → string → option R) :
  lazy_group dotall s k = None →
  ∀ g rest, s = g +:+ rest → string_forall (dot dotall) g = true →
            k g rest = None.
Proof.
  revert k. induction s as [|a s IH]; intros k; rewrite lazy_group_unfold.
  - destruct (k "" "") eqn:E; [done|]. intros _ [|??] rest; [|done].
    cbn. by intros <-.
  - destruct (k "" (String a s)) eqn:E; [done|].
    intros H [|b g] rest Heq Hd; [cbn in Heq; by subst|].
    cbn in Heq, Hd. injection Heq as <- ->.
    apply andb_true_iff in Hd as [Ha Hd]. rewrite Ha in H.
    by apply (IH _ H g rest).
Qed.

Lemma re_search_None dotall pat (s : string) :
  re_search dotall pat s = None ↔
  ∀ pre s', s = pre +:+ s' → match_at dotall pat s' = None.
Proof.
  split.
  - induction s as [|a s IH]; cbn.
    + destruct (match_at dotall pat "") eqn:E; [done|].
      intros _ [|??] s'; [|done]. cbn. by intros <-.
    + destruct (match_at dotall pat (String a s)) eqn:E; [done|].
      intros H [|b pre] s' Heq; [cbn in Heq; by subst|].
      cbn in Heq. injection Heq as <- ->. by apply (IH H pre).
  - induction s as [|a s IH]; intros H; cbn.
    + by rewrite (H "" "").
    + rewrite (H "" (String a s)) by done. apply IH.
      intros pre s' ->. by apply (H (String a pre)).
Qed.

(* re.search finds the match that starts leftmost. *)
Lemma re_search_first dotall pat (pre s : string) g :
  (∀ pre' s', pre +:+ s = pre' +:+ s' →
     String.length pre' < String.length pre →
     match_at dotall pat s' = None) →
  match_at dotall pat s = Some g →
  re_search dotall pat (pre +:+ s) = Some g.
Proof.
  induction pre as [|a pre IH]; intros Hpre Hs.
  - cbn. destruct s; cbn; by rewrite Hs.
  - cbn. rewrite (Hpre "" (String a (pre +:+ s))) by (done || cbn; lia).
    apply IH; [|done]. intros pre' s' Heq Hlen.
    apply (Hpre (String a pre')); cbn; [by rewrite Heq|lia].
Qed.

Lemma lazy_group_inv_shortest {R} dotall (s : string)
    (k : string → string → option R) r :
  lazy_group dotall s k = Some r →
  ∃ g rest, s = g +:+ rest ∧ k g rest = Some r ∧
            ∀ g' rest', s = g' +:+ rest' →
                        String.length g' < String.length g →
                        k g' rest' = None.
Proof.
  revert k. induction s as [|a s IH]; intros k; rewrite lazy_group_unfold.
  - destruct (k "" "") eqn:E; [|done]. intros [= ->].
    exists "", "". split_and!; [done..|]. intros ?? _ Hlen. cbn in Hlen. lia.
  - destruct (k "" (String a s)) eqn:E.
    { intros [= ->]. exists "", (String a s). split_and!; [done..|].
      intros ?? _ Hlen. cbn in Hlen. lia. }
    destruct (dot dotall a) eqn:Ha; [|done].
    intros (g & rest & -> & Hk & Hshort)%IH.
    exists (String a g), rest. split_and!; [done..|].
    intros [|b g'] rest' Heq Hlen; [cbn in Heq; by subst|].
    cbn in Heq, Hlen. injection Heq as <- Heq.
    apply Hshort; [done|lia].
Qed.

Lemma re_search_inv_first dotall pat (s : string) g :
  re_search dotall pat s = Some g →
  ∃ pre s', s = pre +:+ s' ∧ match_at dotall pat s' = Some g ∧
            ∀ pre' s'', s = pre' +:+ s'' →
                        String.length pre' < String.length pre →
                        match_at dotall pat s'' = None.
Proof.
  induction s as [|a s IH]; cbn.
  - destruct (match_at dotall pat "") eqn:E; [|done].
    intros [= ->]. exists "", "". split_and!; [done..|].
    intros ?? _ Hlen. cbn in Hlen. lia.
  - destruct (match_at dotall pat (String a s)) eqn:E.
    + intros [= ->]. exists "", (String a s). split_and!; [done..|].
      intros ?? _ Hlen. cbn in Hlen. lia.
    + intros (pre & s' & -> & H & Hfirst)%IH.
      exists (String a pre), s'. split_and!; [done..|].
      intros [|b pre'] s'' Heq Hlen; [cbn in Heq; by subst|].
      cbn in Heq, Hlen. injection Heq as <- Heq.
      apply (Hfirst pre'); [done|lia].
Qed.

Lemma re_search_inv dotall pat (s : string) g :
  re_search dotall pat s = Some g →
  ∃ pre s', s = pre +:+ s' ∧ match_at dotall pat s' = Some g.
Proof.
  induction s as [|a s IH]; cbn.
  - destruct (match_at dotall pat "") eqn:E; [|done].
    intros [= ->]. by exists "", "".
  - destruct (match_at dotall pat (String a s)) eqn:E.
    + intros [= ->]. by exists "", (String a s).
    + intros (pre & s' & -> & H)%IH. by exists (String a pre), s'.
Qed.

Lemma string_forall_impl (P Q : Ascii.ascii → bool) (s : string) :
  (∀ a, P a = true → Q a = true) →
  string_forall P s = true → string_forall Q s = true.
Proof.
  intros HPQ. induction s as [|a s IH]; [done|]. cbn.
  intros [Ha Hs]%andb_true_iff. by rewrite (HPQ a Ha), IH.
Qed.

Lemma string_forall_dotall (s : string) : string_forall (dot true) s = true.
Proof. induction s as [|a s IH]; [done|]. done. Qed.

Lemma strip_prefix_short (l s : string) :
  String.length s < String.length l → strip_prefix l s = None.
Proof.
  intros H. apply strip_prefix_None. intros r ->.
  rewrite string_app_length in H. lia.
Qed.

Lemma string_app_cons a (s t : string) : String a s +:+ t = String a (s +:+ t).
Proof. done. Qed.

Lemma match_at_Literal dotall l pat (s : string) :
  match_at dotall (Literal l :: pat) s =
  match strip_prefix l s with
  | Some s' => match_at dotall pat s'
  | None => None
  end.
Proof. done. Qed.

Lemma match_at_GreedyGroup dotall pat (s : string) :
  match_at dotall (GreedyGroup :: pat) s =
  greedy dotall s (λ g s', cons g <$> match_at dotall pat s').
Proof. done. Qed.

Lemma match_at_LazyGroup dotall pat (s : string) :
  match_at dotall (LazyGroup :: pat) s =
  lazy_group dotall s (λ g s', cons g <$> match_at dotall pat s').
Proof. done. Qed.

(* ===================================================================== *)
(* Lines 9-12: the text of the table                                     *)
(* ===================================================================== *)

Lemma find_first (l s : string) n pre :
  find l s = Some n → occurs_at l pre s → n ≤ String.length pre.
Proof.
  revert n pre. induction s as [|a s IH]; intros n pre; cbn.
  - destruct (strip_prefix l "") eqn:E; [intros [= <-]; lia|done].
  - destruct (strip_prefix l (String a s)) eqn:E; [intros [= <-]; lia|].
    destruct (find l s) as [m|] eqn:Em; [|done]. intros [= <-] [post Hpost].
    destruct pre as [|b pre].
    + cbn in Hpost. apply strip_prefix_Some in Hpost. congruence.
    + cbn in Hpost. injection Hpost as <- ->. cbn.
      apply le_n_S, (IH m pre eq_refl). by exists post.
Qed.

Lemma first_at_find (l pre s post : string) :
  find l s = Some (String.length pre) →
  strip_prefix (pre +:+ l) s = Some post → first_at l pre s.
Proof.
  intros Hf Hs. split.
  - exists post. apply strip_prefix_Some in Hs as ->.
    apply string_app_assoc.
  - intros pre' H. by apply (find_first l s).
Qed.

(* The code is the text between the first head of the table and the first
   "};" after it, stripped. *)
Lemma fetch_first (file pre body post : string) :
  file = pre +:+ table_head +:+ body +:+ "};" +:+ post →
  first_at table_head pre file →
  first_at "};" body (body +:+ "};" +:+ post) →
  fetch file = Done (strip body).
Proof.
  intros -> [_ Hhead] [_ Hend]. unfold fetch.
  rewrite (re_search_first true table_pattern pre _ [body]); [done| |].
  - intros pre' s' Heq Hlen. unfold table_pattern. rewrite match_at_Literal.
    destruct (strip_prefix table_head s') as [r|] eqn:E; [|done].
    apply strip_prefix_Some in E as ->.
    specialize (Hhead pre' (ex_intro _ r Heq)). lia.
  - unfold table_pattern.
    rewrite match_at_Literal, strip_prefix_app, match_at_LazyGroup.
    apply lazy_group_shortest.
    + apply string_forall_dotall.
    + by rewrite match_at_Literal, strip_prefix_app.
    + intros g' rest' Heq Hlen. rewrite match_at_Literal.
      destruct (strip_prefix "};" rest') as [r|] eqn:E; [|done].
      apply strip_prefix_Some in E as ->.
      specialize (Hend g' (ex_intro _ r Heq)). lia.
Qed.


(* ===================================================================== *)
(* Lines 15-29: the lines of the table                                   *)
(* ===================================================================== *)

Lemma ident_without c (s : string) :
  ident_char c = false → ident s → string_forall (without c) s = true.
Proof.
  intros Hc. apply string_forall_impl. intros a Ha. unfold without.
  destruct (Ascii.eqb a c) eqn:E; [|done].
  apply Ascii.eqb_eq in E as ->. congruence.
Qed.

Lemma ident_dot (s : string) : ident s → string_forall (dot false) s = true.
Proof. apply (ident_without "010"%char). done. Qed.

Lemma string_forall_app_r P (s1 s2 : string) :
  string_forall P (s1 +:+ s2) = true → string_forall P s2 = true.
Proof. rewrite string_forall_app. by intros [_ ?]%andb_true_iff. Qed.

(* A row line gives its state. *)
Lemma re_match_row_line (c : string) :
  string_forall (dot false) c = true →
  re_match row_pattern (row_line c) = Some [c].
Proof.
  intros Hc. unfold re_match, row_pattern, row_line.
  rewrite match_at_Literal, strip_prefix_app, match_at_GreedyGroup.
  apply greedy_longest; [done|done|].
  intros g' rest' Heq Hlen _.
  apply string_app_eq_split in Heq as (d & -> & Hd); [|lia].
  rewrite match_at_Literal, strip_prefix_short; [done|].
  apply (f_equal String.length) in Hd.
  rewrite !string_app_length in *. cbn in Hd |- *. lia.
Qed.

(* An arc line is no row line. *)
Lemma re_match_row_arc_line (e : string * string) :
  ident e.1 → ident e.2 → re_match row_pattern (arc_line e) = None.
Proof.
  intros H1 H2. unfold re_match, row_pattern, arc_line.
  rewrite match_at_Literal, strip_prefix_app, match_at_GreedyGroup.
  apply greedy_None. intros g rest Heq _. rewrite match_at_Literal.
  rewrite (strip_prefix_without (without "{"%char)); [done| |done].
  apply (string_forall_app_r _ g). rewrite <- Heq.
  rewrite !string_forall_app, (ident_without _ e.1), (ident_without _ e.2);
    done.
Qed.

(* An arc line gives its two states. *)
Lemma re_match_arc_line (e : string * string) :
  ident e.1 → ident e.2 →
  re_match arc_pattern (arc_line e) = Some [e.1; e.2].
Proof.
  intros H1 H2. unfold re_match, arc_pattern, arc_line.
  rewrite match_at_Literal, strip_prefix_app, match_at_GreedyGroup.
  apply greedy_longest; [by apply ident_dot| |].
  - rewrite match_at_Literal, strip_prefix_app, match_at_GreedyGroup.
    rewrite (greedy_longest _ _ _ _ [e.2]); [done|by apply ident_dot|done|].
    intros g' rest' Heq Hlen _.
    apply string_app_eq_split in Heq as (d & -> & Hd); [|lia].
    rewrite match_at_Literal, strip_prefix_short; [done|].
    apply (f_equal String.length) in Hd.
    rewrite !string_app_length in *. cbn in Hd |- *. lia.
  - intros g' rest' Heq Hlen _.
    apply string_app_eq_split in Heq as (d & -> & Hd); [|lia].
    rewrite string_app_length in Hlen.
    destruct d as [|x d]; [cbn in Hlen; lia|].
    change "] = VFIO_DEVICE_STATE_" with (String "]" " = VFIO_DEVICE_STATE_")
      in Hd.
    rewrite (string_app_cons "]" " = VFIO_DEVICE_STATE_"),
      (string_app_cons x d) in Hd. injection Hd as <- Hd.
    rewrite match_at_Literal.
    rewrite (strip_prefix_without (without "]"%char)); [done| |done].
    apply (string_forall_app_r _ d). rewrite <- Hd. cbn.
    rewrite string_forall_app, (ident_without _ e.2); done.
Qed.

Lemma parse_line_row st (ln c : string) :
  strip ln = row_line c → ident c →
  parse_line st ln = Done (Parser (Some c) (ps_all_arcs st) (ps_printed st)).
Proof.
  intros Hln Hc. unfold parse_line. rewrite Hln.
  by rewrite re_match_row_line by (by apply ident_dot).
Qed.

Lemma parse_line_arc st (ln c : string) (e : string * string) :
  strip ln = arc_line e → ident e.1 → ident e.2 → ps_cur_fsm st = Some c →
  parse_line st ln
  = Done (Parser (Some c) (<[(c, e.1) := e.2]> (ps_all_arcs st))
            (ps_printed st)).
Proof.
  intros Hln H1 H2 Hc. unfold parse_line. rewrite Hln.
  by rewrite re_match_row_arc_line, re_match_arc_line, Hc.
Qed.

Lemma parse_line_end st (ln : string) :
  strip ln = "}," → parse_line st ln = Done st.
Proof. intros Hln. unfold parse_line. by rewrite Hln. Qed.

Lemma parse_lines_app st (l1 l2 : list string) :
  parse_lines st (l1 ++ l2) =
  match parse_lines st l1 with
  | Done st' => parse_lines st' l2
  | Died e => Died e
  end.
Proof.
  revert st. induction l1 as [|ln l1 IH]; intros st; [done|]. cbn.
  destruct (parse_line st ln); [apply IH|done].
Qed.

Lemma parse_lines_arcs c t pr (lines : list string)
    (es : list (string * string)) :
  strip <$> lines = arc_line <$> es →
  Forall (λ e, ident e.1 ∧ ident e.2) es →
  parse_lines (Parser (Some c) t pr) lines
  = Done (Parser (Some c)
            (foldl (λ t a, <[a.1 := a.2]> t) t
               ((λ e, ((c, e.1), e.2)) <$> es)) pr).
Proof.
  revert t es. induction lines as [|ln lines IH]; intros t [|e es] Heq Hes;
    try done.
  injection Heq as Hln Heq. apply Forall_cons in Hes as [[H1 H2] Hes].
  cbn [parse_lines].
  rewrite (parse_line_arc _ ln c e) by done. cbn. by apply IH.
Qed.

Lemma parse_lines_rows cur t pr (lines : list string)
    (rows : list (string * list (string * string))) :
  strip <$> lines = table_lines rows → Forall row_names_ok rows →
  parse_lines (Parser cur t pr) lines
  = Done (Parser (from_option Some cur (fst <$> last rows))
            (foldl (λ t a, <[a.1 := a.2]> t) t (arcs_of rows)) pr).
Proof.
  revert cur t lines. induction rows as [|row rows IH]; intros cur t lines.
  { destruct lines; [|done]. by destruct cur. }
  intros Heq [[Hc Hes] Hrows]%Forall_cons.
  unfold table_lines in Heq. rewrite bind_cons in Heq. unfold row_lines in Heq.
  apply fmap_app_inv in Heq as (l1 & lines' & Hl1 & Hrest & ->).
  destruct l1 as [|ln0 l1]; [done|]. injection Hl1 as Hln0 Hl1.
  symmetry in Hl1. apply fmap_app_inv in Hl1 as (l2 & l3 & Hl2 & Hl3 & ->).
  destruct l3 as [|ln3 [|??]]; try done. injection Hl3 as Hln3.
  symmetry in Hrest, Hl2.
  cbn [app parse_lines]. rewrite (parse_line_row _ ln0 row.1) by done.
  rewrite !parse_lines_app. cbn [ps_all_arcs ps_printed].
  rewrite (parse_lines_arcs _ _ _ l2 row.2) by done.
  cbn [parse_lines]. rewrite parse_line_end by done.
  rewrite (IH _ _ lines') by done.
  unfold arcs_of. rewrite bind_cons, foldl_app. f_equal. f_equal.
  destruct rows as [|row' rows]; [done|].
  rewrite !last_cons. by destruct (last rows).
Qed.

Lemma elem_of_arcs_of (rows : list (string * list (string * string))) c n s :
  ((c, n), s) ∈ arcs_of rows ↔ ∃ es, (c, es) ∈ rows ∧ (n, s) ∈ es.
Proof.
  unfold arcs_of. rewrite list_elem_of_bind. split.
  - intros ([c' es] & ([n' s'] & [= -> -> ->] & He)%list_elem_of_fmap & Hrow).
    by exists es.
  - intros (es & Hrow & He). exists (c, es). split; [|done].
    apply list_elem_of_fmap. by exists (n, s).
Qed.

(* The dictionary after a list of assignments to distinct keys. *)
Lemma foldl_insert_lookup (l : list ((string * string) * string))
    (t : gmap (string * string) string) k v :
  NoDup l.*1 →
  foldl (λ t a, <[a.1 := a.2]> t) t l !! k = Some v ↔
  (k, v) ∈ l ∨ ((k ∉ l.*1) ∧ t !! k = Some v).
Proof.
  revert t. induction l as [|[k' v'] l IH]; intros t Hnd; cbn.
  { split; [intros; right; split; [apply not_elem_of_nil|done]|].
    by intros [?%elem_of_nil|[_ ?]]. }
  apply NoDup_cons in Hnd as [Hk' Hnd]. rewrite (IH _ Hnd).
  rewrite elem_of_cons, not_elem_of_cons. split.
  - intros [?|[Hk Ht]]; [by left; right|].
    destruct (decide (k = k')) as [->|Hne].
    + rewrite lookup_insert_eq in Ht. injection Ht as ->. by left; left.
    + rewrite lookup_insert_ne in Ht by done. by right.
  - intros [[[= -> ->]|Hin]|[[Hne Hk] Ht]].
    + right. split; [done|]. by rewrite lookup_insert_eq.
    + by left.
    + right. split; [done|]. by rewrite lookup_insert_ne.
Qed.

Lemma table_of_lookup (rows : list (string * list (string * string))) c n s :
  NoDup (arcs_of rows).*1 →
  table_of rows !! (c, n) = Some s ↔ ∃ es, (c, es) ∈ rows ∧ (n, s) ∈ es.
Proof.
  intros Hnd. unfold table_of. rewrite foldl_insert_lookup by done.
  rewrite <- elem_of_arcs_of, lookup_empty.
  split; [by intros [?|[_ ?]]|by left].
Qed.

Lemma parse_table (code : string)
    (rows : list (string * list (string * string))) :
  strip <$> splitlines code = table_lines rows → Forall row_names_ok rows →
  parse code = Done (Parser (fst <$> last rows) (table_of rows) []).
Proof.
  intros Hl Hrows. unfold parse. rewrite (parse_lines_rows _ _ _ _ rows) by done.
  by destruct (last rows).
Qed.

(* The loop dies of an entry that comes before every row, and of nothing
   else. *)
Lemma parse_lines_Died st (lines : list string) e :
  parse_lines st lines = Died e ↔
  e = NameError ∧ ps_cur_fsm st = None ∧
  ∃ i ln, lines !! i = Some ln ∧
          re_match row_pattern (strip ln) = None ∧
          is_Some (re_match arc_pattern (strip ln)) ∧
          ∀ j ln', j < i → lines !! j = Some ln' →
                   re_match row_pattern (strip ln') = None.
Proof.
  revert st. induction lines as [|ln lines IH]; intros st.
  { split; [done|]. by intros (_ & _ & i & ? & ? & _). }
  cbn [parse_lines]. unfold parse_line.
  destruct (re_match row_pattern (strip ln)) as [g|] eqn:Erow.
  { rewrite IH. cbn [ps_cur_fsm]. split; [by intros (_ & ? & _)|].
    intros (_ & _ & [|i] & ln' & Hi & Hr & _ & Hbefore).
    - injection Hi as <-. congruence.
    - specialize (Hbefore 0 ln ltac:(lia) eq_refl). congruence. }
  destruct (re_match arc_pattern (strip ln)) as [g|] eqn:Earc.
  { destruct (ps_cur_fsm st) as [c|] eqn:Ecur.
    - rewrite IH. cbn [ps_cur_fsm].
      split; [by intros (_ & ? & _)|]. by intros (_ & ? & _).
    - split; [|by intros (-> & _)]. intros [= <-]. split_and!; [done..|].
      exists 0, ln. split_and!; [done|done|by eexists|]. intros; lia. }
  assert (∀ st', ps_cur_fsm st' = ps_cur_fsm st →
    (parse_lines st' lines = Died e ↔
     e = NameError ∧ ps_cur_fsm st = None ∧
     ∃ i ln0, (ln :: lines) !! i = Some ln0 ∧
       re_match row_pattern (strip ln0) = None ∧
       is_Some (re_match arc_pattern (strip ln0)) ∧
       ∀ j ln', j < i → (ln :: lines) !! j = Some ln' →
                re_match row_pattern (strip ln') = None)) as Hnext.
  { intros st' Hst'. rewrite IH, Hst'. split.
    - intros (-> & Hc & i & ln0 & Hi & Hr & Ha & Hbefore).
      split_and!; [done..|]. exists (S i), ln0. split_and!; [done..|].
      intros [|j] ln' Hj Hln'; [by injection Hln' as <-|].
      apply (Hbefore j); [lia|done].
    - intros (-> & Hc & [|i] & ln0 & Hi & Hr & Ha & Hbefore).
      { injection Hi as <-. rewrite Earc in Ha. by destruct Ha. }
      split_and!; [done..|]. exists i, ln0. split_and!; [done..|].
      intros j ln' Hj Hln'. apply (Hbefore (S j)); [lia|done]. }
  case_bool_decide; by apply Hnext.
Qed.

(* ===================================================================== *)
(* Lines 115-124: the conditions of mlx5                                 *)
(* ===================================================================== *)






(* ===================================================================== *)
(* The texts, read                                                       *)
(* ===================================================================== *)

(** X12: lines 8-12 take a code from the text of vfio.c exactly when the
    text has a head of the table with "};" somewhere after it, and the
    code is then what stands between the first head of the table in the
    text and the first "};" after it, stripped of the white space around
    it. *)
Theorem X12_fetch (file code : string) :
  fetch file = Done code ↔
  ∃ pre body post,
    file = pre +:+ table_head +:+ body +:+ "};" +:+ post ∧
    first_at table_head pre file ∧
    first_at "};" body (body +:+ "};" +:+ post) ∧
    code = strip body.
Proof.
  split.
  2:{ intros (pre & body & post & Hfile & Hhead & Hend & ->).
      by apply (fetch_first file pre body post). }
  unfold fetch.
  destruct (re_search true table_pattern file) as [g|] eqn:E; [|done].
  intros [= <-].
  apply re_search_inv_first in E as (pre & s' & -> & E & Hfirst).
  unfold table_pattern in E, Hfirst. rewrite match_at_Literal in E.
  destruct (strip_prefix table_head s') as [r|] eqn:E1; [|done].
  apply strip_prefix_Some in E1 as ->. rewrite match_at_LazyGroup in E.
  apply lazy_group_inv_shortest in E as (body & rest & -> & E & Hshort).
  rewrite match_at_Literal in E.
  destruct (strip_prefix "};" rest) as [post|] eqn:E2; [|done].
  apply strip_prefix_Some in E2 as ->. cbn in E. injection E as <-.
  exists pre, body, post. split_and!; [done| | |done].
  - split; [by eexists|]. intros pre' [r' Hr'].
    destruct (decide (String.length pre' < String.length pre)) as [Hlt|]; [|lia].
    specialize (Hfirst pre' _ Hr' Hlt).
    rewrite match_at_Literal, strip_prefix_app, match_at_LazyGroup in Hfirst.
    assert ((pre' +:+ table_head) +:+ r'
            = (pre +:+ table_head +:+ body) +:+ "};" +:+ post) as Heq
      by (by rewrite !string_app_assoc).
    apply string_app_eq_split in Heq as (d & _ & ->).
    2:{ rewrite !string_app_length. lia. }
    apply lazy_group_None with (g := d) (rest := "};" +:+ post) in Hfirst;
      [|done|apply string_forall_dotall].
    by rewrite match_at_Literal, strip_prefix_app in Hfirst.
  - split; [by eexists|]. intros g' [r' Hr'].
    destruct (decide (String.length g' < String.length body)) as [Hlt|]; [|lia].
    specialize (Hshort g' _ Hr' Hlt).
    by rewrite match_at_Literal, strip_prefix_app in Hshort.
Qed.

(* The text ex_vfio_c, fetched. *)
Lemma ex_vfio_c_first_at :
  first_at table_head ex_vfio_c_top ex_vfio_c ∧
  first_at "};" ex_vfio_c_body (ex_vfio_c_body +:+ "};" +:+ ex_vfio_c_rest).
Proof.
  split.
  - apply (first_at_find _ _ _ (ex_vfio_c_body +:+ "};" +:+ ex_vfio_c_rest));
      vm_compute; reflexivity.
  - apply (first_at_find _ _ _ ex_vfio_c_rest); vm_compute; reflexivity.
Qed.

Lemma ex_vfio_c_fetch : fetch ex_vfio_c = Done (strip ex_vfio_c_body).
Proof.
  destruct ex_vfio_c_first_at.
  by apply (fetch_first _ ex_vfio_c_top ex_vfio_c_body ex_vfio_c_rest).
Qed.

(** X13: lines 8-12 die of the exception that open() or F.read() raises
    when vfio.c is not read (FileNotFoundError, UnicodeDecodeError, ...:
    nothing is caught), and, once the text is read, exactly when it has
    no head of the table followed, somewhere after it, by "};": g is
    then None and g.group raises AttributeError. *)
Theorem X13_fetch_fails {E} (r : reading E) (x : fetch_exn E) :
  lines_8_12 r = inl x ↔
  (∃ e, r = ReadRaises e ∧ x = OfReading e) ∨
  (∃ file, r = ReadText file ∧ x = OfSearch AttributeError ∧
     ¬ ∃ pre body post,
         file = pre +:+ table_head +:+ body +:+ "};" +:+ post).
Proof.
  destruct r as [file|e]; cbn [lines_8_12].
  2:{ split; [intros [= <-]; left; by exists e|].
      by intros [(e' & [= <-] & ->)|(? & ? & _)]. }
  unfold fetch. split.
  - destruct (re_search true table_pattern file) eqn:E0; [done|].
    intros [= <-]. right. exists file. split_and!; [done..|].
    intros (pre & body & post & ->).
    pose proof (proj1 (re_search_None _ _ _) E0 pre _ eq_refl) as H.
    unfold table_pattern in H.
    rewrite match_at_Literal, strip_prefix_app, match_at_LazyGroup in H.
    apply lazy_group_None with (g := body) (rest := "};" +:+ post) in H;
      [|done|apply string_forall_dotall].
    by rewrite match_at_Literal, strip_prefix_app in H.
  - intros [(e & ? & _)|(file' & [= <-] & -> & Hno)]; [done|].
    destruct (re_search true table_pattern file) eqn:E0; [|done].
    destruct Hno. apply re_search_inv in E0 as (pre & s' & -> & E0).
    unfold table_pattern in E0. rewrite match_at_Literal in E0.
    destruct (strip_prefix table_head s') as [r|] eqn:E1; [|done].
    apply strip_prefix_Some in E1 as ->. rewrite match_at_LazyGroup in E0.
    apply lazy_group_inv in E0 as (g & rest & -> & _ & E0).
    rewrite match_at_Literal in E0.
    destruct (strip_prefix "};" rest) as [post|] eqn:E2; [|done].
    apply strip_prefix_Some in E2 as ->. by exists pre, g, post.
Qed.

(** X14: a text of vfio.c that holds the table in the layout of the
    kernel - for each state a row line, its entries and the line "},",
    with any indentation, the names made of letters, digits and
    underscores - is read back as that table: lines 8-29 end with the
    dictionary of the entries, with cur_fsm the state of the last row,
    and print no line after "??". *)
Theorem X14_read_table (file pre body post : string)
    (rows : list (string * list (string * string))) :
  file = pre +:+ table_head +:+ body +:+ "};" +:+ post →
  first_at table_head pre file →
  first_at "};" body (body +:+ "};" +:+ post) →
  strip <$> splitlines (strip body) = table_lines rows →
  Forall row_names_ok rows →
  read_table file = Done (Parser (fst <$> last rows) (table_of rows) []) ∧
  (NoDup (arcs_of rows).*1 →
   ∀ c n s, table_of rows !! (c, n) = Some s ↔
            ∃ es, (c, es) ∈ rows ∧ (n, s) ∈ es).
Proof.
  intros Hfile Hhead Hend Hlines Hrows. split.
  - unfold read_table. rewrite (fetch_first file pre body post) by done.
    by apply parse_table.
  - intros Hnd c n s. by apply table_of_lookup.
Qed.

Lemma X14_read_table_witness :
  ex_vfio_c
  = ex_vfio_c_top +:+ table_head +:+ ex_vfio_c_body +:+ "};" +:+ ex_vfio_c_rest ∧
  first_at table_head ex_vfio_c_top ex_vfio_c ∧
  first_at "};" ex_vfio_c_body (ex_vfio_c_body +:+ "};" +:+ ex_vfio_c_rest) ∧
  strip <$> splitlines (strip ex_vfio_c_body) = table_lines ex3_rows ∧
  Forall row_names_ok ex3_rows ∧
  read_table ex_vfio_c
  = Done (Parser (fst <$> last ex3_rows) (table_of ex3_rows) []) ∧
  table_of ex3_rows = ex3.
Proof.
  destruct ex_vfio_c_first_at as [H1 H2].
  assert (strip <$> splitlines (strip ex_vfio_c_body) = table_lines ex3_rows)
    as H3 by (vm_compute; reflexivity).
  assert (Forall row_names_ok ex3_rows) as H4.
  { repeat constructor. }
  assert (table_of ex3_rows = ex3) as H5 by (vm_compute; reflexivity).
  exact (conj eq_refl (conj H1 (conj H2 (conj H3 (conj H4 (conj
    (proj1 (X14_read_table ex_vfio_c ex_vfio_c_top ex_vfio_c_body
              ex_vfio_c_rest ex3_rows eq_refl H1 H2 H3 H4)) H5)))))).
Defined.

(** X15: the loop of lines 16-29 dies exactly when some line of the code
    is an entry line and no line before it is a row line: cur_fsm is then
    not bound at line 26, which raises NameError; the loop raises nothing
    else. *)
Theorem X15_parse_dies (code : string) e :
  parse code = Died e ↔
  e = NameError ∧
  ∃ i ln, splitlines code !! i = Some ln ∧
          re_match row_pattern (strip ln) = None ∧
          is_Some (re_match arc_pattern (strip ln)) ∧
          ∀ j ln', j < i → splitlines code !! j = Some ln' →
                   re_match row_pattern (strip ln') = None.
Proof.
  unfold parse. rewrite parse_lines_Died. cbn [ps_cur_fsm].
  split; [by intros (? & _ & ?)|by intros [? ?]].
Qed.



(* ===================================================================== *)
(* The block for a device without P2P                                    *)
(* ===================================================================== *)

Lemma skip_p2p_unfold (fuel : nat) (t : gmap (string * string) string) c n s :
  skip_p2p fuel t c n s =
  if bool_decide (s ≠ n) && is_p2p s then
    match fuel with
    | 0 => OutOfFuel
    | S fuel' =>
        s' ←! getitem t (s, n);
        skip_p2p fuel' (<[(c, n) := s']> t) c n s'
    end
  else Returns t.
Proof. by destruct fuel. Qed.

Lemma p2p_stop_dec n s :
  bool_decide (s ≠ n) && is_p2p s = false ↔ s = n ∨ is_p2p s = false.
Proof.
  rewrite andb_false_iff, bool_decide_eq_false. split.
  - intros [H|H]; [left; by apply dec_stable|by right].
  - intros [->|H]; [left; by intros []|by right].
Qed.

Lemma p2p_step_det t n s s1 s2 :
  p2p_step t n s s1 → p2p_step t n s s2 → s1 = s2.
Proof. intros (_ & _ & H1) (_ & _ & H2). congruence. Qed.

Lemma p2p_step_not_stop t n s s' :
  p2p_step t n s s' → ¬ (s = n ∨ is_p2p s = false).
Proof. intros (? & ? & _) [?|?]; congruence. Qed.

Lemma skips_to_det t n s v1 v2 :
  skips_to t n s v1 → skips_to t n s v2 → v1 = v2.
Proof.
  intros [H1 Hs1] [H2 Hs2]. induction H1 as [s|s s' v1 Hstep _ IH].
  - apply rtc_inv in H2 as [->|(s' & Hstep & _)]; [done|].
    by destruct (p2p_step_not_stop _ _ _ _ Hstep).
  - apply rtc_inv in H2 as [->|(s'' & Hstep' & H2)].
    + by destruct (p2p_step_not_stop _ _ _ _ Hstep).
    + rewrite (p2p_step_det _ _ _ _ _ Hstep' Hstep) in H2. by apply IH.
Qed.

Lemma skipping_refl t : skipping t t.
Proof. split; [done|]. intros c n x Hx. by exists x. Qed.

(* Line 37 after line 36. *)
Lemma skipping_insert t0 t c n s s' :
  skipping t0 t → t !! (c, n) = Some s → t !! (s, n) = Some s' →
  s ≠ n → is_p2p s = true →
  skipping t0 (<[(c, n) := s']> t).
Proof.
  intros [Hdom Hval] Hc Hs Hne Hp. split.
  - rewrite dom_insert_L, <- Hdom. apply subseteq_union_1_L.
    apply singleton_subseteq_l. by apply elem_of_dom_2 in Hc.
  - intros c' n' x. destruct (decide ((c', n') = (c, n))) as [[= -> ->]|Hk].
    + rewrite lookup_insert_eq. intros [= <-].
      destruct (Hval _ _ _ Hc) as (y & Hy & Hys).
      destruct (Hval _ _ _ Hs) as (y' & Hy' & Hys').
      exists y. split; [done|]. etrans; [exact Hys|].
      by eapply rtc_l.
    + rewrite lookup_insert_ne by done. apply Hval.
Qed.

(* The while loop of one key leaves the other keys alone and ends on the
   target or on a state that is no P2P state. *)
Lemma skip_p2p_Returns fuel t0 t c n s t' :
  skipping t0 t → t !! (c, n) = Some s →
  skip_p2p fuel t c n s = Returns t' →
  skipping t0 t' ∧ (∀ k, k ≠ (c, n) → t' !! k = t !! k) ∧
  ∃ v, t' !! (c, n) = Some v ∧ (v = n ∨ is_p2p v = false).
Proof.
  revert t s. induction fuel as [|fuel IH]; intros t s Hinv Hc;
    rewrite skip_p2p_unfold;
    destruct (bool_decide (s ≠ n) && is_p2p s) eqn:E; try done.
  - intros [= <-]. split_and!; [done..|]. exists s. by apply p2p_stop_dec in E.
  - apply andb_true_iff in E as [Hne%bool_decide_eq_true Hp].
    unfold getitem. destruct (t !! (s, n)) as [s'|] eqn:Hs; [|done]. cbn.
    intros H. apply IH in H as (Hinv' & Hother & Hv).
    + split_and!; [done| |done]. intros k Hk.
      by rewrite Hother, lookup_insert_ne.
    + by eapply skipping_insert.
    + by rewrite lookup_insert_eq.
  - intros [= <-]. split_and!; [done..|]. exists s. by apply p2p_stop_dec in E.
Qed.

Lemma skip_p2p_loop_Returns fuel t0 t keys t' :
  skipping t0 t → NoDup keys →
  skip_p2p_loop fuel t keys = Returns t' →
  skipping t0 t' ∧ (∀ k, k ∉ keys → t' !! k = t !! k) ∧
  ∀ c n, (c, n) ∈ keys → ∃ v, t' !! (c, n) = Some v ∧ (v = n ∨ is_p2p v = false).
Proof.
  revert t. induction keys as [|[c n] keys IH]; intros t Hinv Hnd; cbn.
  { intros [= <-]. split_and!; [done..|]. by intros c n ?%elem_of_nil. }
  apply NoDup_cons in Hnd as [Hk Hnd].
  unfold getitem at 1. destruct (t !! (c, n)) as [s|] eqn:Hc; [|done]. cbn.
  destruct (skip_p2p fuel t c n s) as [t1| |] eqn:H1; try done. cbn.
  apply (skip_p2p_Returns _ t0) in H1 as (Hinv1 & Hother1 & v & Hv & Hstop);
    [|done..].
  intros H. apply IH in H as (Hinv' & Hother & Hkeys); [|done..].
  split_and!; [done| |].
  - intros k [Hne Hk']%not_elem_of_cons. by rewrite Hother, Hother1.
  - intros c' n' [[= -> ->]|Hin]%elem_of_cons; [|by apply Hkeys].
    exists v. by rewrite Hother.
Qed.

Lemma drop_p2p_rows_lookup (t : gmap (string * string) string) keys k :
  drop_p2p_rows t keys !! k =
  if is_p2p k.1 && bool_decide (k ∈ keys) then None else t !! k.
Proof.
  unfold drop_p2p_rows. revert t.
  induction keys as [|k' keys IH]; intros t; cbn.
  { by rewrite andb_false_r. }
  rewrite IH. destruct (is_p2p k.1) eqn:Hp; cbn.
  - case_bool_decide as Hin.
    + rewrite bool_decide_eq_true_2; [done|by right].
    + destruct (decide (k = k')) as [<-|Hne].
      * rewrite Hp, lookup_delete_eq.
        rewrite bool_decide_eq_true_2; [done|by left].
      * rewrite bool_decide_eq_false_2 by (by intros [?|?]%elem_of_cons).
        destruct (is_p2p k'.1); [by rewrite lookup_delete_ne|done].
  - destruct (is_p2p k'.1) eqn:Hp'; [|done].
    rewrite lookup_delete_ne; [done|]. intros ->. congruence.
Qed.

Lemma p2p_not_supported_Returns fuel t keys t' :
  keys_of t keys → p2p_not_supported fuel t keys = Returns t' →
  ∃ t1, skip_p2p_loop fuel t keys = Returns t1 ∧ skipping t t1 ∧
        (∀ c n, (c, n) ∈ dom t →
                ∃ v, t1 !! (c, n) = Some v ∧ (v = n ∨ is_p2p v = false)) ∧
        ∀ k, t' !! k = if is_p2p k.1 then None else t1 !! k.
Proof.
  intros [Hnd Hkeys]. unfold p2p_not_supported.
  destruct (skip_p2p_loop fuel t keys) as [t1| |] eqn:H1; try done. cbn.
  intros [= <-]. exists t1.
  destruct (skip_p2p_loop_Returns _ t _ _ _ (skipping_refl t) Hnd H1)
    as (Hinv & _ & Hv).
  split_and!; [done..| |].
  - intros c n Hin. apply Hv. by apply Hkeys.
  - intros k. rewrite drop_p2p_rows_lookup.
    destruct (is_p2p k.1); [|done]. cbn. case_bool_decide as Hin; [done|].
    rewrite Hkeys in Hin. apply not_elem_of_dom in Hin.
    destruct Hinv as [Hdom _]. apply not_elem_of_dom. rewrite Hdom.
    by apply not_elem_of_dom.
Qed.

(* The number of steps to the state where the loop stops is determined. *)
Lemma p2p_nsteps_unique t n s a b v v' :
  nsteps (p2p_step t n) a s v → (v = n ∨ is_p2p v = false) →
  nsteps (p2p_step t n) b s v' → (v' = n ∨ is_p2p v' = false) → a = b.
Proof.
  intros Ha Hv. revert b.
  induction Ha as [s|a s s1 v Hstep _ IH]; intros b Hb Hv'.
  - inversion Hb as [|b' ? s2 ? Hstep' Hb']; subst; [done|].
    by destruct (p2p_step_not_stop _ _ _ _ Hstep').
  - inversion Hb as [|b' ? s2 ? Hstep' Hb']; subst.
    + by destruct (p2p_step_not_stop _ _ _ _ Hstep).
    + rewrite (p2p_step_det _ _ _ _ _ Hstep' Hstep) in Hb'.
      f_equal. by apply IH.
Qed.

Lemma is_p2p_cases s :
  is_p2p s = true → s = "RUNNING_P2P" ∨ s = "PRE_COPY_P2P".
Proof.
  unfold is_p2p. intros [H|H]%orb_true_iff; apply bool_decide_eq_true in H;
    auto.
Qed.

(* There are two P2P states: a way through P2P states that comes to an end
   has two steps at most. *)
Lemma p2p_route_short t n k s v :
  nsteps (p2p_step t n) k s v → (v = n ∨ is_p2p v = false) → k ≤ 2.
Proof.
  intros Hk Hv. destruct k as [|[|[|k]]]; [lia..|]. exfalso.
  inversion Hk as [|? ? s1 ? Hs0 Hk1]; subst.
  inversion Hk1 as [|? ? s2 ? Hs1 Hk2]; subst.
  inversion Hk2 as [|? ? s3 ? Hs2 Hk3]; subst.
  pose proof Hs0 as (_ & [?|?]%is_p2p_cases & _);
    pose proof Hs1 as (_ & [?|?]%is_p2p_cases & _);
    pose proof Hs2 as (_ & [?|?]%is_p2p_cases & _); subst.
  all: first
    [ pose proof (p2p_nsteps_unique _ _ _ _ _ _ _ Hk Hv Hk1 Hv); lia
    | pose proof (p2p_nsteps_unique _ _ _ _ _ _ _ Hk1 Hv Hk2 Hv); lia
    | pose proof (p2p_nsteps_unique _ _ _ _ _ _ _ Hk Hv Hk2 Hv); lia ].
Qed.

(* A state on the way is no farther from the end than the start. *)
Lemma p2p_rtc_nsteps t n y s m v :
  rtc (p2p_step t n) y s → nsteps (p2p_step t n) m y v →
  (v = n ∨ is_p2p v = false) →
  ∃ m', m' ≤ m ∧ nsteps (p2p_step t n) m' s v.
Proof.
  intros Hys. revert m. induction Hys as [y|y y1 s Hstep _ IH]; intros m Hm Hv.
  - by exists m.
  - inversion Hm as [|m0 ? y1' ? Hstep' Hm0]; subst.
    + by destruct (p2p_step_not_stop _ _ _ _ Hstep).
    + rewrite (p2p_step_det _ _ _ _ _ Hstep' Hstep) in Hm0.
      destruct (IH m0 Hm0 Hv) as (m' & ? & ?). exists m'. split; [lia|done].
Qed.

Lemma skip_p2p_total fuel t0 t c n s k v :
  skipping t0 t → t !! (c, n) = Some s →
  nsteps (p2p_step t0 n) k s v → (v = n ∨ is_p2p v = false) → k ≤ fuel →
  ∃ t', skip_p2p fuel t c n s = Returns t'.
Proof.
  revert t s k. induction fuel as [|fuel IH]; intros t s k Hinv Hc Hk Hv Hle;
    rewrite skip_p2p_unfold;
    destruct (bool_decide (s ≠ n) && is_p2p s) eqn:E; try by eexists.
  - assert (k = 0) as -> by lia. inversion Hk; subst.
    apply p2p_stop_dec in Hv. congruence.
  - apply andb_true_iff in E as [Hne%bool_decide_eq_true Hp].
    inversion Hk as [|k0 ? y ? Hstep Hk0]; subst.
    { apply p2p_stop_dec in Hv. rewrite Hp, bool_decide_eq_true_2 in Hv; done. }
    destruct Hstep as (_ & _ & Hy).
    assert (is_Some (t !! (s, n))) as [s' Hs].
    { apply elem_of_dom. destruct Hinv as [-> _]. by apply elem_of_dom. }
    unfold getitem. rewrite Hs. cbn.
    destruct Hinv as [Hdom Hval].
    destruct (Hval _ _ _ Hs) as (y' & Hy' & Hys'). simplify_eq.
    destruct (p2p_rtc_nsteps _ _ _ _ _ _ Hys' Hk0 Hv) as (m' & Hm' & Hs').
    apply (IH _ _ m'); [|by rewrite lookup_insert_eq|done|done|lia].
    by eapply skipping_insert.
Qed.

Lemma skip_p2p_loop_total fuel t0 t keys :
  skipping t0 t → NoDup keys → (∀ k, k ∈ keys → k ∈ dom t0) →
  (∀ c n s, t0 !! (c, n) = Some s → ∃ v, skips_to t0 n s v) → 2 ≤ fuel →
  ∃ t', skip_p2p_loop fuel t keys = Returns t'.
Proof.
  intros Hinv Hnd Hkeys Hroute Hfuel. revert t Hinv.
  induction keys as [|[c n] keys IH]; intros t Hinv; cbn; [by eexists|].
  apply NoDup_cons in Hnd as [Hk Hnd].
  assert (is_Some (t !! (c, n))) as [s Hc].
  { apply elem_of_dom. destruct Hinv as [-> _]. apply Hkeys. by left. }
  unfold getitem at 1. rewrite Hc. cbn.
  destruct Hinv as [Hdom Hval]. destruct (Hval _ _ _ Hc) as (y & Hy & Hys).
  destruct (Hroute _ _ _ Hy) as (v & [m Hm]%rtc_nsteps & Hv).
  destruct (p2p_rtc_nsteps _ _ _ _ _ _ Hys Hm Hv) as (m' & Hm' & Hs).
  pose proof (p2p_route_short _ _ _ _ _ Hs Hv) as Hshort.
  destruct (skip_p2p_total fuel t0 t c n s m' v) as [t1 H1];
    [done|done|done|done|lia|].
  rewrite H1. cbn.
  apply (skip_p2p_Returns _ t0) in H1 as (Hinv1 & _); [|done..].
  apply IH; [done| |done]. intros k ?. apply Hkeys. by right.
Qed.

(* The block looks up entries and does nothing else that can fail. *)
Lemma skip_p2p_Raises (fuel : nat) (t : gmap (string * string) string) c n s e :
  skip_p2p fuel t c n s = Raises e → e = KeyError.
Proof.
  revert t s. induction fuel as [|fuel IH]; intros t s;
    rewrite skip_p2p_unfold;
    destruct (bool_decide (s ≠ n) && is_p2p s); try done.
  unfold getitem. destruct (t !! (s, n)) as [s'|]; cbn; [apply IH|].
  by intros [= <-].
Qed.

Lemma skip_p2p_loop_Raises (fuel : nat) (t : gmap (string * string) string) keys e :
  skip_p2p_loop fuel t keys = Raises e → e = KeyError.
Proof.
  revert t. induction keys as [|[c n] keys IH]; intros t; cbn; [done|].
  unfold getitem at 1. destruct (t !! (c, n)) as [s|]; cbn;
    [|by intros [= <-]].
  destruct (skip_p2p fuel t c n s) as [t1|e1|] eqn:H1; cbn; [apply IH| |done].
  intros [= <-]. by apply skip_p2p_Raises in H1.
Qed.

Lemma keys_of_table (l : list (string * string * string)) :
  NoDup l.*1 → keys_of (table l) l.*1.
Proof.
  intros Hnd. split; [done|]. intros k. unfold table.
  by rewrite dom_list_to_map_L, elem_of_list_to_set.
Qed.

Lemma ex_p2p_keys_of : keys_of ex_p2p ex_p2p_keys.
Proof.
  apply keys_of_table. apply (bool_decide_unpack _). vm_compute. exact I.
Qed.

Lemma ex_p2p_not_supported :
  p2p_not_supported 2 ex_p2p ex_p2p_keys = Returns ex_p2p_skipped.
Proof. vm_cast_no_check (eq_refl (Returns ex_p2p_skipped)). Qed.

(** X17: the block of lines 33-40 (under "if False:" in the script, to be
    enabled for a device without P2P), run on a table with its keys in
    any order, removes the rows of the two P2P states and nothing else,
    and leaves in every other entry the first state, on the way the table
    took from its value towards the target, that is the target or no P2P
    state.  So after the block no state of the table is a P2P state, and
    no entry between two states of the table is one. *)
Theorem X17_p2p_not_supported fuel t keys t' :
  keys_of t keys → p2p_not_supported fuel t keys = Returns t' →
  (∀ c n, (c, n) ∈ dom t' ↔ (c, n) ∈ dom t ∧ is_p2p c = false) ∧
  (∀ c n s v, t !! (c, n) = Some s → is_p2p c = false →
     (t' !! (c, n) = Some v ↔ skips_to t n s v)) ∧
  (∀ s, s ∈ all_states t' → is_p2p s = false) ∧
  (∀ c n v, (c, n) ∈ all_state_pairs t' → t' !! (c, n) = Some v →
            is_p2p v = false).
Proof.
  intros Hkeys Hret.
  destruct (p2p_not_supported_Returns _ _ _ _ Hkeys Hret)
    as (t1 & _ & [Hdom Hval] & Hstop & Hlook).
  assert (∀ c n, (c, n) ∈ dom t' ↔ (c, n) ∈ dom t ∧ is_p2p c = false) as Hd.
  { intros c n. rewrite <- Hdom, !elem_of_dom, Hlook. cbn.
    destruct (is_p2p c); [|by split; [|intros []]].
    split; [by intros []|by intros []]. }
  assert (∀ s, s ∈ all_states t' → is_p2p s = false) as Hstates.
  { intros s [n [_ Hs]%elem_of_dom%Hd]%elem_of_all_states. done. }
  split_and!; [done| |done|].
  - intros c n s v Hs Hc. rewrite Hlook. cbn. rewrite Hc.
    destruct (Hstop c n) as (v0 & Hv0 & Hs0); [by apply elem_of_dom_2 in Hs|].
    destruct (Hval _ _ _ Hv0) as (y & Hy & Hroute). simplify_eq.
    assert (skips_to t n s v0) as H0 by done.
    rewrite Hv0. split; [by intros [= <-]|].
    intros H. by rewrite (skips_to_det _ _ _ _ _ H H0).
  - intros c n v (Hc & Hn & _)%elem_of_all_state_pairs Hv.
    rewrite Hlook in Hv. cbn in Hv. rewrite (Hstates c Hc) in Hv.
    destruct (Hstop c n) as (v0 & Hv0 & [->|Hs0]);
      [rewrite <- Hdom; by apply elem_of_dom_2 in Hv|..]; simplify_eq; auto.
Qed.

Lemma X17_p2p_not_supported_witness :
  keys_of ex_p2p ex_p2p_keys ∧
  p2p_not_supported 2 ex_p2p ex_p2p_keys = Returns ex_p2p_skipped ∧
  ∀ s, s ∈ all_states ex_p2p_skipped → is_p2p s = false.
Proof.
  pose proof ex_p2p_keys_of as H1. pose proof ex_p2p_not_supported as H2.
  exact (conj H1 (conj H2
    (proj1 (proj2 (proj2
       (X17_p2p_not_supported 2 ex_p2p ex_p2p_keys ex_p2p_skipped H1 H2)))))).
Defined.

(** X18: the block of lines 33-40 comes to its end exactly when, for every
    entry of the table, the way from its value towards its target leaves
    the P2P states or reaches the target; two rounds of the while loop
    of line 35 are then enough for each entry.  If the block raises, it
    raises KeyError, for an entry that is missing on such a way. *)
Theorem X18_p2p_block_returns fuel t keys :
  keys_of t keys → 2 ≤ fuel →
  ((∃ t', p2p_not_supported fuel t keys = Returns t') ↔
   ∀ c n s, t !! (c, n) = Some s → ∃ v, skips_to t n s v) ∧
  ∀ e, p2p_not_supported fuel t keys = Raises e → e = KeyError.
Proof.
  intros Hkeys Hfuel. split; [split|].
  - intros [t' Hret] c n s Hs.
    destruct (p2p_not_supported_Returns _ _ _ _ Hkeys Hret)
      as (t1 & _ & [Hdom Hval] & Hstop & _).
    destruct (Hstop c n) as (v & Hv & Hsv); [by apply elem_of_dom_2 in Hs|].
    destruct (Hval _ _ _ Hv) as (y & Hy & Hroute). simplify_eq.
    by exists v.
  - intros Hroute. destruct Hkeys as [Hnd Hkeys].
    destruct (skip_p2p_loop_total fuel t t keys) as [t1 H1];
      [apply skipping_refl|done|by intros k ?%Hkeys|done|done|].
    exists (drop_p2p_rows t1 keys). unfold p2p_not_supported. by rewrite H1.
  - intros e. unfold p2p_not_supported.
    destruct (skip_p2p_loop fuel t keys) as [t1|e1|] eqn:H1; cbn; [done| |done].
    intros [= <-]. by apply skip_p2p_loop_Raises in H1.
Qed.

Lemma X18_p2p_block_returns_witness :
  keys_of ex_p2p ex_p2p_keys ∧ 2 ≤ 2 ∧
  ∀ c n s, ex_p2p !! (c, n) = Some s → ∃ v, skips_to ex_p2p n s v.
Proof.
  pose proof ex_p2p_keys_of as H1.
  exact (conj H1 (conj (le_n 2)
    (proj1 (proj1 (X18_p2p_block_returns 2 ex_p2p ex_p2p_keys H1 (le_n 2)))
       (ex_intro _ ex_p2p_skipped ex_p2p_not_supported)))).
Defined.
